(** * gofrac: the fractal iteration engine of [frac.go]

    A shallow embedding of the evaluation code of package [gofrac]
    (file [frac.go]) and of its dispatcher [FracIt], with the properties
    of the iteration variants proved over it.

    - [float64] is Rocq's primitive binary64 float, so every arithmetic
      operation below rounds as the Go program does (amd64: no fused
      multiply-add).
    - [complex128] is a pair of [float64]; the complex operators are
      unfolded the way the Go compiler expands them.
    - [int] is a 64-bit integer, kept in [Z] with the wrap-around written
      out ([GoInt.wrap]).
    - Loops run on fuel that counts executions of the loop body.
    - The goroutines of [FracIt] are the processes of a step relation.
      A goroutine that panics runs its deferred calls and the runtime
      then ends the process; the other goroutines run on until it does. *)

From Stdlib Require Import ZArith Lia Bool List String.
From Stdlib Require Import Floats.
From stdpp Require Import gmap.

Local Open Scope Z_scope.

(* ================================================================== *)
(** ** Go's [int] *)
(* ================================================================== *)

Module GoInt.

Definition min_int : Z := - 2 ^ 63.
Definition max_int : Z := 2 ^ 63 - 1.

(** Two's complement wrap-around of a mathematical integer. *)
Definition wrap (x : Z) : Z := (x + 2 ^ 63) mod 2 ^ 64 - 2 ^ 63.

Definition add (a b : Z) : Z := wrap (a + b).
Definition sub (a b : Z) : Z := wrap (a - b).

Definition in_range (x : Z) : Prop := min_int <= x <= max_int.

(** How many values a count takes, starting from 0 and going up by one
    with wrap-around, up to and including the first that equals
    [m - 1] as an [int]. *)
Definition budget (m : Z) : Z := (m - 1) mod 2 ^ 64 + 1.

End GoInt.

(* ================================================================== *)
(** ** [float64], package [math] and [complex128] *)
(* ================================================================== *)

Abbreviation float64 := PrimFloat.float.

Module GoMath.

(** [math.MaxFloat64]. *)
Definition MaxFloat64 : float64 := 0x1.fffffffffffffp+1023%float.

(** [math.IsNaN]: [f != f]. *)
Definition IsNaN (f : float64) : bool := negb (PrimFloat.eqb f f).

(** [math.IsInf(f, sign)]:
    [sign >= 0 && f > MaxFloat64 || sign <= 0 && f < -MaxFloat64]. *)
Definition IsInf (f : float64) (sign : Z) : bool :=
  (0 <=? sign) && PrimFloat.ltb MaxFloat64 f
  || (sign <=? 0) && PrimFloat.ltb f (PrimFloat.opp MaxFloat64).

(** [math.Hypot], the portable implementation: the special cases come
    first, then [p * Sqrt(1 + (q/p)^2)] with [p] the larger magnitude. *)
Definition Hypot (p q : float64) : float64 :=
  let p := PrimFloat.abs p in
  let q := PrimFloat.abs q in
  if IsInf p 1 || IsInf q 1 then PrimFloat.infinity
  else if IsNaN p || IsNaN q then PrimFloat.nan
  else
    let '(p, q) := if PrimFloat.ltb p q then (q, p) else (p, q) in
    if PrimFloat.eqb p 0 then 0%float
    else
      let q := PrimFloat.div q p in
      PrimFloat.mul p (PrimFloat.sqrt (PrimFloat.add 1 (PrimFloat.mul q q))).

End GoMath.

Record complex128 : Type := Complex { real : float64; imag : float64 }.

(** The complex constant [0]. *)
Definition c0 : complex128 := Complex 0 0.

(** [x + y], [x - y] and [x * y] on [complex128], as the compiler expands
    them over the real and imaginary parts. *)
Definition cadd (x y : complex128) : complex128 :=
  Complex (PrimFloat.add (real x) (real y)) (PrimFloat.add (imag x) (imag y)).

Definition csub (x y : complex128) : complex128 :=
  Complex (PrimFloat.sub (real x) (real y)) (PrimFloat.sub (imag x) (imag y)).

Definition cmul (x y : complex128) : complex128 :=
  Complex
    (PrimFloat.sub (PrimFloat.mul (real x) (real y)) (PrimFloat.mul (imag x) (imag y)))
    (PrimFloat.add (PrimFloat.mul (real x) (imag y)) (PrimFloat.mul (imag x) (real y))).

Module GoRuntime.

Definition isFinite (f : float64) : bool :=
  negb (GoMath.IsNaN (PrimFloat.sub f f)).

Definition isInf (f : float64) : bool :=
  negb (GoMath.IsNaN f) && negb (isFinite f).

(** The sign bit of a NaN.  Rocq's binary64 has a single NaN; a NaN of
    Go carries a sign bit, which [copysign] reads.  The NaNs that amd64
    arithmetic produces ([Inf - Inf], [Inf * 0], [0 / 0]) have the bit
    set, and here every NaN has: a NaN built with the bit clear, such as
    [math.NaN()], is not told apart from them. *)
Definition nan_signbit : bool := true.

(** The sign bit of [y]. *)
Definition signbit (y : float64) : bool :=
  if GoMath.IsNaN y then nan_signbit else PrimFloat.get_sign y.

(** [copysign(x, y)]: the magnitude of [x] with the sign bit of [y]. *)
Definition copysign (x y : float64) : float64 :=
  if signbit y then PrimFloat.opp (PrimFloat.abs x) else PrimFloat.abs x.

(** A signed 1 if [f] is an infinity and a signed 0 otherwise. *)
Definition inf2one (f : float64) : float64 :=
  copysign (if isInf f then 1%float else 0%float) f.

(** [runtime.complex128div]: the code the compiler emits a call to for
    [n / m] on [complex128] (Smith's algorithm, then the C99 corrections
    when both parts come out as NaN).  It is a total function: a complex
    division never panics. *)
Definition complex128div (n m : complex128) : complex128 :=
  let '(e, f) :=
    if PrimFloat.leb (PrimFloat.abs (imag m)) (PrimFloat.abs (real m)) then
      let ratio := PrimFloat.div (imag m) (real m) in
      let denom := PrimFloat.add (real m) (PrimFloat.mul ratio (imag m)) in
      (PrimFloat.div (PrimFloat.add (real n) (PrimFloat.mul (imag n) ratio)) denom,
       PrimFloat.div (PrimFloat.sub (imag n) (PrimFloat.mul (real n) ratio)) denom)
    else
      let ratio := PrimFloat.div (real m) (imag m) in
      let denom := PrimFloat.add (imag m) (PrimFloat.mul ratio (real m)) in
      (PrimFloat.div (PrimFloat.add (PrimFloat.mul (real n) ratio) (imag n)) denom,
       PrimFloat.div (PrimFloat.sub (PrimFloat.mul (imag n) ratio) (real n)) denom) in
  if GoMath.IsNaN e && GoMath.IsNaN f then
    let a := real n in let b := imag n in
    let c := real m in let d := imag m in
    if (PrimFloat.eqb c 0 && PrimFloat.eqb d 0)
       && (negb (GoMath.IsNaN a) || negb (GoMath.IsNaN b)) then
      Complex (PrimFloat.mul (copysign PrimFloat.infinity c) a)
              (PrimFloat.mul (copysign PrimFloat.infinity c) b)
    else if (isInf a || isInf b) && isFinite c && isFinite d then
      let a := inf2one a in let b := inf2one b in
      Complex
        (PrimFloat.mul PrimFloat.infinity
           (PrimFloat.add (PrimFloat.mul a c) (PrimFloat.mul b d)))
        (PrimFloat.mul PrimFloat.infinity
           (PrimFloat.sub (PrimFloat.mul b c) (PrimFloat.mul a d)))
    else if (isInf c || isInf d) && isFinite a && isFinite b then
      let c := inf2one c in let d := inf2one d in
      Complex
        (PrimFloat.mul 0 (PrimFloat.add (PrimFloat.mul a c) (PrimFloat.mul b d)))
        (PrimFloat.mul 0 (PrimFloat.sub (PrimFloat.mul b c) (PrimFloat.mul a d)))
    else Complex e f
  else Complex e f.

(** [runtime.maxAlloc] on linux/amd64 (48 address bits) and the size of
    the channel header [hchan] (96 bytes on 64-bit targets up to Go
    1.22). *)
Definition maxAlloc : Z := 2 ^ 48.
Definition hchanSize : Z := 96.

(** [make(chan int, size)]: [runtime.makechan] panics with
    "makechan: size out of range" unless the buffer of [size] elements
    of 8 bytes fits under [maxAlloc - hchanSize].  Running out of memory
    below that bound is a fatal error that depends on the machine; it is
    not part of this model. *)
Definition makechan_fits (size : Z) : bool :=
  (0 <=? size) && (size * 8 <=? maxAlloc - hchanSize).

Definition ErrMakechan : string := "makechan: size out of range"%string.

End GoRuntime.

Definition cdiv : complex128 -> complex128 -> complex128 := GoRuntime.complex128div.

(** [cmplx.Abs(x)] is [math.Hypot(real(x), imag(x))]. *)
Definition cmplx_Abs (x : complex128) : float64 := GoMath.Hypot (real x) (imag x).

(* ================================================================== *)
(** ** Loops *)
(* ================================================================== *)

(** What one execution of a loop body does: fall through to the post
    statement and the next test ([Next]), or leave through [break]. *)
Inductive flow (S : Type) : Type :=
| Next (s : S)
| Break (s : S).
Arguments Next {S} s.
Arguments Break {S} s.

(** [for init; cond; post { body }], started in the state [init] leaves.
    The fuel is the number of times the body may run; the result carries
    the number of times it did run.  [None]: the fuel ran out. *)
Fixpoint for_loop {S : Type} (cond : S -> bool) (body : S -> flow S) (post : S -> S)
    (fuel : nat) (s : S) : option (nat * S) :=
  if cond s then
    match fuel with
    | O => None
    | Datatypes.S fuel' =>
        match body s with
        | Break s' => Some (1%nat, s')
        | Next s' =>
            match for_loop cond body post fuel' (post s') with
            | Some (n, t) => Some (Datatypes.S n, t)
            | None => None
            end
        end
    end
  else Some (O, s).

(* ================================================================== *)
(** ** Data model *)
(* ================================================================== *)

(** Go's [error]: here always built by [errors.New] from a message. *)
Definition error : Type := string.

Record FracData : Type := mkFracData {
  Radius : float64;
  MaxIterations : Z;
  degree : float64;
  logDegreeInv : float64
}.

(** The record [Frac] returns (the fields [Z], [C], [Iterations] and
    [NFactor] of the Go struct). *)
Record Result : Type := mkResult {
  Result_Z : complex128;
  Result_C : complex128;
  Iterations : Z;
  NFactor : float64
}.

(** [func (f *FracData) SetRadius(r float64)] *)
Definition FracData_SetRadius (f : FracData) (r : float64) : FracData :=
  mkFracData r (MaxIterations f) (degree f) (logDegreeInv f).

Definition ErrMaxIterations : error :=
  "gofrac: the maximum iteration count must be greater than zero"%string.

(** [func (f *FracData) SetMaxIterations(n int) error]: the receiver is a
    pointer, so the call yields the updated struct together with the
    returned error ([None] is Go's [nil]). *)
Definition FracData_SetMaxIterations (f : FracData) (n : Z) : FracData * option error :=
  if n <? 1 then (f, Some ErrMaxIterations)
  else (mkFracData (Radius f) n (degree f) (logDegreeInv f), None).

(* ================================================================== *)
(** ** The shared quadratic core *)
(* ================================================================== *)

Record Quadratic : Type := mkQuadratic { Quadratic_FracData : FracData }.

(** [func getMod2(z complex128) float64]: the source returns
    [a*a + b+b], parsed as [(a*a + b) + b]. *)
Definition getMod2 (z : complex128) : float64 :=
  let a := real z in
  let b := imag z in
  PrimFloat.add (PrimFloat.add (PrimFloat.mul a a) b) b.

(** The variables of the loop of [Quadratic.q]. *)
Record q_state : Type := mk_q_state {
  q_z : complex128;
  q_count : Z;
  q_mod2 : float64
}.

Section QuadraticLoop.
Variable q : Quadratic.
Variable c : complex128.

Definition q_r2 : float64 :=
  PrimFloat.mul (Radius (Quadratic_FracData q)) (Radius (Quadratic_FracData q)).
Definition q_maxIt : Z := GoInt.sub (MaxIterations (Quadratic_FracData q)) 1.

Definition q_init (z : complex128) : q_state := mk_q_state z 0 (getMod2 z).
Definition q_cond (s : q_state) : bool := PrimFloat.leb (q_mod2 s) q_r2.
Definition q_body (s : q_state) : flow q_state :=
  let z := cadd (cmul (q_z s) (q_z s)) c in
  if q_count s =? q_maxIt then Break (mk_q_state z (q_count s) (q_mod2 s))
  else Next (mk_q_state z (GoInt.add (q_count s) 1) (getMod2 z)).
Definition q_post (s : q_state) : q_state :=
  mk_q_state (q_z s) (q_count s) (getMod2 (q_z s)).

Definition q_loop (fuel : nat) (z : complex128) : option (nat * q_state) :=
  for_loop q_cond q_body q_post fuel (q_init z).

End QuadraticLoop.

(** [func (q Quadratic) q(z complex128, c complex128) *Result] *)
Definition Quadratic_q (fuel : nat) (q : Quadratic) (z c : complex128) : option Result :=
  match q_loop q c fuel z with
  | Some (_, s) => Some (mkResult (q_z s) c (q_count s) 0)
  | None => None
  end.

(** How many times [Quadratic.q] applies [z = z*z + c]. *)
Definition Quadratic_q_steps (fuel : nat) (q : Quadratic) (z c : complex128) : option nat :=
  match q_loop q c fuel z with
  | Some (n, _) => Some n
  | None => None
  end.

(* ================================================================== *)
(** ** Mandelbrot and the quadratic Julia set *)
(* ================================================================== *)

Record Mandelbrot : Type := mkMandelbrot { Mandelbrot_Quadratic : Quadratic }.

(** [func isCardioidOrP2Bulb(z complex128, maxIt int) bool] *)
Definition isCardioidOrP2Bulb (z : complex128) (maxIt : Z) : bool :=
  let reZ := real z in
  let imZ := imag z in
  let rzp := PrimFloat.sub reZ 0.25 in
  let imz2 := PrimFloat.mul imZ imZ in
  let q := PrimFloat.add (PrimFloat.mul rzp rzp) imz2 in
  let isCardiod :=
    PrimFloat.leb (PrimFloat.mul q (PrimFloat.add q rzp)) (PrimFloat.mul 0.25 imz2) in
  if isCardiod then true
  else
    let isP2Bulb :=
      PrimFloat.leb
        (PrimFloat.add (PrimFloat.mul (PrimFloat.add reZ 1) (PrimFloat.add reZ 1))
                       (PrimFloat.mul imZ imZ))
        0.0625 in
    isP2Bulb.

(** [func (m Mandelbrot) Frac(loc complex128) *Result] *)
Definition Mandelbrot_Frac (fuel : nat) (m : Mandelbrot) (loc : complex128) : option Result :=
  let MaxIt := MaxIterations (Quadratic_FracData (Mandelbrot_Quadratic m)) in
  if isCardioidOrP2Bulb loc MaxIt then
    Some (mkResult loc c0 (GoInt.sub MaxIt 1) 0)
  else Quadratic_q fuel (Mandelbrot_Quadratic m) c0 loc.

Record JuliaQ : Type := mkJuliaQ { JuliaQ_Quadratic : Quadratic; JuliaQ_C : complex128 }.

(** [func (j JuliaQ) Frac(loc complex128) *Result] *)
Definition JuliaQ_Frac (fuel : nat) (j : JuliaQ) (loc : complex128) : option Result :=
  Quadratic_q fuel (JuliaQ_Quadratic j) loc (JuliaQ_C j).

(* ================================================================== *)
(** ** The rational Julia set *)
(* ================================================================== *)

Record JuliaR : Type := mkJuliaR {
  JuliaR_FracData : FracData;
  P : complex128 -> complex128;
  Q : complex128 -> complex128;
  JuliaR_C : complex128
}.

(** The variables of the loop of [JuliaR.Frac]. *)
Record r_state : Type := mk_r_state {
  r_z : complex128;
  r_count : Z;
  r_mod : float64
}.

Section JuliaRLoop.
Variable r : JuliaR.

Definition r_init (loc : complex128) : r_state := mk_r_state loc 0 (cmplx_Abs loc).
Definition r_cond (s : r_state) : bool :=
  PrimFloat.leb (r_mod s) (Radius (JuliaR_FracData r)).
Definition r_step (z : complex128) : complex128 :=
  cadd (cdiv (P r z) (Q r z)) (JuliaR_C r).
Definition r_body (s : r_state) : flow r_state :=
  let z := r_step (r_z s) in
  if r_count s =? GoInt.sub (MaxIterations (JuliaR_FracData r)) 1
  then Break (mk_r_state z (r_count s) (r_mod s))
  else Next (mk_r_state z (r_count s) (r_mod s)).
Definition r_post (s : r_state) : r_state :=
  mk_r_state (r_z s) (GoInt.add (r_count s) 1) (cmplx_Abs (r_z s)).

Definition r_loop (fuel : nat) (loc : complex128) : option (nat * r_state) :=
  for_loop r_cond r_body r_post fuel (r_init loc).

End JuliaRLoop.

(** [func (r JuliaR) Frac(loc complex128) *Result] *)
Definition JuliaR_Frac (fuel : nat) (r : JuliaR) (loc : complex128) : option Result :=
  match r_loop r fuel loc with
  | Some (_, s) => Some (mkResult (r_z s) (JuliaR_C r) (r_count s) 0)
  | None => None
  end.

(* ================================================================== *)
(** ** The polynomiograph *)
(* ================================================================== *)

Record Polynomiograph : Type := mkPolynomiograph {
  Polynomiograph_FracData : FracData;
  B : complex128 -> complex128;
  F : complex128 -> complex128;
  G : complex128 -> complex128;
  eps : float64
}.

(** [type MandelPG Polynomiograph] *)
Definition MandelPG : Type := Polynomiograph.

(** [type CCMap func(complex128) complex128] *)
Definition CCMap : Type := complex128 -> complex128.

(** [func NewMandelPG(eps float64, B CCMap, F CCMap, G CCMap) *MandelPG]:
    the embedded [FracData] is left at its zero value. *)
Definition NewMandelPG (eps : float64) (B F G : CCMap) : MandelPG :=
  mkPolynomiograph (mkFracData 0 0 0 0) B F G eps.

(** The variables of the loop of [MandelPG.Frac]. *)
Record pg_state : Type := mk_pg_state {
  pg_z : complex128;
  pg_c : complex128;
  pg_count : Z
}.

Section MandelPGLoop.
Variable m : MandelPG.

Definition pg_init (loc : complex128) : pg_state := mk_pg_state loc (F m loc) 0.
Definition pg_body (s : pg_state) : flow pg_state :=
  let zNext := csub (B m (pg_z s)) (pg_c s) in
  if PrimFloat.ltb (cmplx_Abs (csub zNext (pg_z s))) (eps m) then Break s
  else
    let c := G m (pg_c s) in
    let z := zNext in
    if pg_count s =? GoInt.sub (MaxIterations (Polynomiograph_FracData m)) 1
    then Break (mk_pg_state z c (pg_count s))
    else Next (mk_pg_state z c (GoInt.add (pg_count s) 1)).

(** [for { ... }]: no test and no post statement. *)
Definition pg_loop (fuel : nat) (loc : complex128) : option (nat * pg_state) :=
  for_loop (fun _ => true) pg_body (fun s => s) fuel (pg_init loc).

End MandelPGLoop.

(** [func (m MandelPG) Frac(loc complex128) *Result] *)
Definition MandelPG_Frac (fuel : nat) (m : MandelPG) (loc : complex128) : option Result :=
  match pg_loop m fuel loc with
  | Some (_, s) => Some (mkResult (pg_z s) (pg_c s) (pg_count s) 0)
  | None => None
  end.

(* ================================================================== *)
(** ** The [Fraccer] interface and its four implementations *)
(* ================================================================== *)

(** [type Fraccer interface { Frac; SetMaxIterations; FracDataGetter }].
    [SetMaxIterations] has a pointer receiver: it yields the updated
    value next to the error.  [Frac] takes the fuel of its loop. *)
Class Fraccer (V : Type) : Type := {
  Frac : nat -> V -> complex128 -> option Result;
  SetMaxIterations : V -> Z -> V * option error;
  Data : V -> FracData
}.

(** The methods of the embedded [FracData] are promoted to the structs
    that embed it. *)
#[export] Instance Mandelbrot_Fraccer : Fraccer Mandelbrot := {|
  Frac := Mandelbrot_Frac;
  SetMaxIterations m n :=
    let '(fd, err) :=
      FracData_SetMaxIterations (Quadratic_FracData (Mandelbrot_Quadratic m)) n in
    (mkMandelbrot (mkQuadratic fd), err);
  Data m := Quadratic_FracData (Mandelbrot_Quadratic m)
|}.

#[export] Instance JuliaQ_Fraccer : Fraccer JuliaQ := {|
  Frac := JuliaQ_Frac;
  SetMaxIterations j n :=
    let '(fd, err) :=
      FracData_SetMaxIterations (Quadratic_FracData (JuliaQ_Quadratic j)) n in
    (mkJuliaQ (mkQuadratic fd) (JuliaQ_C j), err);
  Data j := Quadratic_FracData (JuliaQ_Quadratic j)
|}.

#[export] Instance JuliaR_Fraccer : Fraccer JuliaR := {|
  Frac := JuliaR_Frac;
  SetMaxIterations r n :=
    let '(fd, err) := FracData_SetMaxIterations (JuliaR_FracData r) n in
    (mkJuliaR fd (P r) (Q r) (JuliaR_C r), err);
  Data r := JuliaR_FracData r
|}.

#[export] Instance MandelPG_Fraccer : Fraccer MandelPG := {|
  Frac := MandelPG_Frac;
  SetMaxIterations m n :=
    let '(fd, err) := FracData_SetMaxIterations (Polynomiograph_FracData m) n in
    (mkPolynomiograph fd (B m) (F m) (G m) (eps m), err);
  Data m := Polynomiograph_FracData m
|}.

(* ================================================================== *)
(** ** The collaborators of [FracIt] *)
(* ================================================================== *)

(** Modelled from the spec: the [DomainReader] interface is declared in
    another file of the package.  It exposes the row and column counts
    and a point lookup by (column, row) that may fail.  [Dimensions] is
    (rows, cols); [At] returns Go's pair of a value and an error. *)
Record DomainReader : Type := mkDomainReader {
  Dimensions : Z * Z;
  At : Z -> Z -> complex128 * option error
}.

(** Modelled from the spec: the result store [Results] with [NewResults],
    [SetResult] and [Done] is defined in another file of the package.  It
    is sized by (rows, columns, iteration capacity), takes the record of
    one coordinate at a time, and is sealed once after all the writes.
    The cells are a finite map from (row, col). *)
Record Results : Type := mkResults {
  Results_rows : Z;
  Results_cols : Z;
  Results_iterations : Z;
  Results_cells : gmap (Z * Z) Result;
  Results_done : bool
}.

(** Modelled from the spec: [NewResults(rows, cols, iterations)]
    pre-sizes the store.  What it allocates is not visible from
    [frac.go]; it is taken not to fail. *)
Definition NewResults (rows cols iterations : Z) : Results :=
  mkResults rows cols iterations ∅ false.

Definition Results_SetResult (res : Results) (row col : Z)
    (z c : complex128) (iterations : Z) : Results :=
  mkResults (Results_rows res) (Results_cols res) (Results_iterations res)
    (<[(row, col) := mkResult z c iterations 0]> (Results_cells res))
    (Results_done res).

Definition Results_Done (res : Results) : Results :=
  mkResults (Results_rows res) (Results_cols res) (Results_iterations res)
    (Results_cells res) true.

(* ================================================================== *)
(** ** [FracIt]: validation, then the pool of workers *)
(* ================================================================== *)

Definition ErrDomain : error :=
  "gofrac: the domain must be sampled at least once along each axis"%string.

(** Where the calling goroutine stands: sending row [row] to [rowJobs]
    (the loop [for row := 0; row < rows; row++]), past [close(rowJobs)]
    and blocked in [wg.Wait()], or returned. *)
Inductive main_pc : Type :=
| MSend (row : Z)
| MWait
| MReturned.

(** Where a worker goroutine stands: receiving from [rowJobs], at the
    test [col < cols] of the inner loop for the row it holds, past
    [wg.Done()], or panicking.  [WPanicked row col e]: the lookup of
    (col, row) failed with [e] and the goroutine called [panic(e)]; the
    panic unwinds the goroutine, which runs its deferred [wg.Done()],
    and the runtime is about to end the process.  Until it does, the
    other goroutines run on. *)
Inductive worker_pc : Type :=
| WRecv
| WCol (row col : Z)
| WDone
| WPanicked (row col : Z) (e : error).

(** What [wg.Wait()] waits for in a worker: its [wg.Done()] has run. *)
Definition worker_finished (w : worker_pc) : Prop :=
  match w with
  | WDone | WPanicked _ _ _ => True
  | WRecv | WCol _ _ => False
  end.

(** The worker has panicked. *)
Definition worker_panicked (w : worker_pc) : Prop :=
  match w with
  | WPanicked _ _ _ => True
  | WRecv | WCol _ _ | WDone => False
  end.

(** The worker is inside row [row], at column [col]. *)
Definition worker_at (w : worker_pc) (row col : Z) : Prop :=
  w = WCol row col \/ exists e, w = WPanicked row col e.

(** The state shared by the goroutines.  [pool_queue] is the buffer of
    the channel [rowJobs], oldest element first; [pool_panic] is the
    panic the process has died of, if it has. *)
Record pool : Type := mkPool {
  pool_main : main_pc;
  pool_queue : list Z;
  pool_closed : bool;
  pool_workers : list worker_pc;
  pool_results : Results;
  pool_panic : option error
}.

(** The state once the [numWorkers] goroutines are spawned.  A worker
    that starts before the others are spawned can only block on the
    empty channel, so the spawning loop is not split into steps.
    [FracIt] gets here only when [make(chan int, rows)] has not
    panicked. *)
Definition pool_init (rows cols iterations : Z) (numWorkers : nat) : pool :=
  mkPool (MSend 0) [] false (replicate numWorkers WRecv)
         (NewResults rows cols iterations) None.

Section Pool.
Context {V : Type} `{Fraccer V}.
Variable d : DomainReader.
Variable f : V.
Variables rows cols : Z.

(** One atomic step of one goroutine, or the end of the process.  A
    process that has died takes no step. *)
Inductive pool_step : pool -> pool -> Prop :=
| step_send p row :
    pool_panic p = None ->
    pool_main p = MSend row ->
    row < rows ->
    Z.of_nat (length (pool_queue p)) < rows ->
    pool_step p
      (mkPool (MSend (GoInt.add row 1)) (pool_queue p ++ [row]) (pool_closed p)
              (pool_workers p) (pool_results p) (pool_panic p))
| step_close p row :
    pool_panic p = None ->
    pool_main p = MSend row ->
    ~ row < rows ->
    pool_step p
      (mkPool MWait (pool_queue p) true (pool_workers p) (pool_results p)
              (pool_panic p))
| step_return p :
    pool_panic p = None ->
    pool_main p = MWait ->
    Forall worker_finished (pool_workers p) ->
    pool_step p
      (mkPool MReturned (pool_queue p) (pool_closed p) (pool_workers p)
              (Results_Done (pool_results p)) (pool_panic p))
| step_recv p i row rest :
    pool_panic p = None ->
    pool_workers p !! i = Some WRecv ->
    pool_queue p = row :: rest ->
    pool_step p
      (mkPool (pool_main p) rest (pool_closed p)
              (<[i := WCol row 0]> (pool_workers p)) (pool_results p)
              (pool_panic p))
| step_exit p i :
    pool_panic p = None ->
    pool_workers p !! i = Some WRecv ->
    pool_queue p = [] ->
    pool_closed p = true ->
    pool_step p
      (mkPool (pool_main p) (pool_queue p) (pool_closed p)
              (<[i := WDone]> (pool_workers p)) (pool_results p)
              (pool_panic p))
| step_cell p i row col loc fuel r :
    pool_panic p = None ->
    pool_workers p !! i = Some (WCol row col) ->
    col < cols ->
    At d col row = (loc, None) ->
    Frac fuel f loc = Some r ->
    pool_step p
      (mkPool (pool_main p) (pool_queue p) (pool_closed p)
              (<[i := WCol row (GoInt.add col 1)]> (pool_workers p))
              (Results_SetResult (pool_results p) row col
                 (Result_Z r) (Result_C r) (Iterations r))
              (pool_panic p))
| step_panic p i row col loc e :
    pool_panic p = None ->
    pool_workers p !! i = Some (WCol row col) ->
    col < cols ->
    At d col row = (loc, Some e) ->
    pool_step p
      (mkPool (pool_main p) (pool_queue p) (pool_closed p)
              (<[i := WPanicked row col e]> (pool_workers p)) (pool_results p)
              (pool_panic p))
| step_crash p i row col e :
    pool_panic p = None ->
    pool_workers p !! i = Some (WPanicked row col e) ->
    pool_step p
      (mkPool (pool_main p) (pool_queue p) (pool_closed p) (pool_workers p)
              (pool_results p) (Some e))
| step_rowdone p i row col :
    pool_panic p = None ->
    pool_workers p !! i = Some (WCol row col) ->
    ~ col < cols ->
    pool_step p
      (mkPool (pool_main p) (pool_queue p) (pool_closed p)
              (<[i := WRecv]> (pool_workers p)) (pool_results p)
              (pool_panic p)).

End Pool.

(** What a call of [FracIt] comes to: it returns Go's pair of a result
    collection and an error, or the process dies of a panic. *)
Inductive FracIt_outcome : Type :=
| Returns (results : option Results) (err : option error)
| Panics (e : error).

Section FracIt.
Context {V : Type} `{Fraccer V}.

(** The part of [FracIt] that validates its arguments: either an error
    is returned, or the call goes on to the pool, here in its initial
    state. *)
Definition FracIt_start (d : DomainReader) (f : V) (iterations : Z)
    (numWorkers : nat) : V * (error + pool) :=
  let '(f, err) := SetMaxIterations f iterations in
  match err with
  | Some e => (f, inl e)
  | None =>
      let '(rows, cols) := Dimensions d in
      if (cols <? 1) || (rows <? 1) then (f, inl ErrDomain)
      else (f, inr (pool_init rows cols iterations numWorkers))
  end.

(** [func FracIt(d DomainReader, f Fraccer, iterations int)], returning a
    pointer to the [Results] and an [error],
    with [numWorkers] standing for [runtime.NumCPU()].  The relation
    holds the variant as the call leaves it and the outcome.  Past
    validation the call makes the channel, which panics in the calling
    goroutine when the row count is out of range, and then runs the
    pool: the call returns when the caller has got past [wg.Wait()],
    and the process dies when the runtime ends it for the panic of a
    worker.  A call can return and the process die afterwards. *)
Inductive FracIt (d : DomainReader) (f : V) (iterations : Z) (numWorkers : nat) :
    V -> FracIt_outcome -> Prop :=
| FracIt_error f' e :
    FracIt_start d f iterations numWorkers = (f', inl e) ->
    FracIt d f iterations numWorkers f' (Returns None (Some e))
| FracIt_makechan f' p0 :
    FracIt_start d f iterations numWorkers = (f', inr p0) ->
    GoRuntime.makechan_fits (Dimensions d).1 = false ->
    FracIt d f iterations numWorkers f' (Panics GoRuntime.ErrMakechan)
| FracIt_results f' p0 p :
    FracIt_start d f iterations numWorkers = (f', inr p0) ->
    GoRuntime.makechan_fits (Dimensions d).1 = true ->
    rtc (pool_step d f' (Dimensions d).1 (Dimensions d).2) p0 p ->
    pool_main p = MReturned ->
    FracIt d f iterations numWorkers f' (Returns (Some (pool_results p)) None)
| FracIt_panics f' p0 p e :
    FracIt_start d f iterations numWorkers = (f', inr p0) ->
    GoRuntime.makechan_fits (Dimensions d).1 = true ->
    rtc (pool_step d f' (Dimensions d).1 (Dimensions d).2) p0 p ->
    pool_panic p = Some e ->
    FracIt d f iterations numWorkers f' (Panics e).

End FracIt.

(* ================================================================== *)
(** ** Orbits: the sequences the loops walk along *)
(* ================================================================== *)

(** [z_n] of the quadratic recurrence [z_{n+1} = z_n^2 + c]. *)
Definition q_orbit (c z0 : complex128) (n : nat) : complex128 :=
  Nat.iter n (fun z => cadd (cmul z z) c) z0.

(** The test of the loop of [Quadratic.q] on [z_n]: [getMod2(z_n) <= r2]. *)
Definition q_passes (q : Quadratic) (c z0 : complex128) (n : nat) : bool :=
  PrimFloat.leb (getMod2 (q_orbit c z0 n)) (q_r2 q).

(** [z_n] of the rational recurrence [z_{n+1} = P(z_n)/Q(z_n) + C]. *)
Definition r_orbit (r : JuliaR) (loc : complex128) (n : nat) : complex128 :=
  Nat.iter n (r_step r) loc.

(** The test of the loop of [JuliaR.Frac] on [z_n]: [cmplx.Abs(z_n) <= Radius]. *)
Definition r_passes (r : JuliaR) (loc : complex128) (n : nat) : bool :=
  PrimFloat.leb (cmplx_Abs (r_orbit r loc n)) (Radius (JuliaR_FracData r)).

(** A complex value with an infinite or NaN part ([cmplx.IsInf(z) ||
    cmplx.IsNaN(z)]). *)
Definition c_nonfinite (z : complex128) : bool :=
  GoMath.IsInf (real z) 0 || GoMath.IsInf (imag z) 0
  || GoMath.IsNaN (real z) || GoMath.IsNaN (imag z).

(** [(z_n, c_n)] of the polynomiograph: [z_0 = loc], [c_0 = F(loc)],
    [z_{n+1} = B(z_n) - c_n], [c_{n+1} = G(c_n)]. *)
Definition pg_orbit (m : MandelPG) (loc : complex128) (n : nat) : complex128 * complex128 :=
  Nat.iter n (fun zc => (csub (B m (fst zc)) (snd zc), G m (snd zc))) (loc, F m loc).

(** The convergence test at step [n]: [|z_{n+1} - z_n| < eps]. *)
Definition pg_converges_at (m : MandelPG) (loc : complex128) (n : nat) : bool :=
  let zc := pg_orbit m loc n in
  PrimFloat.ltb (cmplx_Abs (csub (csub (B m (fst zc)) (snd zc)) (fst zc))) (eps m).

(** The states of the three loops at the start of body execution [i]. *)
Definition q_st (c z0 : complex128) (i : nat) : q_state :=
  mk_q_state (q_orbit c z0 i) (Z.of_nat i) (getMod2 (q_orbit c z0 i)).

Definition r_st (r : JuliaR) (loc : complex128) (i : nat) : r_state :=
  mk_r_state (r_orbit r loc i) (Z.of_nat i) (cmplx_Abs (r_orbit r loc i)).

Definition pg_st (m : MandelPG) (loc : complex128) (i : nat) : pg_state :=
  mk_pg_state (fst (pg_orbit m loc i)) (snd (pg_orbit m loc i)) (Z.of_nat i).

(** The same states with the count as an [int] holds it after [i]
    increments, wrap-around included. *)
Definition q_stw (c z0 : complex128) (i : nat) : q_state :=
  mk_q_state (q_orbit c z0 i) (GoInt.wrap (Z.of_nat i)) (getMod2 (q_orbit c z0 i)).

Definition r_stw (r : JuliaR) (loc : complex128) (i : nat) : r_state :=
  mk_r_state (r_orbit r loc i) (GoInt.wrap (Z.of_nat i)) (cmplx_Abs (r_orbit r loc i)).

Definition pg_stw (m : MandelPG) (loc : complex128) (i : nat) : pg_state :=
  mk_pg_state (fst (pg_orbit m loc i)) (snd (pg_orbit m loc i))
              (GoInt.wrap (Z.of_nat i)).

(* ================================================================== *)
(** ** What [FracIt] relies on in a [Fraccer] *)
(* ================================================================== *)

(** The behaviour the dispatcher needs from the variant it is handed:
    [SetMaxIterations] rejects counts below one without touching the
    variant and stores the others; [Frac] returns within [MaxIterations]
    executions of its loop body, its result does not depend on the fuel,
    and its iteration count is below [MaxIterations]. *)
Class FraccerLaws (V : Type) `{Fraccer V} : Prop := {
  SetMaxIterations_invalid :
    forall (f : V) (n : Z),
      n < 1 -> SetMaxIterations f n = (f, Some ErrMaxIterations);
  SetMaxIterations_valid :
    forall (f : V) (n : Z),
      1 <= n ->
      snd (SetMaxIterations f n) = None
      /\ MaxIterations (Data (fst (SetMaxIterations f n))) = n;
  Frac_returns :
    forall (f : V) (loc : complex128),
      1 <= MaxIterations (Data f) <= GoInt.max_int ->
      exists r, Frac (Z.to_nat (MaxIterations (Data f))) f loc = Some r;
  Frac_fuel :
    forall (f : V) (loc : complex128) (fuel1 fuel2 : nat) (r1 r2 : Result),
      Frac fuel1 f loc = Some r1 -> Frac fuel2 f loc = Some r2 -> r1 = r2;
  Frac_bounded :
    forall (f : V) (loc : complex128) (fuel : nat) (r : Result),
      1 <= MaxIterations (Data f) <= GoInt.max_int ->
      Frac fuel f loc = Some r ->
      0 <= Iterations r <= MaxIterations (Data f) - 1
}.

(* ================================================================== *)
(** ** Constructors and concrete inputs *)
(* ================================================================== *)

(** [math.Log(2.0)], the only value [SetDegree] is called with here. *)
Definition math_Log_2 : float64 := 0x1.62e42fefa39efp-1%float.

(** [func NewQuadratic(radius float64) Quadratic]: [SetDegree(2.0)] stores
    the degree and the inverse of its logarithm. *)
Definition NewQuadratic (radius : float64) : Quadratic :=
  mkQuadratic (mkFracData radius 0 2 (PrimFloat.div 1 math_Log_2)).

(** [func NewMandelbrot(radius float64) *Mandelbrot] *)
Definition NewMandelbrot (radius : float64) : Mandelbrot :=
  mkMandelbrot (NewQuadratic radius).

(** [func NewJuliaQ(radius float64, c complex128) *JuliaQ] *)
Definition NewJuliaQ (radius : float64) (c : complex128) : JuliaQ :=
  mkJuliaQ (NewQuadratic radius) c.

(** A quadratic core of bailout radius [radius], configured for
    [maxIt] iterations. *)
Definition ex_Quadratic (radius : float64) (maxIt : Z) : Quadratic :=
  mkQuadratic (FracData_SetMaxIterations (Quadratic_FracData (NewQuadratic radius)) maxIt).1.

(** The rational Julia set of [P(z) = 1], [Q(z) = 0], [C = 0]: the first
    division is [1/0]. *)
Definition ex_JuliaR (radius : float64) (maxIt : Z) : JuliaR :=
  mkJuliaR (mkFracData radius maxIt 0 0)
           (fun _ => Complex 1 0) (fun _ => c0) c0.

(** The rational Julia set of [P(z) = z], [Q(z) = 1], [C = 1]:
    the orbit of 0 is 0, 1, 2, 3, ... *)
Definition ex_JuliaR_succ (radius : float64) (maxIt : Z) : JuliaR :=
  mkJuliaR (mkFracData radius maxIt 0 0)
           (fun z => z) (fun _ => Complex 1 0) (Complex 1 0).

(** A polynomiograph with [B(z) = z/2], [F(loc) = 1], [G(c) = c/2] and
    [eps = 0.375].  From 4 the pairs (z_n, c_n) are (4, 1), (1, 0.5),
    (0, 0.25), (-0.25, 0.125): the differences of the z are 3, 1, 0.25. *)
Definition ex_MandelPG (maxIt : Z) : MandelPG :=
  (SetMaxIterations
     (NewMandelPG 0.375 (fun z => cmul z (Complex 0.5 0))
                  (fun _ => Complex 1 0) (fun c => cmul c (Complex 0.5 0)))
     maxIt).1.

(** A polynomiograph whose test [|z_{n+1} - z_n| < eps] cannot hold:
    [eps = 0]. *)
Definition ex_MandelPG_never (maxIt : Z) : MandelPG :=
  mkPolynomiograph (mkFracData 0 maxIt 0 0)
    (fun z => cadd z (Complex 1 0)) (fun _ => c0) (fun c => c) 0.

(** A domain of [rows] by [cols] samples: the point of (col, row) is
    [col/2 - 1 + (row/2 - 1) i]; a lookup out of range fails. *)
Definition ex_Domain (rows cols : Z) : DomainReader :=
  mkDomainReader (rows, cols)
    (fun col row =>
       if (0 <=? col) && (col <? cols) && (0 <=? row) && (row <? rows)
       then (Complex (PrimFloat.sub (PrimFloat.div (PrimFloat.of_uint63 (Uint63.of_Z col)) 2) 1)
                     (PrimFloat.sub (PrimFloat.div (PrimFloat.of_uint63 (Uint63.of_Z row)) 2) 1),
             None)
       else (c0, Some "gofrac: out of range"%string)).

(* ================================================================== *)
(** ** The grid, and the invariant and the measure of the pool *)
(* ================================================================== *)

#[export] Instance main_pc_eq_dec : EqDecision main_pc.
Proof. solve_decision. Defined.

#[export] Instance worker_pc_eq_dec : EqDecision worker_pc.
Proof. solve_decision. Defined.

#[export] Instance worker_finished_dec (w : worker_pc) : Decision (worker_finished w).
Proof. destruct w; simpl; apply _. Defined.

#[export] Instance worker_panicked_dec (w : worker_pc) : Decision (worker_panicked w).
Proof. destruct w; simpl; apply _. Defined.

(** The coordinates (row, col) of a domain of [rows] by [cols] samples. *)
Definition grid (rows cols : Z) : list (Z * Z) :=
  r ← seqZ 0 rows; (fun c => (r, c)) <$> seqZ 0 cols.

(** How many steps a worker still has in hand, the rows of the queue and
    the rows not sent apart. *)
Definition worker_measure (cols : Z) (w : worker_pc) : nat :=
  match w with
  | WRecv => 1
  | WCol _ col => Z.to_nat (cols - col) + 2
  | WDone | WPanicked _ _ _ => 0
  end.

(** A bound on the number of steps the pool can still take. *)
Definition pool_measure (rows cols : Z) (p : pool) : nat :=
  (match pool_panic p with None => 1 | Some _ => 0 end
   + match pool_main p with
     | MSend row => Z.to_nat (rows - row) * (Z.to_nat cols + 3) + 2
     | MWait => 1
     | MReturned => 0
     end
   + length (pool_queue p) * (Z.to_nat cols + 2)
   + sum_list_with (worker_measure cols) (pool_workers p))%nat.

(** The number of rows sent to the channel so far. *)
Definition pool_sent (rows : Z) (p : pool) : Z :=
  match pool_main p with
  | MSend row => row
  | MWait | MReturned => rows
  end.

Section PoolInvariant.
Context {V : Type} `{Fraccer V}.
Variable d : DomainReader.
Variable f : V.
Variables rows cols : Z.

(** What holds of every state the pool reaches, on any domain; [lo] is
    the number of rows received from the channel so far. *)
Record pool_inv (lo : Z) (p : pool) : Prop := mk_pool_inv {
  inv_panic :
    forall e,
      pool_panic p = Some e ->
      exists i row col, pool_workers p !! i = Some (WPanicked row col e);
  inv_main :
    match pool_main p with
    | MSend row => 0 <= row <= rows /\ pool_closed p = false
    | MWait | MReturned => pool_closed p = true
    end;
  inv_lo : 0 <= lo <= pool_sent rows p;
  inv_queue : pool_queue p = seqZ lo (pool_sent rows p - lo);
  inv_workers : pool_workers p <> [];
  inv_col :
    forall i row col,
      pool_workers p !! i = Some (WCol row col) ->
      0 <= row < lo /\ 0 <= col <= cols;
  inv_panicked :
    forall i row col e,
      pool_workers p !! i = Some (WPanicked row col e) ->
      (0 <= row < lo /\ 0 <= col < cols) /\ snd (At d col row) = Some e;
  inv_done :
    forall i,
      pool_workers p !! i = Some WDone ->
      pool_closed p = true /\ pool_queue p = [];
  inv_returned :
    pool_main p = MReturned ->
    Forall worker_finished (pool_workers p)
    /\ Results_done (pool_results p) = true;
  inv_cells :
    forall row col r,
      Results_cells (pool_results p) !! (row, col) = Some r ->
      (0 <= row < rows /\ 0 <= col < cols)
      /\ exists loc fuel r0,
           At d col row = (loc, None)
           /\ Frac fuel f loc = Some r0
           /\ r = mkResult (Result_Z r0) (Result_C r0) (Iterations r0) 0;
  inv_cover :
    forall row col,
      0 <= row < lo -> 0 <= col < cols ->
      is_Some (Results_cells (pool_results p) !! (row, col))
      \/ exists i w col',
           pool_workers p !! i = Some w /\ worker_at w row col' /\ col' <= col
}.

End PoolInvariant.


(* ================================================================== *)
(** ** Further notions used by the properties *)
(* ================================================================== *)

(** [func (f *FracData) SetDegree(d float64)]; [math_Log] stands for
    [math.Log], which this development does not define. *)
Definition FracData_SetDegree (math_Log : float64 -> float64) (f : FracData)
    (d : float64) : FracData :=
  mkFracData (Radius f) (MaxIterations f) d (PrimFloat.div 1 (math_Log d)).

(** [cmplx.Conj(x)] is [complex(real(x), -imag(x))]. *)
Definition cmplx_Conj (x : complex128) : complex128 :=
  Complex (real x) (PrimFloat.opp (imag x)).

(** [cmplx.IsNaN]-like test used for sample points: a part is NaN. *)
Definition c_has_NaN (z : complex128) : bool :=
  GoMath.IsNaN (real z) || GoMath.IsNaN (imag z).

(** A float that is not below zero: NaN, a zero, [+Inf] or a positive
    number. *)
Definition sf_nonneg (x : spec_float) : Prop :=
  match x with
  | S754_nan | S754_zero _ => True
  | S754_infinity s | S754_finite s _ _ => s = false
  end.

(** No worker has panicked and the process is alive. *)
Definition pool_calm (p : pool) : Prop :=
  pool_panic p = None
  /\ forall i row col e, pool_workers p !! i <> Some (WPanicked row col e).

(** The number of rows received from the channel so far. *)
Definition pool_received (rows : Z) (p : pool) : Z :=
  pool_sent rows p - Z.of_nat (length (pool_queue p)).

(** Where the pool has not written yet: the rows still to be received,
    and in a row being worked on the columns from the worker's one on;
    and no two workers hold the same row. *)
Record pool_fresh (rows : Z) (p : pool) : Prop := mk_pool_fresh {
  fresh_rows :
    forall row col,
      pool_received rows p <= row ->
      Results_cells (pool_results p) !! (row, col) = None;
  fresh_cols :
    forall i row col c,
      pool_workers p !! i = Some (WCol row col) ->
      col <= c ->
      Results_cells (pool_results p) !! (row, c) = None;
  fresh_distinct :
    forall i j row col col',
      pool_workers p !! i = Some (WCol row col) ->
      pool_workers p !! j = Some (WCol row col') ->
      i = j
}.

(** A domain that announces [rows] by [cols + 1] samples while its
    lookups only know [cols] columns: the last column cannot be fetched. *)
Definition ex_Domain_short (rows cols : Z) : DomainReader :=
  mkDomainReader (rows, cols + 1) (At (ex_Domain rows cols)).

(* ================================================================== *)
(** * Properties *)
(* ================================================================== *)

(** ** Facts about [int] arithmetic *)

Lemma GoInt_wrap_id x : GoInt.in_range x -> GoInt.wrap x = x.
Proof.
  unfold GoInt.in_range, GoInt.min_int, GoInt.max_int, GoInt.wrap. intros Hx.
  rewrite Z.mod_small; lia.
Qed.

Lemma GoInt_sub_1 x : 1 <= x <= GoInt.max_int -> GoInt.sub x 1 = x - 1.
Proof.
  intros Hx. apply GoInt_wrap_id.
  unfold GoInt.in_range, GoInt.min_int, GoInt.max_int in *. lia.
Qed.

Lemma GoInt_add_1 x : 0 <= x < GoInt.max_int -> GoInt.add x 1 = x + 1.
Proof.
  intros Hx. apply GoInt_wrap_id.
  unfold GoInt.in_range, GoInt.min_int, GoInt.max_int in *. lia.
Qed.

(** ** Facts about loops *)

Section LoopFacts.
Context {S : Type}.
Variables (cond : S -> bool) (body : S -> flow S) (post : S -> S).

(** More fuel does not change a result. *)
Lemma for_loop_mono fuel s r :
  for_loop cond body post fuel s = Some r ->
  forall fuel', (fuel <= fuel')%nat -> for_loop cond body post fuel' s = Some r.
Proof.
  revert s r. induction fuel as [|fuel IH]; intros s r Hrun fuel' Hle.
  - destruct fuel'; simpl in *; destruct (cond s); congruence.
  - destruct fuel' as [|fuel']; [lia|].
    simpl in *. destruct (cond s); [|exact Hrun].
    destruct (body s) as [t|t]; [|exact Hrun].
    destruct (for_loop cond body post fuel (post t)) as [[n u]|] eqn:Hrec; [|discriminate].
    rewrite (IH _ _ Hrec fuel') by lia. exact Hrun.
Qed.

(** The fuel bounds the number of body executions a run reports. *)
Lemma for_loop_count_le fuel s n t :
  for_loop cond body post fuel s = Some (n, t) -> (n <= fuel)%nat.
Proof.
  revert s n t. induction fuel as [|fuel IH]; intros s n t; simpl.
  - destruct (cond s); [discriminate|]. intros [= <- _]. lia.
  - destruct (cond s); [|intros [= <- _]; lia].
    destruct (body s) as [u|u]; [|intros [= <- _]; lia].
    destruct (for_loop cond body post fuel (post u)) as [[k v]|] eqn:Hrec; [|discriminate].
    intros [= <- _]. apply IH in Hrec. lia.
Qed.

(** Running along a chain of [k] body executions that all fall through. *)
Lemma for_loop_chain (st : nat -> S) k :
  (forall i, (i < k)%nat ->
     cond (st i) = true /\ exists t, body (st i) = Next t /\ post t = st (Datatypes.S i)) ->
  forall fuel,
    for_loop cond body post (k + fuel) (st O) =
    match for_loop cond body post fuel (st k) with
    | Some (n, t) => Some ((k + n)%nat, t)
    | None => None
    end.
Proof.
  revert st. induction k as [|k IH]; intros st Hchain fuel.
  - simpl. destruct (for_loop cond body post fuel (st O)) as [[n t]|]; reflexivity.
  - destruct (Hchain O ltac:(lia)) as (Hc & t & Hb & Hp).
    change (Datatypes.S k + fuel)%nat with (Datatypes.S (k + fuel)).
    simpl. rewrite Hc, Hb, Hp.
    rewrite (IH (fun i => st (Datatypes.S i))).
    + destruct (for_loop cond body post fuel (st (Datatypes.S k))) as [[n u]|]; reflexivity.
    + intros i Hi. apply (Hchain (Datatypes.S i)). lia.
Qed.

Lemma for_loop_exit_cond (st : nat -> S) k fuel :
  (forall i, (i < k)%nat ->
     cond (st i) = true /\ exists t, body (st i) = Next t /\ post t = st (Datatypes.S i)) ->
  cond (st k) = false ->
  (k <= fuel)%nat ->
  for_loop cond body post fuel (st O) = Some (k, st k).
Proof.
  intros Hchain Hexit Hfuel.
  replace fuel with (k + (fuel - k))%nat by lia.
  rewrite (for_loop_chain st k Hchain).
  destruct (fuel - k)%nat; simpl; rewrite Hexit; do 2 f_equal; lia.
Qed.

Lemma for_loop_exit_break (st : nat -> S) k t fuel :
  (forall i, (i < k)%nat ->
     cond (st i) = true /\ exists t, body (st i) = Next t /\ post t = st (Datatypes.S i)) ->
  cond (st k) = true ->
  body (st k) = Break t ->
  (k < fuel)%nat ->
  for_loop cond body post fuel (st O) = Some (Datatypes.S k, t).
Proof.
  intros Hchain Hc Hb Hfuel.
  replace fuel with (k + Datatypes.S (fuel - k - 1))%nat by lia.
  rewrite (for_loop_chain st k Hchain).
  simpl. rewrite Hc, Hb. do 2 f_equal. lia.
Qed.

End LoopFacts.

(** The first index below [n] at which a test fails, if there is one. *)
Lemma first_failure (p : nat -> bool) (n : nat) :
  (exists k, (k < n)%nat /\ p k = false /\ forall j, (j < k)%nat -> p j = true)
  \/ (forall j, (j < n)%nat -> p j = true).
Proof.
  induction n as [|n [(k & Hk & Hf & Hb)|Hall]].
  - right. intros j Hj. lia.
  - left. exists k. repeat split; auto; lia.
  - destruct (p n) eqn:Hn.
    + right. intros j Hj. destruct (Nat.eq_dec j n) as [->|]; [exact Hn|apply Hall; lia].
    + left. exists n. repeat split; auto.
Qed.

(** ** Facts about [float64]: NaN and the infinities *)

Lemma SFcompare_finite_refl s m e :
  SFcompare (S754_finite s m e) (S754_finite s m e) = Some Eq.
Proof.
  simpl. rewrite Z.compare_refl, Pos.compare_cont_refl. destruct s; reflexivity.
Qed.

Lemma IsNaN_Prim2SF f : GoMath.IsNaN f = true -> Prim2SF f = S754_nan.
Proof.
  unfold GoMath.IsNaN. rewrite FloatAxioms.eqb_spec. unfold SFeqb.
  destruct (Prim2SF f) as [s|s| |s m e]; try reflexivity.
  - destruct s; discriminate.
  - destruct s; discriminate.
  - rewrite SFcompare_finite_refl. discriminate.
Qed.

Lemma Prim2SF_IsNaN f : Prim2SF f = S754_nan -> GoMath.IsNaN f = true.
Proof. intros H. unfold GoMath.IsNaN. rewrite FloatAxioms.eqb_spec, H. reflexivity. Qed.

Lemma IsNaN_abs f : GoMath.IsNaN f = true -> GoMath.IsNaN (abs f) = true.
Proof.
  intros H. apply Prim2SF_IsNaN. rewrite FloatAxioms.abs_spec, (IsNaN_Prim2SF _ H). reflexivity.
Qed.

Lemma leb_nan_l r : PrimFloat.leb nan r = false.
Proof.
  rewrite FloatAxioms.leb_spec. change (Prim2SF nan) with S754_nan.
  unfold SFleb. simpl. reflexivity.
Qed.

Lemma Prim2SF_MaxFloat64 :
  Prim2SF GoMath.MaxFloat64 = S754_finite false 9007199254740991 971.
Proof. reflexivity. Qed.

Lemma leb_infinity_l r :
  PrimFloat.leb infinity r = true -> Prim2SF r = S754_infinity false.
Proof.
  rewrite FloatAxioms.leb_spec. change (Prim2SF infinity) with (S754_infinity false).
  unfold SFleb. destruct (Prim2SF r) as [s|s| |s m e]; simpl; try discriminate.
  destruct s; [discriminate|reflexivity].
Qed.

Lemma IsInf_of_Prim2SF r :
  Prim2SF r = S754_infinity false -> GoMath.IsInf r 1 = true.
Proof.
  intros H. unfold GoMath.IsInf. rewrite FloatAxioms.ltb_spec, H, Prim2SF_MaxFloat64. reflexivity.
Qed.

Lemma IsInf_abs f : GoMath.IsInf f 0 = true -> GoMath.IsInf (abs f) 1 = true.
Proof.
  unfold GoMath.IsInf. simpl (0 <=? 0). simpl (0 <=? 1). simpl (1 <=? 0).
  rewrite !andb_true_l, andb_false_l, orb_false_r.
  rewrite !FloatAxioms.ltb_spec, FloatAxioms.abs_spec, FloatAxioms.opp_spec, Prim2SF_MaxFloat64.
  generalize 9007199254740991%positive 971. intros mm ee.
  unfold SFltb.
  destruct (Prim2SF f) as [s|s| |s m e]; simpl.
  - destruct s; simpl; intros H; discriminate.
  - reflexivity.
  - intros H; discriminate.
  - destruct s; simpl.
    + rewrite (Z.compare_antisym e ee).
      destruct (e ?= ee) eqn:He; simpl; try (intros H; discriminate H); try reflexivity.
      rewrite (Pos.compare_cont_antisym m mm Eq). simpl CompOpp. trivial.
    + rewrite orb_false_r. trivial.
Qed.

(** *** A modulus is never below zero *)

Lemma binary_round_aux_nonneg m e l :
  sf_nonneg (binary_round_aux prec emax false m e l).
Proof.
  unfold binary_round_aux.
  destruct (shr_fexp prec emax m e l) as [mrs' e'].
  destruct (shr_fexp prec emax _ e' loc_Exact) as [mrs'' e''].
  destruct (shr_m mrs''); simpl; auto.
  destruct (Z.leb _ _); reflexivity.
Qed.

Lemma SFmul_nonneg x y :
  sf_nonneg x -> sf_nonneg y -> sf_nonneg (SFmul prec emax x y).
Proof.
  destruct x as [sx|sx| |sx mx ex], y as [sy|sy| |sy my ey]; simpl; auto;
    intros Hx Hy; subst; auto.
  apply binary_round_aux_nonneg.
Qed.

Lemma SFsqrt_nonneg x : sf_nonneg (SFsqrt prec emax x).
Proof.
  destruct x as [s|s| |s m e]; simpl; auto.
  - destruct s; simpl; auto.
  - destruct s; simpl; auto.
    destruct (SFsqrt_core_binary prec emax (Zpos m) e) as [[mz ez] lz].
    apply binary_round_aux_nonneg.
Qed.

Lemma SFabs_nonneg x : sf_nonneg (SFabs x).
Proof. destruct x; simpl; auto. Qed.

(** [math.Hypot] never returns a number below zero. *)
Lemma Hypot_nonneg p q : sf_nonneg (Prim2SF (GoMath.Hypot p q)).
Proof.
  unfold GoMath.Hypot.
  destruct (GoMath.IsInf (abs p) 1 || GoMath.IsInf (abs q) 1); [reflexivity|].
  destruct (GoMath.IsNaN (abs p) || GoMath.IsNaN (abs q)); [exact I|].
  assert (Hgen : forall a b,
    sf_nonneg (Prim2SF a) ->
    sf_nonneg (Prim2SF
      (if PrimFloat.eqb a 0 then 0%float
       else PrimFloat.mul a
              (PrimFloat.sqrt
                 (PrimFloat.add 1 (PrimFloat.mul (PrimFloat.div b a) (PrimFloat.div b a))))))).
  { intros a b Ha. destruct (PrimFloat.eqb a 0); [exact I|].
    rewrite FloatAxioms.mul_spec, FloatAxioms.sqrt_spec.
    apply SFmul_nonneg; [exact Ha|apply SFsqrt_nonneg]. }
  destruct (PrimFloat.ltb (abs p) (abs q)); apply Hgen;
    rewrite FloatAxioms.abs_spec; apply SFabs_nonneg.
Qed.

Lemma leb_nonneg_negative x radius :
  sf_nonneg (Prim2SF x) -> PrimFloat.ltb radius 0 = true -> PrimFloat.leb x radius = false.
Proof.
  rewrite FloatAxioms.ltb_spec, FloatAxioms.leb_spec.
  change (Prim2SF 0) with (S754_zero false).
  unfold SFltb, SFleb.
  destruct (Prim2SF radius) as [sr|sr| |sr mr er]; simpl; try discriminate;
    destruct sr; try discriminate; intros Hx _;
    destruct (Prim2SF x) as [sx|sx| |sx mx ex]; simpl in *; subst; reflexivity.
Qed.

Lemma ltb_nonneg_zero x : sf_nonneg (Prim2SF x) -> PrimFloat.ltb x 0 = false.
Proof.
  rewrite FloatAxioms.ltb_spec. change (Prim2SF 0) with (S754_zero false).
  unfold SFltb.
  destruct (Prim2SF x) as [sx|sx| |sx mx ex]; simpl; intros Hx; subst; reflexivity.
Qed.

(** *** The quadratic core along its orbit *)

Section QuadraticFacts.
Variable q : Quadratic.
Variables c z0 : complex128.
Let M := MaxIterations (Quadratic_FracData q).
Hypothesis HM : 1 <= M <= GoInt.max_int.

Lemma q_maxIt_eq : q_maxIt q = M - 1.
Proof. apply GoInt_sub_1. exact HM. Qed.

Lemma q_chain k :
  Z.of_nat k <= M - 1 ->
  (forall j, (j < k)%nat -> q_passes q c z0 j = true) ->
  forall i, (i < k)%nat ->
    q_cond q (q_st c z0 i) = true /\
    exists t, q_body q c (q_st c z0 i) = Next t /\ q_post t = q_st c z0 (Datatypes.S i).
Proof.
  intros Hk Hpass i Hi. split; [exact (Hpass i Hi)|].
  unfold q_body, q_st; simpl q_count; simpl q_z.
  rewrite q_maxIt_eq.
  destruct (Z.eqb_spec (Z.of_nat i) (M - 1)) as [Heq|_]; [lia|].
  eexists; split; [reflexivity|].
  unfold q_post; simpl.
  rewrite GoInt_add_1 by (unfold GoInt.max_int in *; lia).
  f_equal. lia.
Qed.

Lemma q_loop_escape k fuel :
  Z.of_nat k <= M - 1 ->
  (forall j, (j < k)%nat -> q_passes q c z0 j = true) ->
  q_passes q c z0 k = false ->
  (k <= fuel)%nat ->
  q_loop q c fuel z0 = Some (k, q_st c z0 k).
Proof.
  intros Hk Hpass Hfail Hfuel.
  apply (for_loop_exit_cond _ _ _ (q_st c z0)).
  - apply q_chain; assumption.
  - exact Hfail.
  - exact Hfuel.
Qed.

Lemma q_loop_exhaust fuel :
  (forall j, (j < Z.to_nat M)%nat -> q_passes q c z0 j = true) ->
  (Z.to_nat M <= fuel)%nat ->
  q_loop q c fuel z0 =
    Some (Z.to_nat M,
          mk_q_state (q_orbit c z0 (Z.to_nat M)) (M - 1)
                     (getMod2 (q_orbit c z0 (Z.to_nat M - 1)))).
Proof.
  intros Hpass Hfuel.
  set (k := (Z.to_nat M - 1)%nat).
  assert (HkM : Z.of_nat k = M - 1) by (unfold k; lia).
  replace (Z.to_nat M) with (Datatypes.S k) at 1 2 by (unfold k; lia).
  apply (for_loop_exit_break _ _ _ (q_st c z0)).
  - apply q_chain; [lia|]. intros j Hj. apply Hpass. lia.
  - apply (Hpass k). unfold k. lia.
  - unfold q_body, q_st; simpl q_count; simpl q_z.
    rewrite q_maxIt_eq, HkM, Z.eqb_refl. reflexivity.
  - unfold k in *. lia.
Qed.

End QuadraticFacts.

(** *** The rational Julia loop along its orbit *)

Section JuliaRFacts.
Variable r : JuliaR.
Variable loc : complex128.
Let M := MaxIterations (JuliaR_FracData r).
Hypothesis HM : 1 <= M <= GoInt.max_int.

Lemma r_chain k :
  Z.of_nat k <= M - 1 ->
  (forall j, (j < k)%nat -> r_passes r loc j = true) ->
  forall i, (i < k)%nat ->
    r_cond r (r_st r loc i) = true /\
    exists t, r_body r (r_st r loc i) = Next t /\ r_post t = r_st r loc (Datatypes.S i).
Proof.
  intros Hk Hpass i Hi. split; [exact (Hpass i Hi)|].
  unfold r_body, r_st; simpl r_count; simpl r_z.
  fold M. rewrite (GoInt_sub_1 M HM).
  destruct (Z.eqb_spec (Z.of_nat i) (M - 1)) as [Heq|_]; [lia|].
  eexists; split; [reflexivity|].
  unfold r_post; simpl.
  rewrite GoInt_add_1 by (unfold GoInt.max_int in *; lia).
  f_equal. lia.
Qed.

Lemma r_loop_escape k fuel :
  Z.of_nat k <= M - 1 ->
  (forall j, (j < k)%nat -> r_passes r loc j = true) ->
  r_passes r loc k = false ->
  (k <= fuel)%nat ->
  r_loop r fuel loc = Some (k, r_st r loc k).
Proof.
  intros Hk Hpass Hfail Hfuel.
  apply (for_loop_exit_cond _ _ _ (r_st r loc)).
  - apply r_chain; assumption.
  - exact Hfail.
  - exact Hfuel.
Qed.

Lemma r_loop_exhaust fuel :
  (forall j, (j < Z.to_nat M)%nat -> r_passes r loc j = true) ->
  (Z.to_nat M <= fuel)%nat ->
  r_loop r fuel loc =
    Some (Z.to_nat M,
          mk_r_state (r_orbit r loc (Z.to_nat M)) (M - 1)
                     (cmplx_Abs (r_orbit r loc (Z.to_nat M - 1)))).
Proof.
  intros Hpass Hfuel.
  set (k := (Z.to_nat M - 1)%nat).
  assert (HkM : Z.of_nat k = M - 1) by (unfold k; lia).
  replace (Z.to_nat M) with (Datatypes.S k) at 1 2 by (unfold k; lia).
  apply (for_loop_exit_break _ _ _ (r_st r loc)).
  - apply r_chain; [lia|]. intros j Hj. apply Hpass. lia.
  - apply (Hpass k). unfold k. lia.
  - unfold r_body, r_st; simpl r_count; simpl r_z.
    fold M. rewrite (GoInt_sub_1 M HM), HkM, Z.eqb_refl. reflexivity.
  - unfold k in *. lia.
Qed.

End JuliaRFacts.

(** *** The polynomiograph loop along its orbit *)

Section MandelPGFacts.
Variable m : MandelPG.
Variable loc : complex128.
Let M := MaxIterations (Polynomiograph_FracData m).

(** As long as the test fails and the count has not met
    [MaxIterations - 1], the body falls through to the next state. *)
Lemma pg_chain_counts k :
  (forall i, (i < k)%nat -> Z.of_nat i <> GoInt.sub M 1 /\ Z.of_nat i < GoInt.max_int) ->
  (forall j, (j < k)%nat -> pg_converges_at m loc j = false) ->
  forall i, (i < k)%nat ->
    (fun _ : pg_state => true) (pg_st m loc i) = true /\
    exists t, pg_body m (pg_st m loc i) = Next t
              /\ (fun s : pg_state => s) t = pg_st m loc (Datatypes.S i).
Proof.
  intros Hcount Hconv i Hi. split; [reflexivity|].
  pose proof (Hconv i Hi) as Hci. unfold pg_converges_at in Hci.
  destruct (Hcount i Hi) as [Hne Hlt].
  unfold pg_body, pg_st; simpl pg_count; simpl pg_z; simpl pg_c.
  rewrite Hci. fold M.
  destruct (Z.eqb_spec (Z.of_nat i) (GoInt.sub M 1)) as [Heq|_]; [contradiction|].
  eexists; split; [reflexivity|].
  rewrite GoInt_add_1 by lia.
  unfold pg_orbit; simpl. f_equal. lia.
Qed.

(** Without [1 <= MaxIterations] the count check is of no help: while
    the convergence test fails, the loop is still running after any
    number of body executions an [int] can count. *)
Lemma pg_loop_needs_MaxIterations fuel :
  GoInt.min_int <= M <= 0 ->
  Z.of_nat fuel <= GoInt.max_int ->
  (forall j, (j < fuel)%nat -> pg_converges_at m loc j = false) ->
  pg_loop m fuel loc = None.
Proof.
  intros HM Hfuel Hconv. unfold pg_loop.
  replace fuel with (fuel + 0)%nat at 1 by lia.
  change (pg_init m loc) with (pg_st m loc O).
  rewrite (for_loop_chain _ _ _ (pg_st m loc) fuel); [reflexivity|].
  apply pg_chain_counts; [|exact Hconv].
  intros i Hi. split; [|lia].
  unfold GoInt.sub, GoInt.wrap, GoInt.min_int, GoInt.max_int in *.
  destruct (Z.eq_dec M (- 2 ^ 63)) as [->|Hne].
  - change ((- 2 ^ 63 - 1 + 2 ^ 63) mod 2 ^ 64 - 2 ^ 63) with (2 ^ 63 - 1). lia.
  - rewrite Z.mod_small by lia. lia.
Qed.

Hypothesis HM : 1 <= M <= GoInt.max_int.

Lemma pg_chain k :
  Z.of_nat k <= M - 1 ->
  (forall j, (j < k)%nat -> pg_converges_at m loc j = false) ->
  forall i, (i < k)%nat ->
    (fun _ : pg_state => true) (pg_st m loc i) = true /\
    exists t, pg_body m (pg_st m loc i) = Next t
              /\ (fun s : pg_state => s) t = pg_st m loc (Datatypes.S i).
Proof.
  intros Hk Hconv. apply pg_chain_counts; [|exact Hconv].
  intros i Hi. rewrite (GoInt_sub_1 M HM). lia.
Qed.

Lemma pg_loop_converge k fuel :
  Z.of_nat k <= M - 1 ->
  (forall j, (j < k)%nat -> pg_converges_at m loc j = false) ->
  pg_converges_at m loc k = true ->
  (k < fuel)%nat ->
  pg_loop m fuel loc = Some (Datatypes.S k, pg_st m loc k).
Proof.
  intros Hk Hconv Hhit Hfuel.
  apply (for_loop_exit_break _ _ _ (pg_st m loc)).
  - apply pg_chain; assumption.
  - reflexivity.
  - unfold pg_converges_at in Hhit.
    unfold pg_body, pg_st; simpl pg_count; simpl pg_z; simpl pg_c.
    rewrite Hhit. reflexivity.
  - exact Hfuel.
Qed.

Lemma pg_loop_exhaust fuel :
  (forall j, (j < Z.to_nat M)%nat -> pg_converges_at m loc j = false) ->
  (Z.to_nat M <= fuel)%nat ->
  pg_loop m fuel loc =
    Some (Z.to_nat M,
          mk_pg_state (fst (pg_orbit m loc (Z.to_nat M)))
                      (snd (pg_orbit m loc (Z.to_nat M))) (M - 1)).
Proof.
  intros Hconv Hfuel.
  set (k := (Z.to_nat M - 1)%nat).
  assert (HkM : Z.of_nat k = M - 1) by (unfold k; lia).
  replace (Z.to_nat M) with (Datatypes.S k) by (unfold k; lia).
  apply (for_loop_exit_break _ _ _ (pg_st m loc)).
  - apply pg_chain; [lia|]. intros j Hj. apply Hconv. lia.
  - reflexivity.
  - assert (Hck : pg_converges_at m loc k = false) by (apply Hconv; unfold k; lia).
    unfold pg_converges_at in Hck.
    unfold pg_body, pg_st; simpl pg_count; simpl pg_z; simpl pg_c.
    rewrite Hck. fold M. rewrite (GoInt_sub_1 M HM), HkM, Z.eqb_refl. reflexivity.
  - unfold k in *. lia.
Qed.

End MandelPGFacts.

(** *** Every loop ends within [MaxIterations] executions of its body *)

Lemma q_loop_total (q : Quadratic) (c z0 : complex128) :
  let M := MaxIterations (Quadratic_FracData q) in
  1 <= M <= GoInt.max_int ->
  exists n s,
    q_loop q c (Z.to_nat M) z0 = Some (n, s)
    /\ (n <= Z.to_nat M)%nat
    /\ 0 <= q_count s <= M - 1
    /\ q_z s = q_orbit c z0 n
    /\ (forall j, (j < n)%nat -> q_passes q c z0 j = true)
    /\ ((q_count s = Z.of_nat n /\ q_passes q c z0 n = false)
        \/ (Z.of_nat n = M /\ q_count s = M - 1)).
Proof.
  intros M HM.
  destruct (first_failure (q_passes q c z0) (Z.to_nat M)) as [(k & Hk & Hfail & Hpass)|Hpass].
  - exists k, (q_st c z0 k). split.
    + apply q_loop_escape; auto; fold M; lia.
    + simpl. repeat split; auto; try lia.
  - eexists _, _. split; [apply q_loop_exhaust; auto|].
    fold M. simpl. repeat split; auto; try lia.
Qed.

Lemma r_loop_total (r : JuliaR) (loc : complex128) :
  let M := MaxIterations (JuliaR_FracData r) in
  1 <= M <= GoInt.max_int ->
  exists n s,
    r_loop r (Z.to_nat M) loc = Some (n, s)
    /\ (n <= Z.to_nat M)%nat
    /\ 0 <= r_count s <= M - 1
    /\ r_z s = r_orbit r loc n
    /\ (forall j, (j < n)%nat -> r_passes r loc j = true)
    /\ ((r_count s = Z.of_nat n /\ r_passes r loc n = false)
        \/ (Z.of_nat n = M /\ r_count s = M - 1)).
Proof.
  intros M HM.
  destruct (first_failure (r_passes r loc) (Z.to_nat M)) as [(k & Hk & Hfail & Hpass)|Hpass].
  - exists k, (r_st r loc k). split.
    + apply r_loop_escape; auto; fold M; lia.
    + simpl. repeat split; auto; try lia.
  - eexists _, _. split; [apply r_loop_exhaust; auto|].
    fold M. simpl. repeat split; auto; try lia.
Qed.

Lemma pg_loop_total (m : MandelPG) (loc : complex128) :
  let M := MaxIterations (Polynomiograph_FracData m) in
  1 <= M <= GoInt.max_int ->
  exists n s,
    pg_loop m (Z.to_nat M) loc = Some (n, s)
    /\ (1 <= n <= Z.to_nat M)%nat
    /\ 0 <= pg_count s <= M - 1
    /\ (forall j, (j < n - 1)%nat -> pg_converges_at m loc j = false)
    /\ ((s = pg_st m loc (n - 1) /\ pg_converges_at m loc (n - 1) = true)
        \/ (Z.of_nat n = M /\ pg_count s = M - 1
            /\ pg_z s = fst (pg_orbit m loc n) /\ pg_c s = snd (pg_orbit m loc n)
            /\ pg_converges_at m loc (n - 1) = false)).
Proof.
  intros M HM.
  destruct (first_failure (fun j => negb (pg_converges_at m loc j)) (Z.to_nat M))
    as [(k & Hk & Hhit & Hconv)|Hconv].
  - apply negb_false_iff in Hhit.
    assert (Hconv' : forall j, (j < k)%nat -> pg_converges_at m loc j = false)
      by (intros j Hj; apply negb_true_iff, Hconv, Hj).
    exists (Datatypes.S k), (pg_st m loc k). split.
    + apply pg_loop_converge; auto; fold M; lia.
    + replace (Datatypes.S k - 1)%nat with k by lia.
      simpl. repeat split; auto; try lia.
  - assert (Hconv' : forall j, (j < Z.to_nat M)%nat -> pg_converges_at m loc j = false)
      by (intros j Hj; apply negb_true_iff, Hconv, Hj).
    eexists _, _. split; [apply pg_loop_exhaust; auto|].
    fold M. simpl. repeat split; auto; try lia.
    + intros j Hj. apply Hconv'. lia.
    + right. repeat split; auto; try lia. apply Hconv'. lia.
Qed.

(** A result obtained with any fuel is the result obtained with
    [MaxIterations] units of it. *)
Lemma for_loop_agree {S : Type} (cond : S -> bool) body post fuel1 fuel2 s r1 r2 :
  for_loop cond body post fuel1 s = Some r1 ->
  for_loop cond body post fuel2 s = Some r2 ->
  r1 = r2.
Proof.
  intros H1 H2.
  apply (for_loop_mono _ _ _ _ _ _) with (fuel' := Nat.max fuel1 fuel2) in H1; [|lia].
  apply (for_loop_mono _ _ _ _ _ _) with (fuel' := Nat.max fuel1 fuel2) in H2; [|lia].
  congruence.
Qed.

(** *** Every loop ends, whatever [MaxIterations] is: the count wraps *)

Lemma GoInt_add_wrap x : GoInt.add (GoInt.wrap x) 1 = GoInt.wrap (x + 1).
Proof.
  unfold GoInt.add, GoInt.wrap. f_equal.
  replace ((x + 2 ^ 63) mod 2 ^ 64 - 2 ^ 63 + 1 + 2 ^ 63)
    with ((x + 2 ^ 63) mod 2 ^ 64 + 1) by lia.
  rewrite Zplus_mod_idemp_l. f_equal. lia.
Qed.

Lemma GoInt_wrap_mod y : GoInt.wrap (y mod 2 ^ 64) = GoInt.wrap y.
Proof. unfold GoInt.wrap. rewrite Zplus_mod_idemp_l. reflexivity. Qed.

Lemma GoInt_wrap_eq_mod x y :
  GoInt.wrap x = GoInt.wrap y -> x mod 2 ^ 64 = y mod 2 ^ 64.
Proof.
  unfold GoInt.wrap. intros Heq.
  assert (Hm : (x + 2 ^ 63) mod 2 ^ 64 = (y + 2 ^ 63) mod 2 ^ 64) by lia.
  assert (Hback : forall u, u mod 2 ^ 64 = ((u + 2 ^ 63) mod 2 ^ 64 - 2 ^ 63) mod 2 ^ 64).
  { intros u. rewrite Zminus_mod_idemp_l. f_equal. lia. }
  rewrite (Hback x), (Hback y), Hm. reflexivity.
Qed.

(** The count meets [MaxIterations - 1] for the first time after
    [(MaxIterations - 1) mod 2^64] increments. *)
Lemma count_meets_late (M : Z) (i : nat) :
  Z.of_nat i < (M - 1) mod 2 ^ 64 -> GoInt.wrap (Z.of_nat i) <> GoInt.sub M 1.
Proof.
  intros Hi Heq. unfold GoInt.sub in Heq. apply GoInt_wrap_eq_mod in Heq.
  rewrite Z.mod_small in Heq; [lia|].
  pose proof (Z.mod_pos_bound (M - 1) (2 ^ 64) ltac:(lia)). lia.
Qed.

Lemma count_meets (M : Z) :
  GoInt.wrap (Z.of_nat (Z.to_nat ((M - 1) mod 2 ^ 64))) = GoInt.sub M 1.
Proof.
  pose proof (Z.mod_pos_bound (M - 1) (2 ^ 64) ltac:(lia)).
  rewrite Z2Nat.id by lia. apply GoInt_wrap_mod.
Qed.

Lemma GoInt_budget_succ (M : Z) :
  Z.to_nat (GoInt.budget M) = Datatypes.S (Z.to_nat ((M - 1) mod 2 ^ 64)).
Proof.
  unfold GoInt.budget.
  pose proof (Z.mod_pos_bound (M - 1) (2 ^ 64) ltac:(lia)).
  rewrite Z2Nat.inj_add by lia. change (Z.to_nat 1) with 1%nat. lia.
Qed.

Lemma GoInt_budget_valid (M : Z) : 1 <= M <= GoInt.max_int -> GoInt.budget M = M.
Proof.
  unfold GoInt.budget, GoInt.max_int. intros HM. rewrite Z.mod_small; lia.
Qed.

Lemma GoInt_budget_invalid (M : Z) :
  GoInt.min_int <= M <= 0 -> GoInt.budget M = M + 2 ^ 64.
Proof.
  unfold GoInt.budget, GoInt.min_int. intros HM.
  replace (M - 1) with (M - 1 + 2 ^ 64 + (-1) * 2 ^ 64) by lia.
  rewrite Z_mod_plus_full, Z.mod_small; lia.
Qed.

Lemma q_loop_total_any (q : Quadratic) (c z0 : complex128) :
  let M := MaxIterations (Quadratic_FracData q) in
  exists n s,
    q_loop q c (Z.to_nat (GoInt.budget M)) z0 = Some (n, s)
    /\ Z.of_nat n <= GoInt.budget M.
Proof.
  intros M. rewrite GoInt_budget_succ. unfold GoInt.budget.
  pose proof (Z.mod_pos_bound (M - 1) (2 ^ 64) ltac:(lia)) as HK.
  set (K := Z.to_nat ((M - 1) mod 2 ^ 64)).
  assert (HKz : Z.of_nat K = (M - 1) mod 2 ^ 64) by (unfold K; lia).
  assert (Hchain : forall k, (k <= K)%nat ->
            (forall j, (j < k)%nat -> q_passes q c z0 j = true) ->
            forall i, (i < k)%nat ->
              q_cond q (q_stw c z0 i) = true /\
              exists t, q_body q c (q_stw c z0 i) = Next t
                        /\ q_post t = q_stw c z0 (Datatypes.S i)).
  { intros k Hk Hpass i Hi. split; [exact (Hpass i Hi)|].
    unfold q_body, q_stw; simpl q_count; simpl q_z. unfold q_maxIt. fold M.
    destruct (Z.eqb_spec (GoInt.wrap (Z.of_nat i)) (GoInt.sub M 1)) as [Heq|_].
    - exfalso. apply (count_meets_late M i); [lia|exact Heq].
    - eexists; split; [reflexivity|].
      unfold q_post; simpl. rewrite GoInt_add_wrap. f_equal. f_equal. lia. }
  destruct (first_failure (q_passes q c z0) (Datatypes.S K))
    as [(k & Hk & Hfail & Hpass)|Hpass].
  - exists k, (q_stw c z0 k). split; [|lia].
    apply (for_loop_exit_cond _ _ _ (q_stw c z0)).
    + apply Hchain; [lia|exact Hpass].
    + exact Hfail.
    + lia.
  - eexists (Datatypes.S K), _. split; [|lia].
    apply (for_loop_exit_break _ _ _ (q_stw c z0)).
    + apply Hchain; [lia|]. intros j Hj. apply Hpass. lia.
    + apply (Hpass K). lia.
    + unfold q_body, q_stw; simpl q_count; simpl q_z. unfold q_maxIt. fold M.
      unfold K. rewrite count_meets, Z.eqb_refl. reflexivity.
    + lia.
Qed.

Lemma r_loop_total_any (r : JuliaR) (loc : complex128) :
  let M := MaxIterations (JuliaR_FracData r) in
  exists n s,
    r_loop r (Z.to_nat (GoInt.budget M)) loc = Some (n, s)
    /\ Z.of_nat n <= GoInt.budget M.
Proof.
  intros M. rewrite GoInt_budget_succ. unfold GoInt.budget.
  pose proof (Z.mod_pos_bound (M - 1) (2 ^ 64) ltac:(lia)) as HK.
  set (K := Z.to_nat ((M - 1) mod 2 ^ 64)).
  assert (HKz : Z.of_nat K = (M - 1) mod 2 ^ 64) by (unfold K; lia).
  assert (Hchain : forall k, (k <= K)%nat ->
            (forall j, (j < k)%nat -> r_passes r loc j = true) ->
            forall i, (i < k)%nat ->
              r_cond r (r_stw r loc i) = true /\
              exists t, r_body r (r_stw r loc i) = Next t
                        /\ r_post t = r_stw r loc (Datatypes.S i)).
  { intros k Hk Hpass i Hi. split; [exact (Hpass i Hi)|].
    unfold r_body, r_stw; simpl r_count; simpl r_z. fold M.
    destruct (Z.eqb_spec (GoInt.wrap (Z.of_nat i)) (GoInt.sub M 1)) as [Heq|_].
    - exfalso. apply (count_meets_late M i); [lia|exact Heq].
    - eexists; split; [reflexivity|].
      unfold r_post; simpl. rewrite GoInt_add_wrap. f_equal. f_equal. lia. }
  destruct (first_failure (r_passes r loc) (Datatypes.S K))
    as [(k & Hk & Hfail & Hpass)|Hpass].
  - exists k, (r_stw r loc k). split; [|lia].
    apply (for_loop_exit_cond _ _ _ (r_stw r loc)).
    + apply Hchain; [lia|exact Hpass].
    + exact Hfail.
    + lia.
  - eexists (Datatypes.S K), _. split; [|lia].
    apply (for_loop_exit_break _ _ _ (r_stw r loc)).
    + apply Hchain; [lia|]. intros j Hj. apply Hpass. lia.
    + apply (Hpass K). lia.
    + unfold r_body, r_stw; simpl r_count; simpl r_z. fold M.
      unfold K. rewrite count_meets, Z.eqb_refl. reflexivity.
    + lia.
Qed.

(** The polynomiograph's loop: it ends at the first step at which the
    test holds, or, if there is none before, when the count meets
    [MaxIterations - 1], which it does after
    [(MaxIterations - 1) mod 2^64] increments. *)
Lemma pg_loop_total_any (m : MandelPG) (loc : complex128) :
  let M := MaxIterations (Polynomiograph_FracData m) in
  exists n s,
    pg_loop m (Z.to_nat (GoInt.budget M)) loc = Some (n, s)
    /\ Z.of_nat n <= GoInt.budget M
    /\ ((exists k, n = Datatypes.S k /\ pg_converges_at m loc k = true)
        \/ (Z.of_nat n = GoInt.budget M /\ pg_count s = GoInt.sub M 1)).
Proof.
  intros M. rewrite GoInt_budget_succ. unfold GoInt.budget.
  pose proof (Z.mod_pos_bound (M - 1) (2 ^ 64) ltac:(lia)) as HK.
  set (K := Z.to_nat ((M - 1) mod 2 ^ 64)).
  assert (HKz : Z.of_nat K = (M - 1) mod 2 ^ 64) by (unfold K; lia).
  assert (Hchain : forall k, (k <= K)%nat ->
            (forall j, (j < k)%nat -> pg_converges_at m loc j = false) ->
            forall i, (i < k)%nat ->
              (fun _ : pg_state => true) (pg_stw m loc i) = true /\
              exists t, pg_body m (pg_stw m loc i) = Next t
                        /\ (fun s : pg_state => s) t = pg_stw m loc (Datatypes.S i)).
  { intros k Hk Hconv i Hi. split; [reflexivity|].
    pose proof (Hconv i Hi) as Hci. unfold pg_converges_at in Hci.
    unfold pg_body, pg_stw; simpl pg_count; simpl pg_z; simpl pg_c.
    rewrite Hci. fold M.
    destruct (Z.eqb_spec (GoInt.wrap (Z.of_nat i)) (GoInt.sub M 1)) as [Heq|_].
    - exfalso. apply (count_meets_late M i); [lia|exact Heq].
    - eexists; split; [reflexivity|].
      rewrite GoInt_add_wrap. unfold pg_orbit; simpl. f_equal. f_equal. lia. }
  destruct (first_failure (fun j => negb (pg_converges_at m loc j)) (Datatypes.S K))
    as [(k & Hk & Hhit & Hconv)|Hconv].
  - apply negb_false_iff in Hhit.
    assert (Hconv' : forall j, (j < k)%nat -> pg_converges_at m loc j = false)
      by (intros j Hj; apply negb_true_iff, Hconv, Hj).
    exists (Datatypes.S k), (pg_stw m loc k). split; [|split; [lia|left; eauto]].
    apply (for_loop_exit_break _ _ _ (pg_stw m loc)).
    + apply Hchain; [lia|exact Hconv'].
    + reflexivity.
    + unfold pg_converges_at in Hhit.
      unfold pg_body, pg_stw; simpl pg_count; simpl pg_z; simpl pg_c.
      rewrite Hhit. reflexivity.
    + lia.
  - assert (Hconv' : forall j, (j <= K)%nat -> pg_converges_at m loc j = false)
      by (intros j Hj; apply negb_true_iff, Hconv; lia).
    eexists (Datatypes.S K), _. split; [|split; [lia|right; split; [lia|]]].
    + apply (for_loop_exit_break _ _ _ (pg_stw m loc)).
      * apply Hchain; [lia|]. intros j Hj. apply Hconv'. lia.
      * reflexivity.
      * pose proof (Hconv' K ltac:(lia)) as Hck. unfold pg_converges_at in Hck.
        unfold pg_body, pg_stw; simpl pg_count; simpl pg_z; simpl pg_c.
        rewrite Hck. fold M. unfold K. rewrite count_meets, Z.eqb_refl. reflexivity.
      * lia.
    + reflexivity.
Qed.

(** ** The four variants obey [FraccerLaws] *)

Lemma FracData_SetMaxIterations_invalid (f : FracData) (n : Z) :
  n < 1 -> FracData_SetMaxIterations f n = (f, Some ErrMaxIterations).
Proof.
  intros Hn. unfold FracData_SetMaxIterations.
  destruct (Z.ltb_spec n 1); [reflexivity|lia].
Qed.

Lemma FracData_SetMaxIterations_valid (f : FracData) (n : Z) :
  1 <= n ->
  FracData_SetMaxIterations f n =
    (mkFracData (Radius f) n (degree f) (logDegreeInv f), None).
Proof.
  intros Hn. unfold FracData_SetMaxIterations.
  destruct (Z.ltb_spec n 1); [lia|reflexivity].
Qed.

Lemma Quadratic_q_returns (q : Quadratic) (z c : complex128) :
  1 <= MaxIterations (Quadratic_FracData q) <= GoInt.max_int ->
  exists r, Quadratic_q (Z.to_nat (MaxIterations (Quadratic_FracData q))) q z c = Some r.
Proof.
  intros HM. destruct (q_loop_total q c z HM) as (n & s & Hrun & _).
  unfold Quadratic_q. rewrite Hrun. eauto.
Qed.

Lemma Quadratic_q_fuel (q : Quadratic) (z c : complex128) fuel1 fuel2 r1 r2 :
  Quadratic_q fuel1 q z c = Some r1 -> Quadratic_q fuel2 q z c = Some r2 -> r1 = r2.
Proof.
  unfold Quadratic_q, q_loop.
  destruct (for_loop _ _ _ fuel1 _) as [[n1 s1]|] eqn:H1; [|discriminate].
  destruct (for_loop _ _ _ fuel2 _) as [[n2 s2]|] eqn:H2; [|discriminate].
  pose proof (for_loop_agree _ _ _ _ _ _ _ _ H1 H2) as Heq.
  injection Heq as -> ->. congruence.
Qed.

Lemma Quadratic_q_bounded (q : Quadratic) (z c : complex128) fuel r :
  1 <= MaxIterations (Quadratic_FracData q) <= GoInt.max_int ->
  Quadratic_q fuel q z c = Some r ->
  0 <= Iterations r <= MaxIterations (Quadratic_FracData q) - 1.
Proof.
  intros HM Hr.
  destruct (q_loop_total q c z HM) as (n & s & Hrun & _ & Hcount & _).
  assert (Hr' : Quadratic_q (Z.to_nat (MaxIterations (Quadratic_FracData q))) q z c
                = Some (mkResult (q_z s) c (q_count s) 0))
    by (unfold Quadratic_q; rewrite Hrun; reflexivity).
  rewrite (Quadratic_q_fuel _ _ _ _ _ _ _ Hr Hr'). exact Hcount.
Qed.

#[export] Instance Mandelbrot_FraccerLaws : FraccerLaws Mandelbrot.
Proof.
  split.
  - intros [[fd]] n Hn. simpl.
    rewrite (FracData_SetMaxIterations_invalid _ _ Hn). reflexivity.
  - intros [[fd]] n Hn. simpl.
    rewrite (FracData_SetMaxIterations_valid _ _ Hn). split; reflexivity.
  - intros m loc HM. simpl in *. unfold Mandelbrot_Frac.
    destruct (isCardioidOrP2Bulb _ _); [eauto|].
    apply Quadratic_q_returns. exact HM.
  - intros m loc fuel1 fuel2 r1 r2. simpl. unfold Mandelbrot_Frac.
    destruct (isCardioidOrP2Bulb _ _); [congruence|]. apply Quadratic_q_fuel.
  - intros m loc fuel r HM. simpl in *. unfold Mandelbrot_Frac.
    destruct (isCardioidOrP2Bulb _ _).
    + intros [= <-]. simpl. rewrite GoInt_sub_1 by exact HM. lia.
    + apply Quadratic_q_bounded. exact HM.
Qed.

#[export] Instance JuliaQ_FraccerLaws : FraccerLaws JuliaQ.
Proof.
  split.
  - intros [[fd] cj] n Hn. simpl.
    rewrite (FracData_SetMaxIterations_invalid _ _ Hn). reflexivity.
  - intros [[fd] cj] n Hn. simpl.
    rewrite (FracData_SetMaxIterations_valid _ _ Hn). split; reflexivity.
  - intros j loc HM. apply Quadratic_q_returns. exact HM.
  - intros j loc fuel1 fuel2 r1 r2. apply Quadratic_q_fuel.
  - intros j loc fuel r HM. apply Quadratic_q_bounded. exact HM.
Qed.

Lemma JuliaR_Frac_fuel (r : JuliaR) (loc : complex128) fuel1 fuel2 r1 r2 :
  JuliaR_Frac fuel1 r loc = Some r1 -> JuliaR_Frac fuel2 r loc = Some r2 -> r1 = r2.
Proof.
  unfold JuliaR_Frac, r_loop.
  destruct (for_loop _ _ _ fuel1 _) as [[n1 s1]|] eqn:H1; [|discriminate].
  destruct (for_loop _ _ _ fuel2 _) as [[n2 s2]|] eqn:H2; [|discriminate].
  pose proof (for_loop_agree _ _ _ _ _ _ _ _ H1 H2) as Heq.
  injection Heq as -> ->. congruence.
Qed.

#[export] Instance JuliaR_FraccerLaws : FraccerLaws JuliaR.
Proof.
  split.
  - intros [fd p q cj] n Hn. simpl.
    rewrite (FracData_SetMaxIterations_invalid _ _ Hn). reflexivity.
  - intros [fd p q cj] n Hn. simpl.
    rewrite (FracData_SetMaxIterations_valid _ _ Hn). split; reflexivity.
  - intros r loc HM. simpl in *.
    destruct (r_loop_total r loc HM) as (n & s & Hrun & _).
    unfold JuliaR_Frac. rewrite Hrun. eauto.
  - intros r loc fuel1 fuel2 r1 r2. apply JuliaR_Frac_fuel.
  - intros r loc fuel res HM Hres. simpl in *.
    destruct (r_loop_total r loc HM) as (n & s & Hrun & _ & Hcount & _).
    assert (Hres' : JuliaR_Frac (Z.to_nat (MaxIterations (JuliaR_FracData r))) r loc
                    = Some (mkResult (r_z s) (JuliaR_C r) (r_count s) 0))
      by (unfold JuliaR_Frac; rewrite Hrun; reflexivity).
    rewrite (JuliaR_Frac_fuel _ _ _ _ _ _ Hres Hres'). exact Hcount.
Qed.

Lemma MandelPG_Frac_fuel (m : MandelPG) (loc : complex128) fuel1 fuel2 r1 r2 :
  MandelPG_Frac fuel1 m loc = Some r1 -> MandelPG_Frac fuel2 m loc = Some r2 -> r1 = r2.
Proof.
  unfold MandelPG_Frac, pg_loop.
  destruct (for_loop _ _ _ fuel1 _) as [[n1 s1]|] eqn:H1; [|discriminate].
  destruct (for_loop _ _ _ fuel2 _) as [[n2 s2]|] eqn:H2; [|discriminate].
  pose proof (for_loop_agree _ _ _ _ _ _ _ _ H1 H2) as Heq.
  injection Heq as -> ->. congruence.
Qed.

#[export] Instance MandelPG_FraccerLaws : FraccerLaws MandelPG.
Proof.
  split.
  - intros [fd b f g e] n Hn. simpl.
    rewrite (FracData_SetMaxIterations_invalid _ _ Hn). reflexivity.
  - intros [fd b f g e] n Hn. simpl.
    rewrite (FracData_SetMaxIterations_valid _ _ Hn). split; reflexivity.
  - intros m loc HM. simpl in *.
    destruct (pg_loop_total m loc HM) as (n & s & Hrun & _).
    unfold MandelPG_Frac. rewrite Hrun. eauto.
  - intros m loc fuel1 fuel2 r1 r2. apply MandelPG_Frac_fuel.
  - intros m loc fuel res HM Hres. simpl in *.
    destruct (pg_loop_total m loc HM) as (n & s & Hrun & _ & Hcount & _).
    assert (Hres' : MandelPG_Frac (Z.to_nat (MaxIterations (Polynomiograph_FracData m))) m loc
                    = Some (mkResult (pg_z s) (pg_c s) (pg_count s) 0))
      by (unfold MandelPG_Frac; rewrite Hrun; reflexivity).
    rewrite (MandelPG_Frac_fuel _ _ _ _ _ _ Hres Hres'). exact Hcount.
Qed.

(* ================================================================== *)
(** ** The iteration config: [SetMaxIterations] *)
(* ================================================================== *)

(** C8. [SetMaxIterations(n)] returns an error if and only if [n < 1];
    for [n >= 1] it returns [nil] and stores [n] as the max iteration
    count (the other fields keep their values); when it fails, the
    struct, and so the stored max iteration count, is unchanged. *)
Theorem SetMaxIterations_contract (f : FracData) (n : Z) :
  (snd (FracData_SetMaxIterations f n) <> None <-> n < 1)
  /\ (1 <= n ->
      FracData_SetMaxIterations f n =
        (mkFracData (Radius f) n (degree f) (logDegreeInv f), None)
      /\ MaxIterations (fst (FracData_SetMaxIterations f n)) = n)
  /\ (n < 1 ->
      FracData_SetMaxIterations f n = (f, Some ErrMaxIterations)
      /\ MaxIterations (fst (FracData_SetMaxIterations f n)) = MaxIterations f).
Proof.
  unfold FracData_SetMaxIterations.
  destruct (Z.ltb_spec n 1) as [Hlt|Hge]; simpl.
  - repeat split; intros; try congruence; try lia.
  - repeat split; intros; try congruence; try lia.
Qed.

Lemma SetMaxIterations_contract_witness :
  FracData_SetMaxIterations (mkFracData 2 7 2 0) 0
    = (mkFracData 2 7 2 0, Some ErrMaxIterations)
  /\ FracData_SetMaxIterations (mkFracData 2 7 2 0) (-4)
    = (mkFracData 2 7 2 0, Some ErrMaxIterations)
  /\ FracData_SetMaxIterations (mkFracData 2 7 2 0) 1
    = (mkFracData 2 1 2 0, None).
Proof.
  destruct (SetMaxIterations_contract (mkFracData 2 7 2 0) 0) as (_ & _ & H0).
  destruct (SetMaxIterations_contract (mkFracData 2 7 2 0) (-4)) as (_ & _ & Hneg).
  destruct (SetMaxIterations_contract (mkFracData 2 7 2 0) 1) as (_ & H1 & _).
  split; [|split].
  - apply H0. lia.
  - apply Hneg. lia.
  - apply H1. lia.
Defined.

(* ================================================================== *)
(** ** The shared quadratic core *)
(* ================================================================== *)

Lemma getMod2_unfold (z : complex128) :
  getMod2 z =
    PrimFloat.add (PrimFloat.add (PrimFloat.mul (real z) (real z)) (imag z)) (imag z).
Proof. reflexivity. Qed.

(** C1. [getMod2] does not compute [real(z)^2 + imag(z)^2]: it adds the
    imaginary part twice instead of squaring it.  At [z = 3i] it returns
    6 where the squared modulus is 9, and at [z = -3i] it returns -6, a
    negative number that no bailout test [mod2 <= r2] rejects. *)
Theorem getMod2_adds_imag_twice :
  getMod2 (Complex 0 3) = 6%float
  /\ PrimFloat.add (PrimFloat.mul 0 0) (PrimFloat.mul 3 3) = 9%float
  /\ PrimFloat.eqb (getMod2 (Complex 0 3))
       (PrimFloat.add (PrimFloat.mul 0 0) (PrimFloat.mul 3 3)) = false
  /\ getMod2 (Complex 0 (-3)) = (-6)%float.
Proof. repeat split; reflexivity. Qed.

(** C2, as the code has it.  For [1 <= MaxIterations] the core returns,
    having applied [z = z*z + c] some [n <= MaxIterations] times: the
    returned [z] is [z_n], the returned [c] is the parameter, and the
    count lies in [0, MaxIterations-1].  Before each of the [n] steps
    the test [getMod2(z_j) <= Radius^2] passed.  The loop ends either
    at the first [z_n] that fails the test, with count [n], or by the
    count check right after step number [MaxIterations], with count
    [MaxIterations-1]. *)
Theorem Quadratic_q_contract (q : Quadratic) (z0 c : complex128) :
  let M := MaxIterations (Quadratic_FracData q) in
  1 <= M <= GoInt.max_int ->
  exists n r,
    Quadratic_q_steps (Z.to_nat M) q z0 c = Some n
    /\ Quadratic_q (Z.to_nat M) q z0 c = Some r
    /\ Z.of_nat n <= M
    /\ 0 <= Iterations r <= M - 1
    /\ Result_Z r = q_orbit c z0 n
    /\ Result_C r = c
    /\ (forall j, (j < n)%nat -> q_passes q c z0 j = true)
    /\ ((Iterations r = Z.of_nat n /\ q_passes q c z0 n = false)
        \/ (Z.of_nat n = M /\ Iterations r = M - 1)).
Proof.
  intros M HM.
  destruct (q_loop_total q c z0 HM) as (n & s & Hrun & Hn & Hcount & Hz & Hpass & Hexit).
  exists n, (mkResult (q_z s) c (q_count s) 0).
  unfold Quadratic_q_steps, Quadratic_q. fold M in Hrun. rewrite Hrun. simpl.
  repeat split; auto; try lia.
Qed.

Lemma Quadratic_q_contract_witness :
  1 <= MaxIterations (Quadratic_FracData (ex_Quadratic 2 3)) <= GoInt.max_int
  /\ exists n r,
       Quadratic_q_steps 3 (ex_Quadratic 2 3) c0 (Complex 2 0) = Some n
       /\ Quadratic_q 3 (ex_Quadratic 2 3) c0 (Complex 2 0) = Some r
       /\ Z.of_nat n <= 3
       /\ 0 <= Iterations r <= 2.
Proof.
  assert (HM : 1 <= MaxIterations (Quadratic_FracData (ex_Quadratic 2 3)) <= GoInt.max_int)
    by (vm_compute; split; discriminate).
  split; [exact HM|].
  destruct (Quadratic_q_contract (ex_Quadratic 2 3) c0 (Complex 2 0) HM)
    as (n & r & Hsteps & Hres & Hn & Hit & _).
  exists n, r. split; [exact Hsteps|]. split; [exact Hres|]. split; [exact Hn|exact Hit].
Defined.

(** C2, as stated, fails: with [MaxIterations = 1], radius 2, [z0 = 0]
    and [c = 1] the core applies one step (it returns [z = 1], not
    [z0]), which is more than [MaxIterations - 1 = 0] steps. *)
Lemma Quadratic_q_applies_MaxIterations_steps :
  MaxIterations (Quadratic_FracData (ex_Quadratic 2 1)) = 1
  /\ Quadratic_q_steps 1 (ex_Quadratic 2 1) c0 (Complex 1 0) = Some 1%nat
  /\ Quadratic_q 1 (ex_Quadratic 2 1) c0 (Complex 1 0)
     = Some (mkResult (Complex 1 0) (Complex 1 0) 0 0)
  /\ ~ (Z.of_nat 1 <= MaxIterations (Quadratic_FracData (ex_Quadratic 2 1)) - 1).
Proof.
  repeat split; try reflexivity. vm_compute. intros H. apply H. reflexivity.
Qed.

(* ================================================================== *)
(** ** Mandelbrot *)
(* ================================================================== *)

(** C4. When [c] passes the main-cardioid test
    [q*(q+p) <= 0.25*Im(c)^2] (with [p = Re(c) - 0.25] and
    [q = p^2 + Im(c)^2]) or the period-2-bulb test
    [(Re(c)+1)^2 + Im(c)^2 <= 0.0625], [Mandelbrot.Frac] returns
    [{Z: c, C: 0, Iterations: MaxIterations - 1}] whatever the fuel, so
    without entering a loop; when [c] passes neither, it is
    [q(0, c)], the quadratic core started at 0 with parameter [c].  The
    tests are the code's float64 expressions; multiplying by 0.25 rounds
    as dividing by 4 does. *)
Theorem Mandelbrot_Frac_contract (fuel : nat) (m : Mandelbrot) (c : complex128) :
  let M := MaxIterations (Quadratic_FracData (Mandelbrot_Quadratic m)) in
  let p := PrimFloat.sub (real c) 0.25 in
  let im2 := PrimFloat.mul (imag c) (imag c) in
  let q := PrimFloat.add (PrimFloat.mul p p) im2 in
  let cardioid := PrimFloat.leb (PrimFloat.mul q (PrimFloat.add q p)) (PrimFloat.mul 0.25 im2) in
  let p2bulb :=
    PrimFloat.leb
      (PrimFloat.add (PrimFloat.mul (PrimFloat.add (real c) 1) (PrimFloat.add (real c) 1)) im2)
      0.0625 in
  (cardioid = true \/ p2bulb = true ->
     Mandelbrot_Frac fuel m c = Some (mkResult c c0 (GoInt.sub M 1) 0)
     /\ Mandelbrot_Frac O m c = Some (mkResult c c0 (GoInt.sub M 1) 0)
     /\ (GoInt.min_int < M <= GoInt.max_int -> GoInt.sub M 1 = M - 1))
  /\ (cardioid = false -> p2bulb = false ->
      Mandelbrot_Frac fuel m c = Quadratic_q fuel (Mandelbrot_Quadratic m) c0 c).
Proof.
  intros M p im2 q cardioid p2bulb.
  unfold Mandelbrot_Frac, isCardioidOrP2Bulb.
  fold M p im2 q. fold cardioid. fold p2bulb.
  split.
  - intros Hin.
    assert (Hsel : (if cardioid then true else p2bulb) = true)
      by (destruct Hin as [-> | ->]; [reflexivity|destruct cardioid; reflexivity]).
    rewrite Hsel. repeat split.
    intros HM. apply GoInt_wrap_id.
    unfold GoInt.in_range, GoInt.min_int, GoInt.max_int in *. lia.
  - intros -> ->. reflexivity.
Qed.

Lemma Mandelbrot_Frac_contract_witness :
  Mandelbrot_Frac 5 (mkMandelbrot (ex_Quadratic 2 5)) c0
    = Some (mkResult c0 c0 4 0)
  /\ Mandelbrot_Frac 5 (mkMandelbrot (ex_Quadratic 2 5)) (Complex (-1) 0)
    = Some (mkResult (Complex (-1) 0) c0 4 0)
  /\ Mandelbrot_Frac 5 (mkMandelbrot (ex_Quadratic 2 5)) (Complex 2 0)
    = Quadratic_q 5 (ex_Quadratic 2 5) c0 (Complex 2 0).
Proof.
  destruct (Mandelbrot_Frac_contract 5 (mkMandelbrot (ex_Quadratic 2 5)) c0) as (H0 & _).
  destruct (Mandelbrot_Frac_contract 5 (mkMandelbrot (ex_Quadratic 2 5)) (Complex (-1) 0))
    as (H1 & _).
  destruct (Mandelbrot_Frac_contract 5 (mkMandelbrot (ex_Quadratic 2 5)) (Complex 2 0))
    as (_ & H2).
  split; [|split].
  - apply H0. left. reflexivity.
  - apply H1. right. reflexivity.
  - apply H2; reflexivity.
Defined.

(* ================================================================== *)
(** ** The listed sample evaluations *)
(* ================================================================== *)

(** The origin lies in the main cardioid: whatever the configuration,
    [Mandelbrot.Frac] answers [MaxIterations - 1] there. *)
Lemma Mandelbrot_Frac_origin (fuel : nat) (m : Mandelbrot) :
  Mandelbrot_Frac fuel m c0
  = Some (mkResult c0 c0
            (GoInt.sub (MaxIterations (Quadratic_FracData (Mandelbrot_Quadratic m))) 1) 0).
Proof. reflexivity. Qed.

(** [c = 2] with radius 2 escapes at once: the count is 2, below
    [MaxIterations - 1 = 4]. *)
Example Mandelbrot_Frac_at_2 :
  Mandelbrot_Frac 5 (mkMandelbrot (ex_Quadratic 2 5)) (Complex 2 0)
  = Some (mkResult (Complex 6 0) (Complex 2 0) 2 0).
Proof. reflexivity. Qed.

(** 0 is a fixed point of [z*z]: the quadratic Julia set with [C = 0]
    runs out of iterations there. *)
Example JuliaQ_Frac_fixed_point :
  JuliaQ_Frac 5 (mkJuliaQ (ex_Quadratic 2 5) c0) c0 = Some (mkResult c0 c0 4 0).
Proof. reflexivity. Qed.

(** The cardioid test multiplies by 0.25 where the formula divides by 4;
    both round the same quotient, down to the subnormal numbers. *)
Example quarter_is_division_by_4 :
  PrimFloat.mul 0.25 3 = PrimFloat.div 3 4
  /\ PrimFloat.mul 0.25 0x1p-1074 = PrimFloat.div 0x1p-1074 4
  /\ PrimFloat.mul 0.25 0x1.8p-1073 = PrimFloat.div 0x1.8p-1073 4
  /\ PrimFloat.mul 0.25 0x1.4p-1072 = PrimFloat.div 0x1.4p-1072 4
  /\ PrimFloat.mul 0.25 GoMath.MaxFloat64 = PrimFloat.div GoMath.MaxFloat64 4.
Proof. repeat split; reflexivity. Qed.

(** With [MaxIterations = 1] a point outside the bailout radius gets the
    count 0 without a step. *)
Example Quadratic_q_first_test :
  Quadratic_q_steps 1 (ex_Quadratic 2 1) (Complex 3 0) c0 = Some O
  /\ Quadratic_q 1 (ex_Quadratic 2 1) (Complex 3 0) c0
     = Some (mkResult (Complex 3 0) c0 0 0).
Proof. split; reflexivity. Qed.

(* ================================================================== *)
(** ** The rational Julia set *)
(* ================================================================== *)

(** The modulus of a value with an infinite or NaN part is [+Inf] or NaN. *)
Lemma cmplx_Abs_nonfinite (z : complex128) :
  c_nonfinite z = true ->
  cmplx_Abs z = PrimFloat.infinity \/ cmplx_Abs z = PrimFloat.nan.
Proof.
  unfold c_nonfinite, cmplx_Abs, GoMath.Hypot. intros Hz.
  destruct (GoMath.IsInf (abs (real z)) 1 || GoMath.IsInf (abs (imag z)) 1) eqn:Hinf;
    [left; reflexivity|].
  apply orb_false_iff in Hinf as [Hre Him].
  assert (Hnan : GoMath.IsNaN (abs (real z)) || GoMath.IsNaN (abs (imag z)) = true).
  { apply orb_true_iff in Hz as [Hz|Hz]; [|rewrite (IsNaN_abs _ Hz); apply orb_true_r].
    apply orb_true_iff in Hz as [Hz|Hz]; [|rewrite (IsNaN_abs _ Hz); reflexivity].
    apply orb_true_iff in Hz as [Hz|Hz]; apply IsInf_abs in Hz; congruence. }
  rewrite Hnan. right. reflexivity.
Qed.

(** Such a value fails the test [mod <= Radius] unless the radius is [+Inf]. *)
Lemma nonfinite_fails_radius_test (z : complex128) (radius : float64) :
  c_nonfinite z = true ->
  GoMath.IsInf radius 1 = false ->
  PrimFloat.leb (cmplx_Abs z) radius = false.
Proof.
  intros Hz Hr. destruct (cmplx_Abs_nonfinite z Hz) as [-> | ->].
  - destruct (PrimFloat.leb infinity radius) eqn:Hle; [|reflexivity].
    apply leb_infinity_l, IsInf_of_Prim2SF in Hle. congruence.
  - apply leb_nan_l.
Qed.

(** C7, as the code has it.  [JuliaR.Frac] walks the orbit
    [z_{n+1} = P(z_n)/Q(z_n) + C] and tests [cmplx.Abs(z) <= Radius]
    (the modulus, not its square) before each step.  It returns at the
    first [z_k] that fails the test, with [Iterations = k]; when
    [z_0 .. z_{MaxIterations-1}] all pass, it returns after step number
    [MaxIterations], with [Iterations = MaxIterations - 1] and
    [Z = z_MaxIterations].  A [z_k] with an infinite or NaN part fails
    the test whenever the radius is not [+Inf]: if it is reached with
    [k <= MaxIterations - 1], the call returns there, normally, with
    [Iterations = k]. *)
Theorem JuliaR_Frac_contract (r : JuliaR) (loc : complex128) :
  let M := MaxIterations (JuliaR_FracData r) in
  1 <= M <= GoInt.max_int ->
  (forall k fuel,
      Z.of_nat k <= M - 1 ->
      (forall j, (j < k)%nat -> r_passes r loc j = true) ->
      r_passes r loc k = false ->
      (k <= fuel)%nat ->
      r_loop r fuel loc = Some (k, r_st r loc k)
      /\ JuliaR_Frac fuel r loc
         = Some (mkResult (r_orbit r loc k) (JuliaR_C r) (Z.of_nat k) 0))
  /\ ((forall j, (j < Z.to_nat M)%nat -> r_passes r loc j = true) ->
      forall fuel, (Z.to_nat M <= fuel)%nat ->
      JuliaR_Frac fuel r loc
      = Some (mkResult (r_orbit r loc (Z.to_nat M)) (JuliaR_C r) (M - 1) 0))
  /\ (forall k,
      c_nonfinite (r_orbit r loc k) = true ->
      GoMath.IsInf (Radius (JuliaR_FracData r)) 1 = false ->
      r_passes r loc k = false)
  /\ (forall k fuel,
      Z.of_nat k <= M - 1 ->
      (forall j, (j < k)%nat -> r_passes r loc j = true) ->
      c_nonfinite (r_orbit r loc k) = true ->
      GoMath.IsInf (Radius (JuliaR_FracData r)) 1 = false ->
      (k <= fuel)%nat ->
      JuliaR_Frac fuel r loc
      = Some (mkResult (r_orbit r loc k) (JuliaR_C r) (Z.of_nat k) 0)).
Proof.
  intros M HM.
  assert (Hescape : forall k fuel,
      Z.of_nat k <= M - 1 ->
      (forall j, (j < k)%nat -> r_passes r loc j = true) ->
      r_passes r loc k = false ->
      (k <= fuel)%nat ->
      r_loop r fuel loc = Some (k, r_st r loc k)
      /\ JuliaR_Frac fuel r loc
         = Some (mkResult (r_orbit r loc k) (JuliaR_C r) (Z.of_nat k) 0)).
  { intros k fuel Hk Hpass Hfail Hfuel.
    pose proof (r_loop_escape r loc HM k fuel Hk Hpass Hfail Hfuel) as Hrun.
    split; [exact Hrun|]. unfold JuliaR_Frac. rewrite Hrun. reflexivity. }
  assert (Hnonfinite : forall k,
      c_nonfinite (r_orbit r loc k) = true ->
      GoMath.IsInf (Radius (JuliaR_FracData r)) 1 = false ->
      r_passes r loc k = false).
  { intros k Hz Hr. unfold r_passes. apply nonfinite_fails_radius_test; assumption. }
  split; [exact Hescape|]. split; [|split; [exact Hnonfinite|]].
  - intros Hpass fuel Hfuel. unfold JuliaR_Frac.
    rewrite (r_loop_exhaust r loc HM fuel Hpass Hfuel). reflexivity.
  - intros k fuel Hk Hpass Hz Hr Hfuel.
    apply Hescape; auto.
Qed.

Lemma JuliaR_Frac_contract_witness :
  1 <= MaxIterations (JuliaR_FracData (ex_JuliaR 2 3)) <= GoInt.max_int
  /\ c_nonfinite (r_orbit (ex_JuliaR 2 3) c0 1) = true
  /\ GoMath.IsInf (Radius (JuliaR_FracData (ex_JuliaR 2 3))) 1 = false
  /\ JuliaR_Frac 3 (ex_JuliaR 2 3) c0
     = Some (mkResult (Complex PrimFloat.infinity PrimFloat.nan) c0 1 0).
Proof.
  assert (HM : 1 <= MaxIterations (JuliaR_FracData (ex_JuliaR 2 3)) <= GoInt.max_int)
    by (vm_compute; split; discriminate).
  split; [exact HM|]. split; [reflexivity|]. split; [reflexivity|].
  destruct (JuliaR_Frac_contract (ex_JuliaR 2 3) c0 HM) as (_ & _ & _ & Hnf).
  apply (Hnf 1%nat 3%nat).
  - simpl. lia.
  - intros j Hj. assert (j = O) as -> by lia. reflexivity.
  - reflexivity.
  - reflexivity.
  - lia.
Defined.

(** C7, as stated, fails twice.  With the radius [+Inf], [MaxIterations
    = 3], [P(z) = 1], [Q(z) = 0] and [C = 0], the first division gives
    [z_1 = +Inf + NaN i]; its modulus [+Inf] passes the test
    [mod <= Radius], the loop goes on and the call returns
    [Iterations = 2 = MaxIterations - 1]: the value is not classified as
    escaped.  And with radius 10 and [MaxIterations = 1] on the orbit
    0, 1, 2, ... the loop stops after one step (it returns [Z = 1]), not
    after [MaxIterations - 1 = 0] steps. *)
Lemma JuliaR_Frac_infinite_radius_keeps_going :
  (c_nonfinite (r_orbit (ex_JuliaR PrimFloat.infinity 3) c0 1) = true
   /\ cmplx_Abs (r_orbit (ex_JuliaR PrimFloat.infinity 3) c0 1) = PrimFloat.infinity
   /\ r_passes (ex_JuliaR PrimFloat.infinity 3) c0 1 = true
   /\ JuliaR_Frac 3 (ex_JuliaR PrimFloat.infinity 3) c0
      = Some (mkResult (Complex PrimFloat.infinity PrimFloat.nan) c0 2 0))
  /\ (r_loop (ex_JuliaR_succ 10 1) 1 c0
      = Some (1%nat, mk_r_state (Complex 1 0) 0 0)
      /\ JuliaR_Frac 1 (ex_JuliaR_succ 10 1) c0
         = Some (mkResult (Complex 1 0) (Complex 1 0) 0 0)
      /\ ~ (Z.of_nat 1 <= MaxIterations (JuliaR_FracData (ex_JuliaR_succ 10 1)) - 1)).
Proof.
  repeat split; try reflexivity. vm_compute. intros H. apply H. reflexivity.
Qed.

(* ================================================================== *)
(** ** The polynomiograph *)
(* ================================================================== *)

(** C6, as the code has it.  [MandelPG.Frac] starts from [z_0 = loc],
    [c_0 = F(loc)] and at step [n] computes [z_{n+1} = B(z_n) - c_n]; it
    stops when [|z_{n+1} - z_n| < eps] and otherwise advances
    [c_{n+1} = G(c_n)], takes [z_{n+1}], and only then compares the
    count with [MaxIterations - 1].  So the loop body runs at most
    [MaxIterations] times and up to [MaxIterations] steps are applied,
    not [MaxIterations - 1].  When the convergence test first holds at
    step [k <= MaxIterations - 1], the body has run [k + 1] times, [k]
    steps are applied and the call returns [Iterations = k]; when it
    holds at no step below [MaxIterations], the body has run
    [MaxIterations] times and the call returns [z_MaxIterations],
    [c_MaxIterations] and [Iterations = MaxIterations - 1]. *)
Theorem MandelPG_Frac_iterations (m : MandelPG) (loc : complex128) :
  let M := MaxIterations (Polynomiograph_FracData m) in
  1 <= M <= GoInt.max_int ->
  (forall k fuel,
      Z.of_nat k <= M - 1 ->
      (forall j, (j < k)%nat -> pg_converges_at m loc j = false) ->
      pg_converges_at m loc k = true ->
      (k < fuel)%nat ->
      pg_loop m fuel loc = Some (Datatypes.S k, pg_st m loc k)
      /\ exists r, MandelPG_Frac fuel m loc = Some r
                   /\ Iterations r = Z.of_nat k /\ NFactor r = 0%float)
  /\ ((forall j, (j < Z.to_nat M)%nat -> pg_converges_at m loc j = false) ->
      forall fuel, (Z.to_nat M <= fuel)%nat ->
      pg_loop m fuel loc
      = Some (Z.to_nat M,
              mk_pg_state (fst (pg_orbit m loc (Z.to_nat M)))
                          (snd (pg_orbit m loc (Z.to_nat M))) (M - 1))
      /\ MandelPG_Frac fuel m loc
         = Some (mkResult (fst (pg_orbit m loc (Z.to_nat M)))
                          (snd (pg_orbit m loc (Z.to_nat M))) (M - 1) 0))
  /\ (forall fuel n s,
      pg_loop m fuel loc = Some (n, s) ->
      (1 <= n)%nat /\ Z.of_nat n <= M /\ 0 <= pg_count s <= M - 1)
  /\ (exists res, MandelPG_Frac (Z.to_nat M) m loc = Some res).
Proof.
  intros M HM. split; [|split; [|split]].
  - intros k fuel Hk Hconv Hhit Hfuel.
    pose proof (pg_loop_converge m loc HM k fuel Hk Hconv Hhit Hfuel) as Hrun.
    split; [exact Hrun|]. unfold MandelPG_Frac. rewrite Hrun.
    eexists; split; [reflexivity|]. split; reflexivity.
  - intros Hconv fuel Hfuel.
    pose proof (pg_loop_exhaust m loc HM fuel Hconv Hfuel) as Hrun.
    split; [exact Hrun|]. unfold MandelPG_Frac. rewrite Hrun. reflexivity.
  - intros fuel n s Hrun.
    destruct (pg_loop_total m loc HM) as (n' & s' & Hrun' & Hn & Hcount & _).
    pose proof (for_loop_agree _ _ _ _ _ _ _ _ Hrun Hrun') as Heq.
    injection Heq as -> ->. fold M in Hn. lia.
  - destruct (pg_loop_total m loc HM) as (n' & s' & Hrun' & _).
    unfold MandelPG_Frac. fold M in Hrun'. rewrite Hrun'. eauto.
Qed.

Lemma MandelPG_Frac_iterations_witness :
  1 <= MaxIterations (Polynomiograph_FracData (ex_MandelPG 5)) <= GoInt.max_int
  /\ pg_converges_at (ex_MandelPG 5) (Complex 4 0) 0 = false
  /\ pg_converges_at (ex_MandelPG 5) (Complex 4 0) 1 = false
  /\ pg_converges_at (ex_MandelPG 5) (Complex 4 0) 2 = true
  /\ exists r, MandelPG_Frac 5 (ex_MandelPG 5) (Complex 4 0) = Some r
               /\ Iterations r = 2 /\ NFactor r = 0%float.
Proof.
  assert (HM : 1 <= MaxIterations (Polynomiograph_FracData (ex_MandelPG 5)) <= GoInt.max_int)
    by (vm_compute; split; discriminate).
  split; [exact HM|]. do 3 (split; [reflexivity|]).
  destruct (MandelPG_Frac_iterations (ex_MandelPG 5) (Complex 4 0) HM) as (Hconv & _).
  apply (Hconv 2%nat 5%nat).
  - simpl. lia.
  - intros j Hj. destruct j as [|[|j]]; [reflexivity|reflexivity|lia].
  - reflexivity.
  - lia.
Defined.

(** C6, as stated, fails on its bound of [MaxIterations - 1] steps: with
    [MaxIterations = 1] and a test that never holds ([eps = 0],
    [B(z) = z + 1], [c = 0]), the evaluation at 0 applies one step, not
    none: the body runs once and the call returns [z_1 = 1], not
    [z_0 = 0]. *)
Lemma MandelPG_Frac_applies_MaxIterations_steps :
  MaxIterations (Polynomiograph_FracData (ex_MandelPG_never 1)) = 1
  /\ pg_converges_at (ex_MandelPG_never 1) c0 0 = false
  /\ pg_loop (ex_MandelPG_never 1) 1 c0 = Some (1%nat, mk_pg_state (Complex 1 0) c0 0)
  /\ MandelPG_Frac 1 (ex_MandelPG_never 1) c0 = Some (mkResult (Complex 1 0) c0 0 0)
  /\ fst (pg_orbit (ex_MandelPG_never 1) c0 1) = Complex 1 0
  /\ ~ (Z.of_nat 1 <= MaxIterations (Polynomiograph_FracData (ex_MandelPG_never 1)) - 1).
Proof.
  repeat split; try reflexivity. vm_compute. intros H. apply H. reflexivity.
Qed.

(** C10. When the loop of [MandelPG.Frac] is left through the
    convergence test at step [k], the returned [Z] is the previous
    iterate [z_k] and the returned [C] is [c_k]: the assignments
    [c = G(c)] and [z = zNext] are skipped, so neither the value
    [z_{k+1} = B(z_k) - c_k] that passed the test nor [c_{k+1} = G(c_k)]
    is returned. *)
Theorem MandelPG_Frac_convergence_exit (m : MandelPG) (loc : complex128) (k fuel : nat) :
  1 <= MaxIterations (Polynomiograph_FracData m) <= GoInt.max_int ->
  Z.of_nat k <= MaxIterations (Polynomiograph_FracData m) - 1 ->
  (forall j, (j < k)%nat -> pg_converges_at m loc j = false) ->
  pg_converges_at m loc k = true ->
  (k < fuel)%nat ->
  exists r,
    MandelPG_Frac fuel m loc = Some r
    /\ Result_Z r = fst (pg_orbit m loc k)
    /\ Result_C r = snd (pg_orbit m loc k)
    /\ fst (pg_orbit m loc (Datatypes.S k)) = csub (B m (Result_Z r)) (Result_C r)
    /\ snd (pg_orbit m loc (Datatypes.S k)) = G m (Result_C r)
    /\ PrimFloat.ltb
         (cmplx_Abs (csub (fst (pg_orbit m loc (Datatypes.S k))) (Result_Z r)))
         (eps m) = true.
Proof.
  intros HM Hk Hconv Hhit Hfuel.
  pose proof (pg_loop_converge m loc HM k fuel Hk Hconv Hhit Hfuel) as Hrun.
  unfold MandelPG_Frac. rewrite Hrun.
  eexists; split; [reflexivity|]. simpl.
  repeat split. exact Hhit.
Qed.

Lemma MandelPG_Frac_convergence_exit_witness :
  1 <= MaxIterations (Polynomiograph_FracData (ex_MandelPG 5)) <= GoInt.max_int
  /\ pg_orbit (ex_MandelPG 5) (Complex 4 0) 2 = (c0, Complex 0.25 0)
  /\ pg_orbit (ex_MandelPG 5) (Complex 4 0) 3 = (Complex (-0.25) 0, Complex 0.125 0)
  /\ MandelPG_Frac 5 (ex_MandelPG 5) (Complex 4 0)
     = Some (mkResult c0 (Complex 0.25 0) 2 0)
  /\ exists r, MandelPG_Frac 5 (ex_MandelPG 5) (Complex 4 0) = Some r
               /\ Result_Z r = fst (pg_orbit (ex_MandelPG 5) (Complex 4 0) 2)
               /\ Result_C r = snd (pg_orbit (ex_MandelPG 5) (Complex 4 0) 2).
Proof.
  assert (HM : 1 <= MaxIterations (Polynomiograph_FracData (ex_MandelPG 5)) <= GoInt.max_int)
    by (vm_compute; split; discriminate).
  split; [exact HM|]. do 3 (split; [reflexivity|]).
  destruct (MandelPG_Frac_convergence_exit (ex_MandelPG 5) (Complex 4 0) 2 5 HM)
    as (r & Hr & Hz & Hc & _).
  - simpl. lia.
  - intros j Hj. destruct j as [|[|j]]; [reflexivity|reflexivity|lia].
  - reflexivity.
  - lia.
  - exists r. split; [exact Hr|]. split; [exact Hz|exact Hc].
Defined.

(* ================================================================== *)
(** ** Termination of the five evaluations *)
(* ================================================================== *)

(** C9, as the code has it.  With [1 <= MaxIterations], each
    evaluation returns for every input point, its loop body running at
    most [MaxIterations] times: the quadratic core, [Mandelbrot.Frac],
    [JuliaQ.Frac], [JuliaR.Frac] and [MandelPG.Frac] all return on
    [MaxIterations] units of fuel, and the loops report a number of body
    executions within that bound.  The precondition is what gives the
    bound, not what makes the loops end.  With [MaxIterations <= 0] and
    a convergence test that keeps failing, the polynomiograph has not
    returned after any number of body executions an [int] can count;
    but the count is an [int] and wraps around, so it does meet
    [MaxIterations - 1]: whatever [MaxIterations] is, the three loops
    end within [GoInt.budget MaxIterations] executions, which is
    [MaxIterations] when that is at least 1 and
    [MaxIterations + 2^64] otherwise, and on that exit the
    polynomiograph reports the count [MaxIterations - 1], wrapped. *)
Theorem evaluate_terminates :
  (forall (q : Quadratic) (z c : complex128),
      1 <= MaxIterations (Quadratic_FracData q) <= GoInt.max_int ->
      exists n s r,
        q_loop q c (Z.to_nat (MaxIterations (Quadratic_FracData q))) z = Some (n, s)
        /\ Z.of_nat n <= MaxIterations (Quadratic_FracData q)
        /\ Quadratic_q (Z.to_nat (MaxIterations (Quadratic_FracData q))) q z c = Some r)
  /\ (forall (m : Mandelbrot) (loc : complex128),
      1 <= MaxIterations (Data m) <= GoInt.max_int ->
      exists r, Mandelbrot_Frac (Z.to_nat (MaxIterations (Data m))) m loc = Some r)
  /\ (forall (j : JuliaQ) (loc : complex128),
      1 <= MaxIterations (Data j) <= GoInt.max_int ->
      exists r, JuliaQ_Frac (Z.to_nat (MaxIterations (Data j))) j loc = Some r)
  /\ (forall (r : JuliaR) (loc : complex128),
      1 <= MaxIterations (JuliaR_FracData r) <= GoInt.max_int ->
      exists n s res,
        r_loop r (Z.to_nat (MaxIterations (JuliaR_FracData r))) loc = Some (n, s)
        /\ Z.of_nat n <= MaxIterations (JuliaR_FracData r)
        /\ JuliaR_Frac (Z.to_nat (MaxIterations (JuliaR_FracData r))) r loc = Some res)
  /\ (forall (m : MandelPG) (loc : complex128),
      1 <= MaxIterations (Polynomiograph_FracData m) <= GoInt.max_int ->
      exists n s res,
        pg_loop m (Z.to_nat (MaxIterations (Polynomiograph_FracData m))) loc = Some (n, s)
        /\ Z.of_nat n <= MaxIterations (Polynomiograph_FracData m)
        /\ MandelPG_Frac (Z.to_nat (MaxIterations (Polynomiograph_FracData m))) m loc
           = Some res)
  /\ (forall (m : MandelPG) (loc : complex128) (fuel : nat),
      GoInt.min_int <= MaxIterations (Polynomiograph_FracData m) <= 0 ->
      Z.of_nat fuel <= GoInt.max_int ->
      (forall j, (j < fuel)%nat -> pg_converges_at m loc j = false) ->
      pg_loop m fuel loc = None)
  /\ (forall (q : Quadratic) (z c : complex128),
      exists n s r,
        q_loop q c (Z.to_nat (GoInt.budget (MaxIterations (Quadratic_FracData q)))) z
          = Some (n, s)
        /\ Z.of_nat n <= GoInt.budget (MaxIterations (Quadratic_FracData q))
        /\ Quadratic_q (Z.to_nat (GoInt.budget (MaxIterations (Quadratic_FracData q)))) q z c
           = Some r)
  /\ (forall (r : JuliaR) (loc : complex128),
      exists n s res,
        r_loop r (Z.to_nat (GoInt.budget (MaxIterations (JuliaR_FracData r)))) loc
          = Some (n, s)
        /\ Z.of_nat n <= GoInt.budget (MaxIterations (JuliaR_FracData r))
        /\ JuliaR_Frac (Z.to_nat (GoInt.budget (MaxIterations (JuliaR_FracData r)))) r loc
           = Some res)
  /\ (forall (m : MandelPG) (loc : complex128),
      exists n s res,
        pg_loop m (Z.to_nat (GoInt.budget (MaxIterations (Polynomiograph_FracData m)))) loc
          = Some (n, s)
        /\ Z.of_nat n <= GoInt.budget (MaxIterations (Polynomiograph_FracData m))
        /\ MandelPG_Frac
             (Z.to_nat (GoInt.budget (MaxIterations (Polynomiograph_FracData m)))) m loc
           = Some res
        /\ ((exists k, n = Datatypes.S k /\ pg_converges_at m loc k = true)
            \/ (Z.of_nat n = GoInt.budget (MaxIterations (Polynomiograph_FracData m))
                /\ Iterations res
                   = GoInt.sub (MaxIterations (Polynomiograph_FracData m)) 1)))
  /\ (forall M : Z,
      (1 <= M <= GoInt.max_int -> GoInt.budget M = M)
      /\ (GoInt.min_int <= M <= 0 -> GoInt.budget M = M + 2 ^ 64)).
Proof.
  split; [|split; [|split; [|split; [|split; [|split; [|split; [|split; [|split]]]]]]]].
  - intros q z c HM.
    destruct (q_loop_total q c z HM) as (n & s & Hrun & Hn & _).
    exists n, s, (mkResult (q_z s) c (q_count s) 0).
    unfold Quadratic_q. rewrite Hrun. repeat split. lia.
  - intros m loc HM. apply (Frac_returns m loc HM).
  - intros j loc HM. apply (Frac_returns j loc HM).
  - intros r loc HM.
    destruct (r_loop_total r loc HM) as (n & s & Hrun & Hn & _).
    exists n, s, (mkResult (r_z s) (JuliaR_C r) (r_count s) 0).
    unfold JuliaR_Frac. rewrite Hrun. repeat split. lia.
  - intros m loc HM.
    destruct (pg_loop_total m loc HM) as (n & s & Hrun & Hn & _).
    exists n, s, (mkResult (pg_z s) (pg_c s) (pg_count s) 0).
    unfold MandelPG_Frac. rewrite Hrun. repeat split. lia.
  - intros m loc fuel HM Hfuel Hconv. apply pg_loop_needs_MaxIterations; assumption.
  - intros q z c.
    destruct (q_loop_total_any q c z) as (n & s & Hrun & Hn).
    exists n, s, (mkResult (q_z s) c (q_count s) 0).
    unfold Quadratic_q. rewrite Hrun. split; [reflexivity|]. split; [exact Hn|reflexivity].
  - intros r loc.
    destruct (r_loop_total_any r loc) as (n & s & Hrun & Hn).
    exists n, s, (mkResult (r_z s) (JuliaR_C r) (r_count s) 0).
    unfold JuliaR_Frac. rewrite Hrun. split; [reflexivity|]. split; [exact Hn|reflexivity].
  - intros m loc.
    destruct (pg_loop_total_any m loc) as (n & s & Hrun & Hn & Hexit).
    exists n, s, (mkResult (pg_z s) (pg_c s) (pg_count s) 0).
    unfold MandelPG_Frac. rewrite Hrun.
    split; [reflexivity|]. split; [exact Hn|]. split; [reflexivity|exact Hexit].
  - intros M. split; [apply GoInt_budget_valid|apply GoInt_budget_invalid].
Qed.

Lemma evaluate_terminates_witness :
  (exists r, Quadratic_q 4 (ex_Quadratic 2 4) (Complex 1 1) c0 = Some r)
  /\ (exists r, Mandelbrot_Frac 4 (mkMandelbrot (ex_Quadratic 2 4)) (Complex 1 1) = Some r)
  /\ (exists r, JuliaQ_Frac 4 (mkJuliaQ (ex_Quadratic 2 4) c0) (Complex 1 1) = Some r)
  /\ (exists r, JuliaR_Frac 4 (ex_JuliaR_succ 10 4) (Complex 1 1) = Some r)
  /\ (exists r, MandelPG_Frac 4 (ex_MandelPG_never 4) (Complex 1 1) = Some r).
Proof.
  destruct evaluate_terminates as (Hq & Hm & Hj & Hr & Hpg & _).
  assert (H4 : 1 <= 4 <= GoInt.max_int) by (unfold GoInt.max_int; lia).
  split; [|split; [|split; [|split]]].
  - destruct (Hq (ex_Quadratic 2 4) (Complex 1 1) c0 H4) as (n & s & r & _ & _ & Hres).
    exists r. exact Hres.
  - apply (Hm (mkMandelbrot (ex_Quadratic 2 4)) (Complex 1 1) H4).
  - apply (Hj (mkJuliaQ (ex_Quadratic 2 4) c0) (Complex 1 1) H4).
  - destruct (Hr (ex_JuliaR_succ 10 4) (Complex 1 1) H4) as (n & s & r & _ & _ & Hres).
    exists r. exact Hres.
  - destruct (Hpg (ex_MandelPG_never 4) (Complex 1 1) H4) as (n & s & r & _ & _ & Hres).
    exists r. exact Hres.
Defined.

Lemma ex_MandelPG_never_converges (maxIt : Z) (loc : complex128) (j : nat) :
  pg_converges_at (ex_MandelPG_never maxIt) loc j = false.
Proof. unfold pg_converges_at. simpl eps. apply ltb_nonneg_zero, Hypot_nonneg. Qed.

(** C9, as stated, fails on its last part: [MaxIterations >= 1] is not
    needed for the polynomiograph to return.  With [MaxIterations = 0]
    and the test that never holds ([eps = 0]) the evaluation returns
    all the same, after [2^64] executions of its loop body, when the
    count has wrapped around to [-1], which is the count it reports. *)
Lemma MandelPG_Frac_returns_without_MaxIterations :
  MaxIterations (Polynomiograph_FracData (ex_MandelPG_never 0)) = 0
  /\ exists fuel res,
       Z.of_nat fuel = 2 ^ 64
       /\ MandelPG_Frac fuel (ex_MandelPG_never 0) c0 = Some res
       /\ Iterations res = -1.
Proof.
  split; [reflexivity|].
  destruct (pg_loop_total_any (ex_MandelPG_never 0) c0) as (n & s & Hrun & _ & Hexit).
  exists (Z.to_nat (GoInt.budget 0)), (mkResult (pg_z s) (pg_c s) (pg_count s) 0).
  split; [|split].
  - rewrite Z2Nat.id by (rewrite GoInt_budget_invalid; unfold GoInt.min_int; lia).
    rewrite GoInt_budget_invalid by (unfold GoInt.min_int; lia). reflexivity.
  - unfold MandelPG_Frac.
    change (MaxIterations (Polynomiograph_FracData (ex_MandelPG_never 0))) with 0 in Hrun.
    rewrite Hrun. reflexivity.
  - destruct Hexit as [(k & _ & Hhit)|[_ Hcount]].
    + rewrite ex_MandelPG_never_converges in Hhit. discriminate.
    + simpl. rewrite Hcount. reflexivity.
Qed.

(* ================================================================== *)
(** ** The dispatcher *)
(* ================================================================== *)

Lemma sum_list_with_insert {A} (g : A -> nat) (l : list A) (i : nat) (x y : A) :
  l !! i = Some x ->
  (sum_list_with g (<[i := y]> l) + g x = sum_list_with g l + g y)%nat.
Proof.
  revert i. induction l as [|a l IH]; intros [|i] Hi; simpl in *; try discriminate.
  - injection Hi as ->. lia.
  - specialize (IH i Hi). lia.
Qed.

Section PoolFacts.
Context {V : Type} `{Fraccer V}.
Variable d : DomainReader.
Variable f : V.
Variables rows cols : Z.
Hypothesis Hrows : 1 <= rows <= GoInt.max_int.
Hypothesis Hcols : 1 <= cols <= GoInt.max_int.

Local Abbreviation step := (pool_step d f rows cols).
Local Abbreviation inv := (pool_inv d f rows cols).

Lemma pool_inv_init iterations numWorkers :
  (1 <= numWorkers)%nat ->
  inv 0 (pool_init rows cols iterations numWorkers).
Proof.
  intros Hw. split; simpl; try done.
  - lia.
  - destruct numWorkers; [lia|done].
  - intros i row col Hi. apply lookup_replicate in Hi as [? _]. done.
  - intros i row col e Hi. apply lookup_replicate in Hi as [? _]. done.
  - intros i Hi. apply lookup_replicate in Hi as [? _]. done.
  - intros row col Hrow. lia.
Qed.

Lemma insert_neq_nil {A} (l : list A) (i : nat) (x : A) : l <> [] -> <[i := x]> l <> [].
Proof.
  intros Hne Hnil. apply (f_equal length) in Hnil. rewrite length_insert in Hnil.
  destruct l; [done|discriminate].
Qed.

Lemma lookup_insert_cases {A} (l : list A) (i j : nat) (x y : A) :
  <[i := x]> l !! j = Some y -> (j = i /\ y = x) \/ (j <> i /\ l !! j = Some y).
Proof.
  intros Hj. apply list_lookup_insert_Some in Hj as [(-> & -> & _)|[Hne Hj]]; auto.
Qed.

(** A worker whose [wg.Done()] has not run stands in the way of
    [MReturned]. *)
Lemma not_returned_if_busy lo p i w :
  inv lo p -> pool_workers p !! i = Some w -> ~ worker_finished w ->
  pool_main p <> MReturned.
Proof.
  intros Hinv Hw Hne Hr. destruct (inv_returned _ _ _ _ _ _ Hinv Hr) as [Hall _].
  apply Hne. exact (Forall_lookup_1 _ _ _ _ Hall Hw).
Qed.

Lemma pool_sent_le lo p : inv lo p -> lo <= rows.
Proof.
  intros Hinv. pose proof (inv_lo _ _ _ _ _ _ Hinv) as Hlo.
  pose proof (inv_main _ _ _ _ _ _ Hinv) as Hmain.
  unfold pool_sent in Hlo. destruct (pool_main p); lia.
Qed.

(** Every step keeps the invariant. *)
Lemma pool_inv_step lo p p' :
  inv lo p -> step p p' -> exists lo', inv lo' p'.
Proof.
  intros Hinv Hstep.
  assert (Hbusy : forall i w,
            pool_workers p !! i = Some w -> ~ worker_finished w ->
            pool_main p <> MReturned)
    by (intros i w; apply (not_returned_if_busy lo p i w Hinv)).
  pose proof (pool_sent_le lo p Hinv) as Hlo'.
  destruct Hinv as [Hpanic Hmain Hlo Hqueue Hne Hcol Hpk Hdone Hret Hcells Hcover].
  destruct Hstep as
    [p row Hp Hm Hlt Hcap | p row Hp Hm Hge | p Hp Hm Hall
    | p i row rest Hp Hw Hq | p i Hp Hw Hq Hcl
    | p i row col loc fuel r Hp Hw Hlt Hat Hfr | p i row col loc e Hp Hw Hlt Hat
    | p i row col e Hp Hw
    | p i row col Hp Hw Hge].
  - (* send *)
    rewrite Hm in Hmain. destruct Hmain as [Hrow Hclosed].
    unfold pool_sent in *. rewrite Hm in *.
    assert (Hadd : GoInt.add row 1 = row + 1)
      by (apply GoInt_add_1; unfold GoInt.max_int in *; lia).
    exists lo. split; simpl; unfold pool_sent; simpl; rewrite ?Hadd; auto; try lia.
    + split; [lia|exact Hclosed].
    + rewrite Hqueue.
      replace (row + 1 - lo) with ((row - lo) + 1) by lia.
      rewrite seqZ_app by lia. f_equal.
      rewrite seqZ_cons by lia. rewrite seqZ_nil by lia. f_equal. lia.
    + intros i Hi. destruct (Hdone i Hi) as [Hc _]. congruence.
    + intros Hfalse. discriminate.
  - (* close *)
    rewrite Hm in Hmain. destruct Hmain as [Hrow Hclosed].
    unfold pool_sent in *. rewrite Hm in *.
    assert (row = rows) as -> by lia.
    exists lo. split; simpl; unfold pool_sent; simpl; auto.
    + intros i Hi. destruct (Hdone i Hi) as [Hc _]. congruence.
    + intros Hfalse. discriminate.
  - (* return *)
    rewrite Hm in Hmain. unfold pool_sent in *. rewrite Hm in *.
    exists lo. split; simpl; unfold pool_sent; simpl; auto.
  - (* receive *)
    assert (Hpos : 0 < pool_sent rows p - lo).
    { destruct (Z.lt_ge_cases 0 (pool_sent rows p - lo)) as [|Hle]; [done|].
      rewrite seqZ_nil in Hqueue by lia. congruence. }
    rewrite seqZ_cons in Hqueue by lia. rewrite Hq in Hqueue.
    injection Hqueue as -> ->.
    exists (lo + 1). split; simpl; unfold pool_sent in *; simpl; auto.
    + intros e He. congruence.
    + destruct (pool_main p); lia.
    + f_equal; lia.
    + apply insert_neq_nil, Hne.
    + intros j row col Hj. apply lookup_insert_cases in Hj as [[-> Heq]|[_ Hj]].
      * injection Heq as -> ->. lia.
      * destruct (Hcol j row col Hj). lia.
    + intros j row col e Hj. apply lookup_insert_cases in Hj as [[-> Heq]|[_ Hj]]; [done|].
      destruct (Hpk j row col e Hj) as [[? ?] ?]. repeat split; auto; lia.
    + intros j Hj. apply lookup_insert_cases in Hj as [[-> Heq]|[_ Hj]]; [done|].
      destruct (Hdone j Hj) as [_ Hnil]. congruence.
    + intros Hr. destruct (Hbusy i WRecv Hw); [simpl; tauto|exact Hr].
    + intros row col Hrow Hc.
      destruct (decide (row = lo)) as [->|Hne'].
      * right. exists i, (WCol lo 0), 0. split; [|split; [left; reflexivity|lia]].
        apply list_lookup_insert_eq. by eapply lookup_lt_Some.
      * destruct (Hcover row col ltac:(lia) Hc) as [Hsome|(j & w & col' & Hj & Hat & Hle)];
          [left; exact Hsome|right].
        exists j, w, col'. split; [|split; [exact Hat|exact Hle]].
        rewrite list_lookup_insert_ne; [exact Hj|]. intros ->.
        rewrite Hw in Hj. injection Hj as <-. destruct Hat as [?|[? ?]]; discriminate.
  - (* exit *)
    exists lo. split; simpl; auto.
    + intros e He. congruence.
    + apply insert_neq_nil, Hne.
    + intros j row col Hj. apply lookup_insert_cases in Hj as [[-> Heq]|[_ Hj]]; [done|].
      exact (Hcol j row col Hj).
    + intros j row col e Hj. apply lookup_insert_cases in Hj as [[-> Heq]|[_ Hj]]; [done|].
      exact (Hpk j row col e Hj).
    + intros Hr. destruct (Hbusy i WRecv Hw); [simpl; tauto|exact Hr].
    + intros row col Hrow Hc.
      destruct (Hcover row col Hrow Hc) as [Hsome|(j & w & col' & Hj & Hat & Hle)];
        [left; exact Hsome|right].
      exists j, w, col'. split; [|split; [exact Hat|exact Hle]].
      rewrite list_lookup_insert_ne; [exact Hj|]. intros ->.
      rewrite Hw in Hj. injection Hj as <-. destruct Hat as [?|[? ?]]; discriminate.
  - (* cell *)
    destruct (Hcol i row col Hw) as [Hrow Hc].
    assert (Hadd : GoInt.add col 1 = col + 1)
      by (apply GoInt_add_1; unfold GoInt.max_int in *; lia).
    exists lo. split; simpl; auto.
    + intros e He. congruence.
    + apply insert_neq_nil, Hne.
    + intros j row' col' Hj. apply lookup_insert_cases in Hj as [[-> Heq]|[_ Hj]].
      * injection Heq as -> ->. lia.
      * exact (Hcol j row' col' Hj).
    + intros j row' col' e Hj. apply lookup_insert_cases in Hj as [[-> Heq]|[_ Hj]]; [done|].
      exact (Hpk j row' col' e Hj).
    + intros j Hj. apply lookup_insert_cases in Hj as [[-> Heq]|[_ Hj]]; [done|].
      exact (Hdone j Hj).
    + intros Hr. destruct (Hbusy i (WCol row col) Hw); [simpl; tauto|exact Hr].
    + intros row' col' r' Hlook.
      destruct (decide ((row, col) = (row', col'))) as [Heq|Hne'].
      * injection Heq as <- <-. rewrite lookup_insert_eq in Hlook.
        injection Hlook as <-. split; [lia|]. exists loc, fuel, r. done.
      * rewrite lookup_insert_ne in Hlook by done. exact (Hcells row' col' r' Hlook).
    + intros row' col' Hrow' Hc'.
      destruct (decide ((row, col) = (row', col'))) as [Heq|Hne'].
      * injection Heq as <- <-. left. rewrite lookup_insert_eq. by eexists.
      * destruct (Hcover row' col' Hrow' Hc') as [Hsome|(j & w & c'' & Hj & Hat' & Hle)].
        -- left. rewrite lookup_insert_ne by done. exact Hsome.
        -- right. destruct (decide (j = i)) as [->|Hji].
           ++ rewrite Hw in Hj. injection Hj as <-.
              destruct Hat' as [Heq|[e Heq]]; [|discriminate]. injection Heq as <- <-.
              exists i, (WCol row (GoInt.add col 1)), (GoInt.add col 1).
              split; [|split; [left; reflexivity|]].
              ** apply list_lookup_insert_eq. by eapply lookup_lt_Some.
              ** rewrite Hadd. destruct (decide (col = col')) as [->|]; [done|lia].
           ++ exists j, w, c''. split; [|split; [exact Hat'|exact Hle]].
              rewrite list_lookup_insert_ne by done. exact Hj.
  - (* panic *)
    destruct (Hcol i row col Hw) as [Hrow Hc].
    exists lo. split; simpl; auto.
    + intros e' He. congruence.
    + apply insert_neq_nil, Hne.
    + intros j row' col' Hj. apply lookup_insert_cases in Hj as [[-> Heq]|[_ Hj]]; [done|].
      exact (Hcol j row' col' Hj).
    + intros j row' col' e' Hj. apply lookup_insert_cases in Hj as [[-> Heq]|[_ Hj]].
      * injection Heq as -> -> ->. rewrite Hat. repeat split; auto; lia.
      * exact (Hpk j row' col' e' Hj).
    + intros j Hj. apply lookup_insert_cases in Hj as [[-> Heq]|[_ Hj]]; [done|].
      exact (Hdone j Hj).
    + intros Hr. destruct (Hbusy i (WCol row col) Hw); [simpl; tauto|exact Hr].
    + intros row' col' Hrow' Hc'.
      destruct (Hcover row' col' Hrow' Hc') as [Hsome|(j & w & c'' & Hj & Hat' & Hle)];
        [left; exact Hsome|right].
      destruct (decide (j = i)) as [->|Hji].
      * rewrite Hw in Hj. injection Hj as <-.
        destruct Hat' as [Heq|[e' Heq]]; [|discriminate]. injection Heq as <- <-.
        exists i, (WPanicked row col e), col.
        split; [|split; [right; eexists; reflexivity|exact Hle]].
        apply list_lookup_insert_eq. by eapply lookup_lt_Some.
      * exists j, w, c''. split; [|split; [exact Hat'|exact Hle]].
        rewrite list_lookup_insert_ne by done. exact Hj.
  - (* the process ends *)
    exists lo. split; simpl; auto.
    intros e' [= <-]. eauto.
  - (* the row is done *)
    destruct (Hcol i row col Hw) as [Hrow Hc].
    exists lo. split; simpl; auto.
    + intros e He. congruence.
    + apply insert_neq_nil, Hne.
    + intros j row' col' Hj. apply lookup_insert_cases in Hj as [[-> Heq]|[_ Hj]]; [done|].
      exact (Hcol j row' col' Hj).
    + intros j row' col' e Hj. apply lookup_insert_cases in Hj as [[-> Heq]|[_ Hj]]; [done|].
      exact (Hpk j row' col' e Hj).
    + intros j Hj. apply lookup_insert_cases in Hj as [[-> Heq]|[_ Hj]]; [done|].
      exact (Hdone j Hj).
    + intros Hr. destruct (Hbusy i (WCol row col) Hw); [simpl; tauto|exact Hr].
    + intros row' col' Hrow' Hc'.
      destruct (Hcover row' col' Hrow' Hc') as [Hsome|(j & w & c'' & Hj & Hat' & Hle)];
        [left; exact Hsome|right].
      exists j, w, c''. split; [|split; [exact Hat'|exact Hle]].
      rewrite list_lookup_insert_ne; [exact Hj|].
      intros ->. rewrite Hw in Hj. injection Hj as <-.
      destruct Hat' as [Heq|[e Heq]]; [|discriminate]. injection Heq as <- <-. lia.
Qed.

Lemma pool_inv_rtc lo p p' :
  inv lo p -> rtc step p p' -> exists lo', inv lo' p'.
Proof.
  intros Hinv Hrun. revert lo Hinv.
  induction Hrun as [p|p q p' Hstep _ IH]; intros lo Hinv; [eauto|].
  destruct (pool_inv_step lo p q Hinv Hstep) as [lo' Hinv']. eauto.
Qed.

(** Only a live process takes steps. *)
Lemma pool_step_alive p p' : step p p' -> pool_panic p = None.
Proof. intros Hstep. destruct Hstep; assumption. Qed.

(** Every step uses up some of the measure. *)
Lemma pool_measure_step lo p p' :
  inv lo p -> step p p' -> (pool_measure rows cols p' < pool_measure rows cols p)%nat.
Proof.
  intros Hinv Hstep.
  destruct Hinv as [Hpanic Hmain Hlo Hqueue Hne Hcol Hpk Hdone Hret Hcells Hcover].
  destruct Hstep as
    [p row Hp Hm Hlt Hcap | p row Hp Hm Hge | p Hp Hm Hall
    | p i row rest Hp Hw Hq | p i Hp Hw Hq Hcl
    | p i row col loc fuel r Hp Hw Hlt Hat Hfr | p i row col loc e Hp Hw Hlt Hat
    | p i row col e Hp Hw
    | p i row col Hp Hw Hge];
    unfold pool_measure; simpl; rewrite ?Hp.
  - rewrite Hm in *. destruct Hmain as [Hrow _].
    rewrite GoInt_add_1 by (unfold GoInt.max_int in *; lia).
    rewrite length_app. simpl.
    replace (Z.to_nat (rows - row)) with (Datatypes.S (Z.to_nat (rows - (row + 1)))) by lia.
    lia.
  - rewrite Hm. replace (Z.to_nat (rows - row)) with O by lia. lia.
  - rewrite Hm. lia.
  - rewrite Hq. simpl.
    pose proof (sum_list_with_insert (worker_measure cols) _ i _ (WCol row 0) Hw) as Hsum.
    simpl in Hsum. replace (Z.to_nat (cols - 0)) with (Z.to_nat cols) in Hsum by lia. lia.
  - pose proof (sum_list_with_insert (worker_measure cols) _ i _ WDone Hw) as Hsum.
    simpl in Hsum. lia.
  - destruct (Hcol i row col Hw) as [_ Hc].
    rewrite GoInt_add_1 by (unfold GoInt.max_int in *; lia).
    pose proof (sum_list_with_insert (worker_measure cols) _ i _ (WCol row (col + 1)) Hw)
      as Hsum.
    simpl in Hsum. lia.
  - pose proof (sum_list_with_insert (worker_measure cols) _ i _ (WPanicked row col e) Hw)
      as Hsum.
    simpl in Hsum. lia.
  - lia.
  - pose proof (sum_list_with_insert (worker_measure cols) _ i _ WRecv Hw) as Hsum.
    simpl in Hsum. lia.
Qed.

(** So the pool cannot run for ever. *)
Lemma pool_sn lo p : inv lo p -> sn step p.
Proof.
  remember (pool_measure rows cols p) as n eqn:Hn.
  revert lo p Hn. induction n as [n IH] using lt_wf_ind. intros lo p -> Hinv.
  constructor. intros p' Hstep. unfold flip in Hstep.
  destruct (pool_inv_step lo p p' Hinv Hstep) as [lo' Hinv'].
  apply (IH (pool_measure rows cols p')) with (lo := lo'); auto.
  eapply pool_measure_step; eauto.
Qed.

(** The number of steps of a run is bounded by the measure of its start. *)
Lemma pool_nsteps_bound lo p0 p n :
  inv lo p0 -> nsteps step n p0 p ->
  (n + pool_measure rows cols p <= pool_measure rows cols p0)%nat.
Proof.
  intros Hinv Hrun. revert lo Hinv.
  induction Hrun as [p|n p0 q p Hstep Hrun IH]; intros lo Hinv; [lia|].
  pose proof (pool_measure_step lo p0 q Hinv Hstep) as Hlt.
  destruct (pool_inv_step lo p0 q Hinv Hstep) as [lo' Hinv'].
  specialize (IH lo' Hinv'). lia.
Qed.

(** While the process is alive and the caller has not returned, some
    goroutine can take a step. *)
Lemma pool_progress lo p :
  (forall loc, exists fuel r, Frac fuel f loc = Some r) ->
  inv lo p -> pool_panic p = None -> pool_main p <> MReturned ->
  exists p', step p p'.
Proof.
  intros HFrac Hinv Hp Hnot.
  destruct Hinv as [Hpanic Hmain Hlo Hqueue Hne Hcol Hpk Hdone Hret Hcells Hcover].
  destruct (pool_main p) as [row| |] eqn:Hm; [| |done].
  - (* sending, or about to close *)
    destruct Hmain as [Hrow Hclosed]. unfold pool_sent in *. rewrite Hm in *.
    destruct (decide (row < rows)) as [Hlt|Hge].
    + eexists. eapply step_send; eauto.
      rewrite Hqueue, length_seqZ. lia.
    + eexists. eapply step_close; eauto.
  - (* waiting for the workers *)
    destruct (decide (Forall worker_finished (pool_workers p))) as [Hall|Hbusy].
    + eexists. eapply step_return; eauto.
    + apply not_Forall_Exists in Hbusy; [|intros w; apply _].
      apply Exists_exists in Hbusy as (w & Hin & Hw).
      apply list_elem_of_lookup in Hin as [i Hi].
      destruct w as [|row col| |row col e]; simpl in Hw; try tauto.
      * destruct (pool_queue p) as [|row rest] eqn:Hq.
        -- eexists. eapply step_exit; eauto.
        -- eexists. eapply step_recv; eauto.
      * destruct (decide (col < cols)) as [Hlt|Hge].
        -- destruct (At d col row) as [loc [e|]] eqn:Hat.
           ++ eexists. eapply step_panic; eauto.
           ++ destruct (HFrac loc) as (fuel & r & Hfr).
              eexists. eapply step_cell; eauto.
        -- eexists. eapply step_rowdone; eauto.
Qed.

(** Where no lookup fails on the grid, no worker panics. *)
Lemma pool_calm_step lo p p' :
  (forall row col, 0 <= row < rows -> 0 <= col < cols -> snd (At d col row) = None) ->
  inv lo p -> pool_calm p -> step p p' -> pool_calm p'.
Proof.
  intros HAt Hinv [Hp Hnone] Hstep.
  pose proof (pool_sent_le lo p Hinv) as Hlo'.
  pose proof (inv_col _ _ _ _ _ _ Hinv) as Hcol.
  destruct Hstep as
    [p row _ Hm Hlt Hcap | p row _ Hm Hge | p _ Hm Hall
    | p i row rest _ Hw Hq | p i _ Hw Hq Hcl
    | p i row col loc fuel r _ Hw Hlt Hat Hfr | p i row col loc e _ Hw Hlt Hat
    | p i row col e _ Hw
    | p i row col _ Hw Hge]; split; simpl; try assumption;
    try (intros j row' col' e' Hj;
         apply lookup_insert_cases in Hj as [[-> Heq]|[_ Hj]];
         [discriminate|exact (Hnone j row' col' e' Hj)]).
  - destruct (Hcol i row col Hw) as [Hrow Hc].
    pose proof (HAt row col ltac:(lia) ltac:(lia)) as Hok.
    rewrite Hat in Hok. discriminate.
  - destruct (Hnone i row col e Hw).
Qed.

Lemma pool_calm_init iterations numWorkers :
  pool_calm (pool_init rows cols iterations numWorkers).
Proof.
  split; [reflexivity|]. simpl. intros i row col e Hi.
  apply lookup_replicate in Hi as [? _]. done.
Qed.

Lemma pool_calm_rtc lo p p' :
  (forall row col, 0 <= row < rows -> 0 <= col < cols -> snd (At d col row) = None) ->
  inv lo p -> pool_calm p -> rtc step p p' -> pool_calm p'.
Proof.
  intros HAt Hinv Hcalm Hrun. revert lo Hinv Hcalm.
  induction Hrun as [p|p q p' Hstep _ IH]; intros lo Hinv Hcalm; [exact Hcalm|].
  destruct (pool_inv_step lo p q Hinv Hstep) as [lo' Hinv'].
  apply (IH lo' Hinv'). exact (pool_calm_step lo p q HAt Hinv Hcalm Hstep).
Qed.

(** When the caller has returned and no worker has panicked, every cell
    of the grid holds the record of its sample point, and nothing else
    is stored. *)
Lemma pool_returned_cells lo p :
  inv lo p -> pool_calm p -> pool_main p = MReturned ->
  Results_done (pool_results p) = true
  /\ (forall row col, 0 <= row < rows -> 0 <= col < cols ->
        is_Some (Results_cells (pool_results p) !! (row, col)))
  /\ (forall row col r,
        Results_cells (pool_results p) !! (row, col) = Some r ->
        (0 <= row < rows /\ 0 <= col < cols)
        /\ exists loc fuel r0,
             At d col row = (loc, None)
             /\ Frac fuel f loc = Some r0
             /\ r = mkResult (Result_Z r0) (Result_C r0) (Iterations r0) 0).
Proof.
  intros Hinv [_ Hnone] Hm.
  destruct Hinv as [Hpanic Hmain Hlo Hqueue Hne Hcol Hpk Hdone Hret Hcells Hcover].
  destruct (Hret Hm) as [Hall Hsealed].
  split; [exact Hsealed|]. split; [|exact Hcells].
  destruct (pool_workers p) as [|w ws] eqn:Hws; [done|].
  assert (Hw : w = WDone).
  { pose proof (Forall_lookup_1 _ _ O w Hall eq_refl) as Hfin.
    destruct w as [| | |row col e]; simpl in Hfin; try tauto.
    destruct (Hnone O row col e eq_refl). }
  subst w.
  destruct (Hdone O) as [_ Hnil]; [reflexivity|].
  unfold pool_sent in *. rewrite Hm in *.
  assert (Hlo' : lo = rows).
  { apply (f_equal length) in Hqueue. rewrite Hnil, length_seqZ in Hqueue.
    simpl in Hqueue. lia. }
  subst lo.
  intros row col Hrow Hc.
  destruct (Hcover row col Hrow Hc) as [Hsome|(j & w & col' & Hj & Hat & _)]; [exact Hsome|].
  pose proof (Forall_lookup_1 _ _ _ _ Hall Hj) as Hfin.
  destruct Hat as [->|[e ->]]; [destruct Hfin|].
  destruct (Hnone j row col' e Hj).
Qed.

End PoolFacts.

(** The grid has [rows * cols] coordinates, each once. *)
Lemma elem_of_grid rows cols row col :
  (row, col) ∈ grid rows cols <-> 0 <= row < rows /\ 0 <= col < cols.
Proof.
  unfold grid. rewrite list_elem_of_bind. split.
  - intros (r & Hin & Hr). apply list_elem_of_fmap in Hin as (c & Heq & Hc).
    injection Heq as -> ->. apply elem_of_seqZ in Hr, Hc. lia.
  - intros [Hrow Hc]. exists row. split.
    + apply list_elem_of_fmap. exists col. split; [done|]. apply elem_of_seqZ. lia.
    + apply elem_of_seqZ. lia.
Qed.

Lemma NoDup_grid rows cols : NoDup (grid rows cols).
Proof.
  unfold grid. apply NoDup_bind.
  - intros r1 r2 rc _ _ H1 H2.
    apply list_elem_of_fmap in H1 as (c1 & -> & _).
    apply list_elem_of_fmap in H2 as (c2 & Heq & _). congruence.
  - intros r _. apply NoDup_fmap_2; [|apply NoDup_seqZ].
    intros c1 c2 Heq. congruence.
  - apply NoDup_seqZ.
Qed.

Lemma length_grid rows cols :
  0 <= rows -> 0 <= cols -> length (grid rows cols) = Z.to_nat (rows * cols).
Proof.
  intros Hrows Hcols. unfold grid.
  assert (Hgen : forall l : list Z,
    length (l ≫= (fun r => (fun c => (r, c)) <$> seqZ 0 cols))
    = (length l * Z.to_nat cols)%nat).
  { induction l as [|r l IH]; [reflexivity|].
    rewrite bind_cons, length_app, IH, length_fmap, length_seqZ. simpl. lia. }
  rewrite Hgen, length_seqZ. lia.
Qed.

(** A terminating system that can always step until it is final
    reaches a final state. *)
Lemma sn_reaches_final {A} (R : relation A) (final : A -> Prop) (x : A) :
  sn R x ->
  (forall y, rtc R x y -> final y \/ exists z, R y z) ->
  exists y, rtc R x y /\ final y.
Proof.
  intros Hsn. induction Hsn as [x _ IH]. intros Hprog.
  destruct (Hprog x (rtc_refl R x)) as [Hfin|[z Hz]].
  - exists x. split; [apply rtc_refl|exact Hfin].
  - destruct (IH z Hz) as (y & Hrun & Hfin).
    + intros y Hy. apply Hprog. eapply rtc_l; eauto.
    + exists y. split; [eapply rtc_l; eauto|exact Hfin].
Qed.

Lemma size_cells_grid (cells : gmap (Z * Z) Result) (rows cols : Z) :
  0 <= rows -> 0 <= cols ->
  (forall row col, is_Some (cells !! (row, col)) <-> 0 <= row < rows /\ 0 <= col < cols) ->
  size cells = Z.to_nat (rows * cols).
Proof.
  intros Hrows Hcols Hdom.
  rewrite <- (length_grid rows cols Hrows Hcols), <- size_dom.
  rewrite <- (size_list_to_set (C := gset (Z * Z)) (grid rows cols) (NoDup_grid rows cols)).
  f_equal. apply set_eq. intros [row col].
  rewrite elem_of_dom, elem_of_list_to_set, elem_of_grid. apply Hdom.
Qed.

Lemma FracIt_start_valid {V : Type} `{FraccerLaws V}
    (d : DomainReader) (f : V) (iterations : Z) (numWorkers : nat) :
  1 <= iterations ->
  1 <= (Dimensions d).1 ->
  1 <= (Dimensions d).2 ->
  FracIt_start d f iterations numWorkers =
    (fst (SetMaxIterations f iterations),
     inr (pool_init (Dimensions d).1 (Dimensions d).2 iterations numWorkers)).
Proof.
  intros Hit Hrows Hcols. unfold FracIt_start.
  destruct (SetMaxIterations_valid f iterations Hit) as [Herr _].
  destruct (SetMaxIterations f iterations) as [f' err]. simpl in *. subst err.
  destruct (Dimensions d) as [rows cols]. simpl in *.
  destruct (Z.ltb_spec cols 1); [lia|]. destruct (Z.ltb_spec rows 1); [lia|].
  reflexivity.
Qed.

(** C3, as the code has it.  On a domain with at least one row and one
    column whose points can all be fetched, with a row count that
    [make(chan int, rows)] accepts, with [iterations >= 1] and at least
    one worker, [FracIt] passes validation and starts the pool; the pool
    cannot run for ever, never panics, and can always take a step until
    the caller has returned, so the call does return.  Whatever the
    interleaving of the goroutines, the result collection it returns is
    sealed and holds exactly [rows * cols] records, one for each
    coordinate of the grid: the record of (row, col) is what [Frac]
    returns on the point of (col, row), and its iteration count lies in
    [0, iterations - 1]. *)
Theorem FracIt_fills_the_grid {V : Type} `{FraccerLaws V}
    (d : DomainReader) (f : V) (iterations : Z) (numWorkers : nat) :
  let rows := (Dimensions d).1 in
  let cols := (Dimensions d).2 in
  1 <= rows <= GoInt.max_int ->
  1 <= cols <= GoInt.max_int ->
  GoRuntime.makechan_fits rows = true ->
  1 <= iterations <= GoInt.max_int ->
  (1 <= numWorkers)%nat ->
  (forall row col, 0 <= row < rows -> 0 <= col < cols -> snd (At d col row) = None) ->
  exists f' p0,
    FracIt_start d f iterations numWorkers = (f', inr p0)
    /\ MaxIterations (Data f') = iterations
    /\ sn (pool_step d f' rows cols) p0
    /\ (forall p,
          rtc (pool_step d f' rows cols) p0 p ->
          pool_panic p = None
          /\ (pool_main p = MReturned \/ exists p', pool_step d f' rows cols p p'))
    /\ (exists results, FracIt d f iterations numWorkers f' (Returns (Some results) None))
    /\ (forall f'' o,
          FracIt d f iterations numWorkers f'' o ->
          f'' = f'
          /\ exists results,
               o = Returns (Some results) None
               /\ Results_done results = true
               /\ size (Results_cells results) = Z.to_nat (rows * cols)
               /\ (forall row col r,
                     Results_cells results !! (row, col) = Some r ->
                     0 <= row < rows /\ 0 <= col < cols)
               /\ (forall row col,
                     0 <= row < rows -> 0 <= col < cols ->
                     exists r loc fuel r0,
                       Results_cells results !! (row, col) = Some r
                       /\ At d col row = (loc, None)
                       /\ Frac fuel f' loc = Some r0
                       /\ r = mkResult (Result_Z r0) (Result_C r0) (Iterations r0) 0
                       /\ 0 <= Iterations r <= iterations - 1)).
Proof.
  intros rows cols Hrows Hcols Hfits Hit Hw HAt.
  pose proof (FracIt_start_valid d f iterations numWorkers
                ltac:(lia) ltac:(fold rows; lia) ltac:(fold cols; lia)) as Hstart.
  fold rows cols in Hstart.
  destruct (SetMaxIterations_valid f iterations ltac:(lia)) as [_ HM].
  set (f' := fst (SetMaxIterations f iterations)) in *.
  set (p0 := pool_init rows cols iterations numWorkers) in *.
  assert (HMr : 1 <= MaxIterations (Data f') <= GoInt.max_int) by (rewrite HM; exact Hit).
  assert (HFrac : forall loc, exists fuel r, Frac fuel f' loc = Some r).
  { intros loc. destruct (Frac_returns f' loc HMr) as [r Hr]. eauto. }
  assert (Hinv0 : pool_inv d f' rows cols 0 p0) by (apply pool_inv_init; assumption).
  assert (Hreach : forall p, rtc (pool_step d f' rows cols) p0 p ->
                             (exists lo, pool_inv d f' rows cols lo p) /\ pool_calm p).
  { intros p Hrun. split; [eapply pool_inv_rtc; eauto|].
    eapply pool_calm_rtc;
      [exact Hrows|exact Hcols|exact HAt|exact Hinv0|apply pool_calm_init|exact Hrun]. }
  assert (Hsafe : forall p,
            rtc (pool_step d f' rows cols) p0 p ->
            pool_panic p = None
            /\ (pool_main p = MReturned \/ exists p', pool_step d f' rows cols p p')).
  { intros p Hrun. destruct (Hreach p Hrun) as [[lo Hinv] [Hp Hnone]].
    split; [exact Hp|].
    destruct (decide (pool_main p = MReturned)) as [Hm|Hm]; [left; exact Hm|right].
    eapply pool_progress; eauto. }
  assert (Hsn : sn (pool_step d f' rows cols) p0) by (eapply pool_sn; eauto).
  exists f', p0. split; [exact Hstart|]. split; [exact HM|]. split; [exact Hsn|].
  split; [exact Hsafe|]. split.
  - destruct (sn_reaches_final _ (fun p => pool_main p = MReturned) p0 Hsn) as (p & Hrun & Hm).
    + intros p Hrun. apply (Hsafe p Hrun).
    + exists (pool_results p). eapply FracIt_results; eauto.
  - intros f'' o Hcall.
    destruct Hcall as [f'' e Hst | f'' q0 Hst Hno | f'' q0 p Hst _ Hrun Hm
                      | f'' q0 p e Hst _ Hrun Hp];
      rewrite Hstart in Hst; try discriminate; injection Hst as <- <-.
    + fold rows in Hno. congruence.
    + split; [reflexivity|].
      destruct (Hreach p Hrun) as [[lo Hinv] Hcalm].
      destruct (pool_returned_cells d f' rows cols Hrows Hcols lo p Hinv Hcalm Hm)
        as (Hdone & Hfull & Hcells).
      exists (pool_results p). split; [reflexivity|]. split; [exact Hdone|].
      split; [|split].
      * apply size_cells_grid; [lia|lia|]. intros row col. split.
        -- intros [r Hr]. apply (Hcells row col r Hr).
        -- intros [Hrow Hc]. apply Hfull; assumption.
      * intros row col r Hr. apply (Hcells row col r Hr).
      * intros row col Hrow Hc.
        destruct (Hfull row col Hrow Hc) as [r Hr].
        destruct (Hcells row col r Hr) as (_ & loc & fuel & r0 & Hat & Hfr & ->).
        exists (mkResult (Result_Z r0) (Result_C r0) (Iterations r0) 0), loc, fuel, r0.
        repeat split; auto; simpl;
          pose proof (Frac_bounded f' loc fuel r0 HMr Hfr); lia.
    + destruct (Hsafe p Hrun) as [Hnone _]. congruence.
Qed.

Lemma ex_Domain_At_ok rows cols row col :
  0 <= row < rows -> 0 <= col < cols -> snd (At (ex_Domain rows cols) col row) = None.
Proof.
  intros Hrow Hcol. simpl.
  destruct (Z.leb_spec 0 col); [|lia]. destruct (Z.ltb_spec col cols); [|lia].
  destruct (Z.leb_spec 0 row); [|lia]. destruct (Z.ltb_spec row rows); [|lia].
  reflexivity.
Qed.

Lemma FracIt_fills_the_grid_witness :
  (1 <= (Dimensions (ex_Domain 2 3)).1 <= GoInt.max_int
   /\ 1 <= (Dimensions (ex_Domain 2 3)).2 <= GoInt.max_int
   /\ GoRuntime.makechan_fits (Dimensions (ex_Domain 2 3)).1 = true
   /\ 1 <= 5 <= GoInt.max_int
   /\ (1 <= 2)%nat)
  /\ exists f' results,
       FracIt (ex_Domain 2 3) (NewMandelbrot 2) 5 2 f' (Returns (Some results) None)
       /\ size (Results_cells results) = 6%nat
       /\ exists r, Results_cells results !! (1, 2) = Some r /\ 0 <= Iterations r <= 4.
Proof.
  assert (Hrows : 1 <= (Dimensions (ex_Domain 2 3)).1 <= GoInt.max_int)
    by (vm_compute; split; discriminate).
  assert (Hcols : 1 <= (Dimensions (ex_Domain 2 3)).2 <= GoInt.max_int)
    by (vm_compute; split; discriminate).
  assert (Hfits : GoRuntime.makechan_fits (Dimensions (ex_Domain 2 3)).1 = true)
    by reflexivity.
  assert (Hit : 1 <= 5 <= GoInt.max_int) by (vm_compute; split; discriminate).
  assert (Hw : (1 <= 2)%nat) by lia.
  split; [split; [exact Hrows|split; [exact Hcols|split; [exact Hfits|split;
          [exact Hit|exact Hw]]]]|].
  destruct (FracIt_fills_the_grid (ex_Domain 2 3) (NewMandelbrot 2) 5 2
              Hrows Hcols Hfits Hit Hw (ex_Domain_At_ok 2 3))
    as (f' & p0 & _ & _ & _ & _ & [results Hcall] & Hall).
  destruct (Hall f' _ Hcall) as (_ & results' & Heq & _ & Hsize & _ & Hcell).
  injection Heq as <-.
  exists f', results. split; [exact Hcall|]. split; [exact Hsize|].
  destruct (Hcell 1 2) as (r & _ & _ & _ & Hr & _ & _ & _ & Hbound).
  - simpl. lia.
  - simpl. lia.
  - exists r. split; [exact Hr|exact Hbound].
Defined.

(** C3, as stated, fails: a domain of at least one row and one column
    is not enough.  On a domain of 1 row by 2 columns whose second
    column cannot be fetched, with [iterations = 5] and one worker, one
    run of the call returns, with a nil error, a collection that holds
    1 record where the grid has 2; another run ends the process with
    the panic of the worker.  And on a domain of [2^46] rows the call
    passes validation and panics in [make(chan int, rows)]. *)
Lemma FracIt_grid_needs_more_than_its_shape :
  (1 <= (Dimensions (ex_Domain_short 1 1)).1
   /\ 1 <= (Dimensions (ex_Domain_short 1 1)).2
   /\ (Dimensions (ex_Domain_short 1 1)).1 * (Dimensions (ex_Domain_short 1 1)).2 = 2)
  /\ (exists f' results,
        FracIt (ex_Domain_short 1 1) (NewMandelbrot 2) 5 1 f' (Returns (Some results) None)
        /\ size (Results_cells results) = 1%nat
        /\ Results_cells results !! (0, 1) = None)
  /\ (exists f',
        FracIt (ex_Domain_short 1 1) (NewMandelbrot 2) 5 1 f'
               (Panics "gofrac: out of range"%string))
  /\ (exists f',
        FracIt (ex_Domain (2 ^ 46) 1) (NewMandelbrot 2) 5 1 f'
               (Panics GoRuntime.ErrMakechan)).
Proof.
  set (f' := fst (SetMaxIterations (NewMandelbrot 2) 5)).
  set (d := ex_Domain_short 1 1).
  set (loc := fst (At d 0 0)).
  assert (HM : 1 <= MaxIterations (Data f') <= GoInt.max_int)
    by (vm_compute; split; discriminate).
  destruct (Frac_returns f' loc HM) as [r Hr].
  assert (Hstart : FracIt_start d (NewMandelbrot 2) 5 1 = (f', inr (pool_init 1 2 5 1)))
    by reflexivity.
  set (res1 := Results_SetResult (NewResults 1 2 5) 0 0
                 (Result_Z r) (Result_C r) (Iterations r)).
  set (e := "gofrac: out of range"%string).
  set (p3 := mkPool (MSend 1) [] false [WCol 0 1] res1 None).
  set (p4 := mkPool (MSend 1) [] false [WPanicked 0 1 e] res1 None).
  assert (Hrun4 : rtc (pool_step d f' 1 2) (pool_init 1 2 5 1) p4).
  { eapply rtc_l.
    { apply (step_send _ _ 1 2 (pool_init 1 2 5 1) 0); [reflexivity|reflexivity|lia|simpl; lia]. }
    eapply rtc_l.
    { exact (step_recv _ _ 1 2
               (mkPool (MSend (GoInt.add 0 1)) [0] false [WRecv] (NewResults 1 2 5) None)
               O 0 [] eq_refl eq_refl eq_refl). }
    eapply rtc_l.
    { exact (step_cell d f' 1 2
               (mkPool (MSend 1) [] false [WCol 0 0] (NewResults 1 2 5) None)
               O 0 0 loc _ r eq_refl eq_refl ltac:(lia) eq_refl Hr). }
    eapply rtc_l; [|apply rtc_refl].
    exact (step_panic d f' 1 2 p3 O 0 1 c0 e eq_refl eq_refl ltac:(lia) eq_refl). }
  split; [simpl; lia|]. split; [|split].
  - exists f', (Results_Done res1). split; [|split; [|reflexivity]].
    + refine (FracIt_results d (NewMandelbrot 2) 5 1 f' (pool_init 1 2 5 1)
                (mkPool MReturned [] true [WPanicked 0 1 e] (Results_Done res1) None)
                Hstart eq_refl _ eq_refl).
      etrans; [exact Hrun4|].
      eapply rtc_l.
      { exact (step_close d f' 1 2 p4 1 eq_refl eq_refl ltac:(simpl; lia)). }
      eapply rtc_l; [|apply rtc_refl].
      refine (step_return d f' 1 2
                (mkPool MWait [] true [WPanicked 0 1 e] res1 None) eq_refl eq_refl _).
      repeat constructor.
    + simpl. rewrite insert_empty. apply map_size_singleton.
  - exists f'.
    refine (FracIt_panics d (NewMandelbrot 2) 5 1 f' (pool_init 1 2 5 1)
              (mkPool (MSend 1) [] false [WPanicked 0 1 e] res1 (Some e)) e
              Hstart eq_refl _ eq_refl).
    etrans; [exact Hrun4|].
    eapply rtc_l; [|apply rtc_refl].
    exact (step_crash d f' 1 2 p4 O 0 1 e eq_refl eq_refl).
  - exists f'.
    refine (FracIt_makechan (ex_Domain (2 ^ 46) 1) (NewMandelbrot 2) 5 1 f'
              (pool_init (2 ^ 46) 1 5 1) _ _); reflexivity.
Qed.

(** C5, as the code has it.  [FracIt] validates before any goroutine
    exists.  With [iterations < 1] it returns the error of
    [SetMaxIterations] and leaves the variant as it was.  With
    [iterations >= 1] the variant's max iteration count is stored at
    once, before the domain is looked at: if the domain then has fewer
    than one row or one column the call returns the domain error, and
    the variant keeps the new count.  In both cases the error is the
    only outcome of the call and no pool is started; when both checks
    pass, the pool starts from its initial state. *)
Theorem FracIt_validation {V : Type} `{FraccerLaws V}
    (d : DomainReader) (f : V) (iterations : Z) (numWorkers : nat) :
  (iterations < 1 ->
     FracIt_start d f iterations numWorkers = (f, inl ErrMaxIterations)
     /\ forall f' o,
          FracIt d f iterations numWorkers f' o ->
          f' = f /\ o = Returns None (Some ErrMaxIterations))
  /\ (1 <= iterations ->
      (Dimensions d).2 < 1 \/ (Dimensions d).1 < 1 ->
      FracIt_start d f iterations numWorkers
        = (fst (SetMaxIterations f iterations), inl ErrDomain)
      /\ MaxIterations (Data (fst (SetMaxIterations f iterations))) = iterations
      /\ forall f' o,
           FracIt d f iterations numWorkers f' o ->
           f' = fst (SetMaxIterations f iterations)
           /\ o = Returns None (Some ErrDomain))
  /\ (1 <= iterations ->
      1 <= (Dimensions d).1 ->
      1 <= (Dimensions d).2 ->
      FracIt_start d f iterations numWorkers
        = (fst (SetMaxIterations f iterations),
           inr (pool_init (Dimensions d).1 (Dimensions d).2 iterations numWorkers))
      /\ MaxIterations (Data (fst (SetMaxIterations f iterations))) = iterations).
Proof.
  assert (Honly : forall f0 e,
            FracIt_start d f iterations numWorkers = (f0, inl e) ->
            forall f' o, FracIt d f iterations numWorkers f' o ->
                         f' = f0 /\ o = Returns None (Some e)).
  { intros f0 e Hstart f' o Hcall.
    destruct Hcall as [f' e' Hst | f' p0 Hst _ | f' p0 p Hst _ _ _ | f' p0 p e' Hst _ _ _];
      rewrite Hstart in Hst; try discriminate.
    injection Hst as <- <-. split; reflexivity. }
  split; [|split].
  - intros Hlt.
    assert (Hstart : FracIt_start d f iterations numWorkers = (f, inl ErrMaxIterations)).
    { unfold FracIt_start. rewrite (SetMaxIterations_invalid f iterations Hlt). reflexivity. }
    split; [exact Hstart|exact (Honly _ _ Hstart)].
  - intros Hit Hdim.
    destruct (SetMaxIterations_valid f iterations Hit) as [Herr HM].
    assert (Hstart : FracIt_start d f iterations numWorkers
                     = (fst (SetMaxIterations f iterations), inl ErrDomain)).
    { unfold FracIt_start.
      destruct (SetMaxIterations f iterations) as [f' err]. simpl in *. subst err.
      destruct (Dimensions d) as [rows cols]. simpl in *.
      destruct (Z.ltb_spec cols 1); [reflexivity|].
      destruct (Z.ltb_spec rows 1); [reflexivity|lia]. }
    split; [exact Hstart|]. split; [exact HM|exact (Honly _ _ Hstart)].
  - intros Hit Hrows Hcols.
    destruct (SetMaxIterations_valid f iterations Hit) as [_ HM].
    split; [|exact HM]. apply FracIt_start_valid; assumption.
Qed.

Lemma FracIt_validation_witness :
  FracIt_start (ex_Domain 2 3) (NewMandelbrot 2) 0 2
    = (NewMandelbrot 2, inl ErrMaxIterations)
  /\ FracIt (ex_Domain 2 3) (NewMandelbrot 2) 0 2 (NewMandelbrot 2)
       (Returns None (Some ErrMaxIterations))
  /\ FracIt_start (ex_Domain 2 0) (NewMandelbrot 2) 5 2
     = (fst (SetMaxIterations (NewMandelbrot 2) 5), inl ErrDomain)
  /\ FracIt_start (ex_Domain 2 3) (NewMandelbrot 2) 5 2
     = (fst (SetMaxIterations (NewMandelbrot 2) 5), inr (pool_init 2 3 5 2)).
Proof.
  destruct (FracIt_validation (ex_Domain 2 3) (NewMandelbrot 2) 0 2) as (Hlow & _ & _).
  destruct (FracIt_validation (ex_Domain 2 0) (NewMandelbrot 2) 5 2) as (_ & Hdom & _).
  destruct (FracIt_validation (ex_Domain 2 3) (NewMandelbrot 2) 5 2) as (_ & _ & Hok).
  destruct Hlow as [Hstart _]; [lia|].
  split; [exact Hstart|]. split; [apply FracIt_error; exact Hstart|]. split.
  - apply Hdom; [lia|]. left. simpl. lia.
  - apply Hok; simpl; lia.
Defined.

(** C5, as stated, fails on its last part: with [iterations = 5] and a
    domain of no rows, validation fails with the domain error, and the
    variant has been configured all the same: its max iteration count
    was 0 before the call and is 5 after it. *)
Lemma FracIt_configures_before_domain_check :
  FracIt_start (ex_Domain 0 4) (NewMandelbrot 2) 5 2
    = (mkMandelbrot (ex_Quadratic 2 5), inl ErrDomain)
  /\ FracIt (ex_Domain 0 4) (NewMandelbrot 2) 5 2
       (mkMandelbrot (ex_Quadratic 2 5)) (Returns None (Some ErrDomain))
  /\ MaxIterations (Data (NewMandelbrot 2)) = 0
  /\ MaxIterations (Data (mkMandelbrot (ex_Quadratic 2 5))) = 5.
Proof.
  split; [reflexivity|]. split; [apply FracIt_error; reflexivity|].
  split; reflexivity.
Qed.

(* ================================================================== *)
(** * Further properties of the evaluations *)
(* ================================================================== *)

(** ** More facts about [float64] *)

Lemma IsNaN_eq_nan f : GoMath.IsNaN f = true -> f = PrimFloat.nan.
Proof. intros H. apply Prim2SF_inj. rewrite (IsNaN_Prim2SF f H). reflexivity. Qed.

Lemma leb_nan_r x : PrimFloat.leb x PrimFloat.nan = false.
Proof.
  rewrite FloatAxioms.leb_spec. change (Prim2SF nan) with S754_nan.
  unfold SFleb. destruct (Prim2SF x) as [s|s| |s m e]; reflexivity.
Qed.

Lemma mul_nan_l y : PrimFloat.mul PrimFloat.nan y = PrimFloat.nan.
Proof.
  apply Prim2SF_inj. rewrite FloatAxioms.mul_spec. change (Prim2SF nan) with S754_nan.
  reflexivity.
Qed.

Lemma mul_nan_r x : PrimFloat.mul x PrimFloat.nan = PrimFloat.nan.
Proof.
  apply Prim2SF_inj. rewrite FloatAxioms.mul_spec. change (Prim2SF nan) with S754_nan.
  unfold SF64mul, SFmul. destruct (Prim2SF x); reflexivity.
Qed.

Lemma add_nan_l y : PrimFloat.add PrimFloat.nan y = PrimFloat.nan.
Proof.
  apply Prim2SF_inj. rewrite FloatAxioms.add_spec. change (Prim2SF nan) with S754_nan.
  reflexivity.
Qed.

Lemma add_nan_r x : PrimFloat.add x PrimFloat.nan = PrimFloat.nan.
Proof.
  apply Prim2SF_inj. rewrite FloatAxioms.add_spec. change (Prim2SF nan) with S754_nan.
  unfold SF64add, SFadd. destruct (Prim2SF x); reflexivity.
Qed.

Lemma sub_nan_l y : PrimFloat.sub PrimFloat.nan y = PrimFloat.nan.
Proof.
  apply Prim2SF_inj. rewrite FloatAxioms.sub_spec. change (Prim2SF nan) with S754_nan.
  reflexivity.
Qed.

Lemma mul_opp_opp x y :
  PrimFloat.mul (PrimFloat.opp x) (PrimFloat.opp y) = PrimFloat.mul x y.
Proof.
  apply Prim2SF_inj. rewrite !FloatAxioms.mul_spec, !FloatAxioms.opp_spec.
  unfold SF64mul, SFmul, SFopp.
  destruct (Prim2SF x) as [sx|sx| |sx mx ex], (Prim2SF y) as [sy|sy| |sy my ey];
    try reflexivity; destruct sx, sy; reflexivity.
Qed.

(** ** The bailout radius *)

(** The quadratic core reads the radius only through its square, so the
    sign of the radius is lost: after [SetRadius(-r)] the Mandelbrot and
    the quadratic Julia evaluations return what they return after
    [SetRadius(r)], at every point and for every fuel. *)
Theorem quadratic_radius_sign_is_lost
    (fd : FracData) (r : float64) (C loc : complex128) (fuel : nat) :
  Mandelbrot_Frac fuel
    (mkMandelbrot (mkQuadratic (FracData_SetRadius fd (PrimFloat.opp r)))) loc
  = Mandelbrot_Frac fuel (mkMandelbrot (mkQuadratic (FracData_SetRadius fd r))) loc
  /\ JuliaQ_Frac fuel
       (mkJuliaQ (mkQuadratic (FracData_SetRadius fd (PrimFloat.opp r))) C) loc
     = JuliaQ_Frac fuel (mkJuliaQ (mkQuadratic (FracData_SetRadius fd r)) C) loc.
Proof.
  assert (Hq : forall z c,
    Quadratic_q fuel (mkQuadratic (FracData_SetRadius fd (PrimFloat.opp r))) z c
    = Quadratic_q fuel (mkQuadratic (FracData_SetRadius fd r)) z c).
  { intros z c. unfold Quadratic_q, q_loop, q_cond, q_body, q_r2, q_maxIt. simpl.
    rewrite mul_opp_opp. reflexivity. }
  split.
  - unfold Mandelbrot_Frac. simpl. rewrite Hq. reflexivity.
  - unfold JuliaQ_Frac. simpl. apply Hq.
Qed.

(** No evaluation reads the degree or the inverse of its logarithm:
    after [SetDegree(d)], whatever [d] and whatever [math.Log] gives for
    it, each of the four variants returns at every point what it
    returned before. *)
Theorem SetDegree_is_never_read
    (math_Log : float64 -> float64) (fd : FracData) (d : float64)
    (C loc : complex128) (P Q B F G : complex128 -> complex128) (e : float64)
    (fuel : nat) :
  Mandelbrot_Frac fuel (mkMandelbrot (mkQuadratic (FracData_SetDegree math_Log fd d))) loc
  = Mandelbrot_Frac fuel (mkMandelbrot (mkQuadratic fd)) loc
  /\ JuliaQ_Frac fuel (mkJuliaQ (mkQuadratic (FracData_SetDegree math_Log fd d)) C) loc
     = JuliaQ_Frac fuel (mkJuliaQ (mkQuadratic fd) C) loc
  /\ JuliaR_Frac fuel (mkJuliaR (FracData_SetDegree math_Log fd d) P Q C) loc
     = JuliaR_Frac fuel (mkJuliaR fd P Q C) loc
  /\ MandelPG_Frac fuel (mkPolynomiograph (FracData_SetDegree math_Log fd d) B F G e) loc
     = MandelPG_Frac fuel (mkPolynomiograph fd B F G e) loc.
Proof.
  unfold FracData_SetDegree, Mandelbrot_Frac, JuliaQ_Frac, Quadratic_q, JuliaR_Frac,
    MandelPG_Frac.
  split; [|split; [|split]]; reflexivity.
Qed.

(** With a NaN radius no point passes a bailout test: the quadratic core
    and the rational Julia evaluation return at once, the start value
    untouched and the count 0, whatever [MaxIterations] is. *)
Theorem NaN_radius_escapes_at_once :
  (forall (q : Quadratic) (z c : complex128) (fuel : nat),
      GoMath.IsNaN (Radius (Quadratic_FracData q)) = true ->
      Quadratic_q fuel q z c = Some (mkResult z c 0 0)
      /\ Quadratic_q_steps fuel q z c = Some O)
  /\ (forall (r : JuliaR) (loc : complex128) (fuel : nat),
      GoMath.IsNaN (Radius (JuliaR_FracData r)) = true ->
      JuliaR_Frac fuel r loc = Some (mkResult loc (JuliaR_C r) 0 0)).
Proof.
  split.
  - intros q z c fuel HR.
    assert (Hc : q_cond q (q_init z) = false).
    { unfold q_cond, q_r2. rewrite (IsNaN_eq_nan _ HR), mul_nan_l. apply leb_nan_r. }
    unfold Quadratic_q, Quadratic_q_steps, q_loop.
    destruct fuel; simpl; rewrite Hc; split; reflexivity.
  - intros r loc fuel HR.
    assert (Hc : r_cond r (r_init loc) = false).
    { unfold r_cond. rewrite (IsNaN_eq_nan _ HR). apply leb_nan_r. }
    unfold JuliaR_Frac, r_loop.
    destruct fuel; simpl; rewrite Hc; reflexivity.
Qed.

Lemma NaN_radius_escapes_at_once_witness :
  GoMath.IsNaN (Radius (Quadratic_FracData (ex_Quadratic PrimFloat.nan 5))) = true
  /\ Quadratic_q 5 (ex_Quadratic PrimFloat.nan 5) c0 (Complex 1 0)
     = Some (mkResult c0 (Complex 1 0) 0 0)
  /\ JuliaR_Frac 5 (ex_JuliaR_succ PrimFloat.nan 5) c0
     = Some (mkResult c0 (Complex 1 0) 0 0).
Proof.
  destruct NaN_radius_escapes_at_once as [Hq Hr].
  split; [reflexivity|]. split.
  - apply (Hq (ex_Quadratic PrimFloat.nan 5) c0 (Complex 1 0) 5%nat). reflexivity.
  - apply (Hr (ex_JuliaR_succ PrimFloat.nan 5) c0 5%nat). reflexivity.
Defined.

(** ** The first test *)

(** A start value that already fails the bailout test is returned as it
    is, with the count 0 and without a step, and a polynomiograph whose
    first candidate [B(loc) - F(loc)] is within [eps] of [loc] returns
    [loc] with the count 0: in all three loops this holds whatever
    [MaxIterations] is, also when it was never set. *)
Theorem first_test_decides :
  (forall (q : Quadratic) (z c : complex128) (fuel : nat),
      PrimFloat.leb (getMod2 z)
        (PrimFloat.mul (Radius (Quadratic_FracData q)) (Radius (Quadratic_FracData q)))
      = false ->
      Quadratic_q fuel q z c = Some (mkResult z c 0 0)
      /\ Quadratic_q_steps fuel q z c = Some O)
  /\ (forall (r : JuliaR) (loc : complex128) (fuel : nat),
      PrimFloat.leb (cmplx_Abs loc) (Radius (JuliaR_FracData r)) = false ->
      JuliaR_Frac fuel r loc = Some (mkResult loc (JuliaR_C r) 0 0))
  /\ (forall (m : MandelPG) (loc : complex128) (fuel : nat),
      PrimFloat.ltb (cmplx_Abs (csub (csub (B m loc) (F m loc)) loc)) (eps m) = true ->
      MandelPG_Frac (Datatypes.S fuel) m loc = Some (mkResult loc (F m loc) 0 0)).
Proof.
  split; [|split].
  - intros q z c fuel Hc.
    unfold Quadratic_q, Quadratic_q_steps, q_loop.
    destruct fuel; simpl; unfold q_cond, q_r2; simpl; rewrite Hc; split; reflexivity.
  - intros r loc fuel Hc.
    unfold JuliaR_Frac, r_loop.
    destruct fuel; simpl; unfold r_cond; simpl; rewrite Hc; reflexivity.
  - intros m loc fuel Hc.
    unfold MandelPG_Frac, pg_loop. simpl. unfold pg_body. simpl. rewrite Hc. reflexivity.
Qed.

Lemma first_test_decides_witness :
  Quadratic_q 0 (NewQuadratic 2) (Complex 3 0) c0 = Some (mkResult (Complex 3 0) c0 0 0)
  /\ JuliaR_Frac 0 (ex_JuliaR_succ 2 0) (Complex 3 4)
     = Some (mkResult (Complex 3 4) (Complex 1 0) 0 0)
  /\ MandelPG_Frac 1 (NewMandelPG 0.5 (fun z => z) (fun _ => c0) (fun c => c)) (Complex 1 1)
     = Some (mkResult (Complex 1 1) c0 0 0).
Proof.
  destruct first_test_decides as (Hq & Hr & Hpg).
  split; [|split].
  - apply (Hq (NewQuadratic 2) (Complex 3 0) c0 O). reflexivity.
  - apply (Hr (ex_JuliaR_succ 2 0) (Complex 3 4) O). reflexivity.
  - apply (Hpg (NewMandelPG 0.5 (fun z => z) (fun _ => c0) (fun c => c)) (Complex 1 1) O).
    reflexivity.
Defined.

(** ** The interior test of the Mandelbrot set *)

(** [isCardioidOrP2Bulb] is symmetric about the real axis and does not
    read its [maxIt] argument: a point and its conjugate get the same
    answer, with any two iteration counts. *)
Theorem isCardioidOrP2Bulb_conj (z : complex128) (maxIt maxIt' : Z) :
  isCardioidOrP2Bulb (cmplx_Conj z) maxIt' = isCardioidOrP2Bulb z maxIt.
Proof.
  unfold isCardioidOrP2Bulb, cmplx_Conj. simpl.
  rewrite mul_opp_opp. reflexivity.
Qed.

Lemma isCardioidOrP2Bulb_conj_free (z : complex128) (maxIt maxIt' : Z) :
  isCardioidOrP2Bulb z maxIt = isCardioidOrP2Bulb z maxIt'.
Proof. reflexivity. Qed.

(** A sample point with a NaN part is never taken for an interior point. *)
Lemma isCardioidOrP2Bulb_NaN (z : complex128) (maxIt : Z) :
  c_has_NaN z = true -> isCardioidOrP2Bulb z maxIt = false.
Proof.
  unfold c_has_NaN, isCardioidOrP2Bulb. intros Hz.
  apply orb_true_iff in Hz as [Hz|Hz]; apply IsNaN_eq_nan in Hz; rewrite Hz.
  - repeat first [rewrite sub_nan_l | rewrite mul_nan_l | rewrite add_nan_l
                  | rewrite mul_nan_r | rewrite add_nan_r | rewrite leb_nan_l].
    reflexivity.
  - repeat first [rewrite sub_nan_l | rewrite mul_nan_l | rewrite add_nan_l
                  | rewrite mul_nan_r | rewrite add_nan_r | rewrite leb_nan_l].
    reflexivity.
Qed.

(** ** Sample points with a NaN part *)

(** A NaN in a sample point ends the quadratic iterations by itself: the
    quadratic Julia evaluation returns it at once with the count 0, and
    the Mandelbrot evaluation, which starts from 0, takes one step and
    returns the count 1 (given room for one counted step and a radius
    the origin is within). *)
Theorem NaN_point_escapes :
  (forall (j : JuliaQ) (loc : complex128) (fuel : nat),
      c_has_NaN loc = true ->
      JuliaQ_Frac fuel j loc = Some (mkResult loc (JuliaQ_C j) 0 0))
  /\ (forall (m : Mandelbrot) (c : complex128) (fuel : nat),
      c_has_NaN c = true ->
      2 <= MaxIterations (Data m) <= GoInt.max_int ->
      PrimFloat.leb 0 (PrimFloat.mul (Radius (Data m)) (Radius (Data m))) = true ->
      (1 <= fuel)%nat ->
      Mandelbrot_Frac fuel m c = Some (mkResult (q_orbit c c0 1) c 1 0)
      /\ c_has_NaN (q_orbit c c0 1) = true).
Proof.
  assert (HgetMod2 : forall z, c_has_NaN z = true -> getMod2 z = PrimFloat.nan).
  { intros [a b]. unfold c_has_NaN, getMod2. simpl. intros Hz.
    apply orb_true_iff in Hz as [Hz|Hz]; apply IsNaN_eq_nan in Hz; subst.
    - rewrite mul_nan_l, !add_nan_l. reflexivity.
    - rewrite !add_nan_r. reflexivity. }
  assert (Hstep : forall c, c_has_NaN c = true -> c_has_NaN (q_orbit c c0 1) = true).
  { intros [a b]. unfold c_has_NaN, q_orbit, cadd, cmul, c0. simpl. intros Hz.
    apply orb_true_iff in Hz as [Hz|Hz]; apply IsNaN_eq_nan in Hz; subst.
    - rewrite add_nan_r. reflexivity.
    - rewrite add_nan_r. apply orb_true_r. }
  split.
  - intros j loc fuel Hloc.
    assert (Hc : q_cond (JuliaQ_Quadratic j) (q_init loc) = false).
    { unfold q_cond, q_init. simpl. rewrite (HgetMod2 loc Hloc). apply leb_nan_l. }
    unfold JuliaQ_Frac, Quadratic_q, q_loop.
    destruct fuel; simpl; rewrite Hc; reflexivity.
  - intros m c fuel Hc HM Hr Hfuel. simpl in HM, Hr.
    split; [|apply Hstep, Hc].
    unfold Mandelbrot_Frac. rewrite (isCardioidOrP2Bulb_NaN c _ Hc).
    unfold Quadratic_q.
    rewrite (q_loop_escape (Mandelbrot_Quadratic m) c c0 ltac:(lia) 1 fuel).
    + reflexivity.
    + simpl. lia.
    + intros j Hj. assert (j = O) as -> by lia. exact Hr.
    + unfold q_passes. rewrite (HgetMod2 _ (Hstep c Hc)). apply leb_nan_l.
    + exact Hfuel.
Qed.

Lemma NaN_point_escapes_witness :
  c_has_NaN (Complex PrimFloat.nan 1) = true
  /\ JuliaQ_Frac 5 (mkJuliaQ (ex_Quadratic 2 5) c0) (Complex PrimFloat.nan 1)
     = Some (mkResult (Complex PrimFloat.nan 1) c0 0 0)
  /\ Mandelbrot_Frac 5 (mkMandelbrot (ex_Quadratic 2 5)) (Complex 1 PrimFloat.nan)
     = Some (mkResult (Complex 1 PrimFloat.nan) (Complex 1 PrimFloat.nan) 1 0).
Proof.
  destruct NaN_point_escapes as [Hj Hm].
  split; [reflexivity|]. split.
  - apply (Hj (mkJuliaQ (ex_Quadratic 2 5) c0) (Complex PrimFloat.nan 1) 5%nat). reflexivity.
  - apply (Hm (mkMandelbrot (ex_Quadratic 2 5)) (Complex 1 PrimFloat.nan) 5%nat).
    + reflexivity.
    + vm_compute. split; discriminate.
    + reflexivity.
    + lia.
Defined.

(** ** The iteration budget *)

(** With [SetMaxIterations(1)] every evaluation that returns reports the
    count 0, and it does return on one unit of fuel: this holds for
    each variant that obeys [FraccerLaws], so for all four. *)
Theorem MaxIterations_1_forces_0 {V : Type} `{FraccerLaws V} (f : V) (loc : complex128) :
  (exists r, Frac 1 (SetMaxIterations f 1).1 loc = Some r)
  /\ (forall fuel r,
        Frac fuel (SetMaxIterations f 1).1 loc = Some r -> Iterations r = 0).
Proof.
  destruct (SetMaxIterations_valid f 1 ltac:(lia)) as [_ HM].
  assert (HMr : 1 <= MaxIterations (Data (SetMaxIterations f 1).1) <= GoInt.max_int)
    by (rewrite HM; unfold GoInt.max_int; lia).
  split.
  - destruct (Frac_returns _ loc HMr) as [r Hr]. rewrite HM in Hr. exists r. exact Hr.
  - intros fuel r Hr. pose proof (Frac_bounded _ loc fuel r HMr Hr) as Hb.
    rewrite HM in Hb. lia.
Qed.

Lemma MaxIterations_1_forces_0_witness :
  (exists r, Frac 1 (SetMaxIterations (NewMandelbrot 2) 1).1 (Complex 1 1) = Some r
             /\ Iterations r = 0)
  /\ (exists r, Frac 1 (SetMaxIterations (NewJuliaQ 2 c0) 1).1 c0 = Some r
                /\ Iterations r = 0)
  /\ (exists r, Frac 1 (SetMaxIterations (ex_JuliaR_succ 10 7) 1).1 c0 = Some r
                /\ Iterations r = 0)
  /\ (exists r, Frac 1 (SetMaxIterations (ex_MandelPG_never 7) 1).1 c0 = Some r
                /\ Iterations r = 0).
Proof.
  split; [|split; [|split]].
  - destruct (MaxIterations_1_forces_0 (NewMandelbrot 2) (Complex 1 1)) as [[r Hr] H0].
    exists r. split; [exact Hr|exact (H0 _ _ Hr)].
  - destruct (MaxIterations_1_forces_0 (NewJuliaQ 2 c0) c0) as [[r Hr] H0].
    exists r. split; [exact Hr|exact (H0 _ _ Hr)].
  - destruct (MaxIterations_1_forces_0 (ex_JuliaR_succ 10 7) c0) as [[r Hr] H0].
    exists r. split; [exact Hr|exact (H0 _ _ Hr)].
  - destruct (MaxIterations_1_forces_0 (ex_MandelPG_never 7) c0) as [[r Hr] H0].
    exists r. split; [exact Hr|exact (H0 _ _ Hr)].
Defined.

(** A count below [MaxIterations - 1] is an escape time (or, for the
    polynomiograph, a convergence step): raising the budget with
    [SetMaxIterations] does not change the record of such a point. *)
Lemma Quadratic_q_budget (q q' : Quadratic) (z c : complex128) (fuel : nat) (r : Result) :
  Radius (Quadratic_FracData q') = Radius (Quadratic_FracData q) ->
  1 <= MaxIterations (Quadratic_FracData q) <= MaxIterations (Quadratic_FracData q') ->
  MaxIterations (Quadratic_FracData q') <= GoInt.max_int ->
  Quadratic_q fuel q z c = Some r ->
  Iterations r < MaxIterations (Quadratic_FracData q) - 1 ->
  Quadratic_q (Z.to_nat (MaxIterations (Quadratic_FracData q'))) q' z c = Some r.
Proof.
  intros HR HM HM' Hr Hlt.
  assert (HMq : 1 <= MaxIterations (Quadratic_FracData q) <= GoInt.max_int) by lia.
  assert (HMq' : 1 <= MaxIterations (Quadratic_FracData q') <= GoInt.max_int) by lia.
  destruct (q_loop_total q c z HMq) as (n & s & Hrun & Hn & Hcount & Hz & Hpass & Hexit).
  assert (Hr' : Quadratic_q (Z.to_nat (MaxIterations (Quadratic_FracData q))) q z c
                = Some (mkResult (q_z s) c (q_count s) 0))
    by (unfold Quadratic_q; rewrite Hrun; reflexivity).
  rewrite (Quadratic_q_fuel _ _ _ _ _ _ _ Hr Hr') in *. simpl in Hlt.
  destruct Hexit as [[Hcn Hfail]|[_ Hlast]]; [|lia].
  assert (Hsame : forall j, q_passes q' c z j = q_passes q c z j)
    by (intros j; unfold q_passes, q_r2; rewrite HR; reflexivity).
  unfold Quadratic_q.
  rewrite (q_loop_escape q' c z HMq' n).
  - unfold q_st. simpl. rewrite Hz, Hcn. reflexivity.
  - lia.
  - intros j Hj. rewrite Hsame. apply Hpass, Hj.
  - rewrite Hsame. exact Hfail.
  - lia.
Qed.

(** The record of a point that escapes before the budget is used up
    does not depend on the budget: if after [SetMaxIterations(n)] the
    Mandelbrot or the quadratic Julia evaluation reports a count below
    [n - 1], it returns the same record after [SetMaxIterations(n')]
    for every [n' >= n]. *)
Theorem quadratic_escape_time_is_stable :
  (forall (m : Mandelbrot) (n n' : Z) (loc : complex128) (fuel : nat) (r : Result),
      1 <= n <= n' -> n' <= GoInt.max_int ->
      Frac fuel (SetMaxIterations m n).1 loc = Some r ->
      Iterations r < n - 1 ->
      Frac (Z.to_nat n') (SetMaxIterations m n').1 loc = Some r)
  /\ (forall (j : JuliaQ) (n n' : Z) (loc : complex128) (fuel : nat) (r : Result),
      1 <= n <= n' -> n' <= GoInt.max_int ->
      Frac fuel (SetMaxIterations j n).1 loc = Some r ->
      Iterations r < n - 1 ->
      Frac (Z.to_nat n') (SetMaxIterations j n').1 loc = Some r).
Proof.
  split.
  - intros [[fd]] n n' loc fuel r Hn Hn'. simpl.
    rewrite !FracData_SetMaxIterations_valid by lia. simpl.
    unfold Mandelbrot_Frac. simpl.
    destruct (isCardioidOrP2Bulb loc n) eqn:Hin.
    + intros [= <-]. simpl. rewrite GoInt_sub_1 by lia. lia.
    + rewrite (isCardioidOrP2Bulb_conj_free loc n' n), Hin.
      intros Hr Hlt.
      refine (Quadratic_q_budget _ _ _ _ _ _ _ _ _ Hr Hlt); simpl; [reflexivity|lia|lia].
  - intros [[fd] C] n n' loc fuel r Hn Hn'. simpl.
    rewrite !FracData_SetMaxIterations_valid by lia. simpl.
    unfold JuliaQ_Frac. simpl. intros Hr Hlt.
    refine (Quadratic_q_budget _ _ _ _ _ _ _ _ _ Hr Hlt); simpl; [reflexivity|lia|lia].
Qed.

Lemma quadratic_escape_time_is_stable_witness :
  Frac 3 (SetMaxIterations (NewMandelbrot 2) 5).1 (Complex 2 0)
    = Some (mkResult (Complex 6 0) (Complex 2 0) 2 0)
  /\ Frac 50 (SetMaxIterations (NewMandelbrot 2) 50).1 (Complex 2 0)
     = Some (mkResult (Complex 6 0) (Complex 2 0) 2 0).
Proof.
  destruct quadratic_escape_time_is_stable as [Hm _].
  assert (Hr : Frac 3 (SetMaxIterations (NewMandelbrot 2) 5).1 (Complex 2 0)
               = Some (mkResult (Complex 6 0) (Complex 2 0) 2 0)) by reflexivity.
  split; [exact Hr|].
  apply (Hm (NewMandelbrot 2) 5 50 (Complex 2 0) 3%nat _ ltac:(lia)
            ltac:(unfold GoInt.max_int; lia) Hr).
  simpl. lia.
Defined.

(** The same for the rational Julia evaluation: a count below [n - 1]
    reported after [SetMaxIterations(n)] is the record returned after
    [SetMaxIterations(n')] for every [n' >= n]. *)
Theorem JuliaR_escape_time_is_stable
    (r : JuliaR) (n n' : Z) (loc : complex128) (fuel : nat) (res : Result) :
  1 <= n <= n' -> n' <= GoInt.max_int ->
  Frac fuel (SetMaxIterations r n).1 loc = Some res ->
  Iterations res < n - 1 ->
  Frac (Z.to_nat n') (SetMaxIterations r n').1 loc = Some res.
Proof.
  destruct r as [fd p q C]. intros Hn Hn'. simpl.
  rewrite !FracData_SetMaxIterations_valid by lia. simpl.
  set (r1 := mkJuliaR (mkFracData (Radius fd) n (degree fd) (logDegreeInv fd)) p q C).
  set (r2 := mkJuliaR (mkFracData (Radius fd) n' (degree fd) (logDegreeInv fd)) p q C).
  intros Hres Hlt.
  assert (HM1 : 1 <= MaxIterations (JuliaR_FracData r1) <= GoInt.max_int) by (simpl; lia).
  assert (HM2 : 1 <= MaxIterations (JuliaR_FracData r2) <= GoInt.max_int) by (simpl; lia).
  destruct (r_loop_total r1 loc HM1) as (k & s & Hrun & Hk & Hcount & Hz & Hpass & Hexit).
  assert (Hres' : JuliaR_Frac (Z.to_nat (MaxIterations (JuliaR_FracData r1))) r1 loc
                  = Some (mkResult (r_z s) (JuliaR_C r1) (r_count s) 0))
    by (unfold JuliaR_Frac; rewrite Hrun; reflexivity).
  rewrite (JuliaR_Frac_fuel _ _ _ _ _ _ Hres Hres') in *. simpl in Hlt.
  destruct Hexit as [[Hcn Hfail]|[_ Hlast]]; [|simpl in Hlast; lia].
  unfold JuliaR_Frac.
  rewrite (r_loop_escape r2 loc HM2 k).
  - unfold r_st. simpl. rewrite Hz, Hcn. reflexivity.
  - simpl. lia.
  - intros j Hj. exact (Hpass j Hj).
  - exact Hfail.
  - simpl. lia.
Qed.

Lemma JuliaR_escape_time_is_stable_witness :
  Frac 9 (SetMaxIterations (ex_JuliaR_succ 2 0) 9).1 c0
    = Some (mkResult (Complex 3 0) (Complex 1 0) 3 0)
  /\ Frac 40 (SetMaxIterations (ex_JuliaR_succ 2 0) 40).1 c0
     = Some (mkResult (Complex 3 0) (Complex 1 0) 3 0).
Proof.
  assert (Hr : Frac 9 (SetMaxIterations (ex_JuliaR_succ 2 0) 9).1 c0
               = Some (mkResult (Complex 3 0) (Complex 1 0) 3 0)) by reflexivity.
  split; [exact Hr|].
  apply (JuliaR_escape_time_is_stable (ex_JuliaR_succ 2 0) 9 40 c0 9%nat _ ltac:(lia)
           ltac:(unfold GoInt.max_int; lia) Hr).
  simpl. lia.
Defined.

(** And for the polynomiograph: a count below [n - 1] is the step at
    which the iterates converged, and the record returned after
    [SetMaxIterations(n)] is returned after [SetMaxIterations(n')] for
    every [n' >= n]. *)
Theorem MandelPG_convergence_step_is_stable
    (m : MandelPG) (n n' : Z) (loc : complex128) (fuel : nat) (res : Result) :
  1 <= n <= n' -> n' <= GoInt.max_int ->
  Frac fuel (SetMaxIterations m n).1 loc = Some res ->
  Iterations res < n - 1 ->
  Frac (Z.to_nat n') (SetMaxIterations m n').1 loc = Some res.
Proof.
  destruct m as [fd b f g e]. intros Hn Hn'. simpl.
  rewrite !FracData_SetMaxIterations_valid by lia. simpl.
  set (m1 := mkPolynomiograph (mkFracData (Radius fd) n (degree fd) (logDegreeInv fd)) b f g e).
  set (m2 := mkPolynomiograph (mkFracData (Radius fd) n' (degree fd) (logDegreeInv fd)) b f g e).
  intros Hres Hlt.
  assert (HM1 : 1 <= MaxIterations (Polynomiograph_FracData m1) <= GoInt.max_int)
    by (simpl; lia).
  assert (HM2 : 1 <= MaxIterations (Polynomiograph_FracData m2) <= GoInt.max_int)
    by (simpl; lia).
  destruct (pg_loop_total m1 loc HM1) as (k & s & Hrun & Hk & Hcount & Hconv & Hexit).
  assert (Hres' : MandelPG_Frac (Z.to_nat (MaxIterations (Polynomiograph_FracData m1))) m1 loc
                  = Some (mkResult (pg_z s) (pg_c s) (pg_count s) 0))
    by (unfold MandelPG_Frac; rewrite Hrun; reflexivity).
  rewrite (MandelPG_Frac_fuel _ _ _ _ _ _ Hres Hres') in *. simpl in Hlt.
  destruct Hexit as [[Hs Hhit]|(_ & Hlast & _)]; [|simpl in Hlast; lia].
  subst s. simpl in Hlt.
  unfold MandelPG_Frac.
  rewrite (pg_loop_converge m2 loc HM2 (k - 1)).
  - reflexivity.
  - simpl. lia.
  - intros j Hj. exact (Hconv j Hj).
  - exact Hhit.
  - simpl. lia.
Qed.

Lemma MandelPG_convergence_step_is_stable_witness :
  Frac 5 (SetMaxIterations (ex_MandelPG 5) 5).1 (Complex 4 0)
    = Some (mkResult c0 (Complex 0.25 0) 2 0)
  /\ Frac 30 (SetMaxIterations (ex_MandelPG 5) 30).1 (Complex 4 0)
     = Some (mkResult c0 (Complex 0.25 0) 2 0).
Proof.
  assert (Hr : Frac 5 (SetMaxIterations (ex_MandelPG 5) 5).1 (Complex 4 0)
               = Some (mkResult c0 (Complex 0.25 0) 2 0)) by reflexivity.
  split; [exact Hr|].
  apply (MandelPG_convergence_step_is_stable (ex_MandelPG 5) 5 30 (Complex 4 0) 5%nat _
           ltac:(lia) ltac:(unfold GoInt.max_int; lia) Hr).
  simpl. lia.
Defined.

(** ** Evaluating before [SetMaxIterations] *)

(** The count of a value below 1 never meets [MaxIterations - 1]:
    while the bailout tests pass, the body falls through. *)
Lemma q_chain_counts (q : Quadratic) (c z0 : complex128) k :
  (forall i, (i < k)%nat -> Z.of_nat i <> q_maxIt q /\ Z.of_nat i < GoInt.max_int) ->
  (forall j, (j < k)%nat -> q_passes q c z0 j = true) ->
  forall i, (i < k)%nat ->
    q_cond q (q_st c z0 i) = true /\
    exists t, q_body q c (q_st c z0 i) = Next t /\ q_post t = q_st c z0 (Datatypes.S i).
Proof.
  intros Hcount Hpass i Hi. split; [exact (Hpass i Hi)|].
  destruct (Hcount i Hi) as [Hne Hlt].
  unfold q_body, q_st; simpl q_count; simpl q_z.
  destruct (Z.eqb_spec (Z.of_nat i) (q_maxIt q)) as [Heq|_]; [contradiction|].
  eexists; split; [reflexivity|].
  unfold q_post; simpl. rewrite GoInt_add_1 by lia. f_equal. lia.
Qed.

Lemma r_chain_counts (r : JuliaR) (loc : complex128) k :
  (forall i, (i < k)%nat ->
     Z.of_nat i <> GoInt.sub (MaxIterations (JuliaR_FracData r)) 1
     /\ Z.of_nat i < GoInt.max_int) ->
  (forall j, (j < k)%nat -> r_passes r loc j = true) ->
  forall i, (i < k)%nat ->
    r_cond r (r_st r loc i) = true /\
    exists t, r_body r (r_st r loc i) = Next t /\ r_post t = r_st r loc (Datatypes.S i).
Proof.
  intros Hcount Hpass i Hi. split; [exact (Hpass i Hi)|].
  destruct (Hcount i Hi) as [Hne Hlt].
  unfold r_body, r_st; simpl r_count; simpl r_z.
  destruct (Z.eqb_spec (Z.of_nat i) (GoInt.sub (MaxIterations (JuliaR_FracData r)) 1))
    as [Heq|_]; [contradiction|].
  eexists; split; [reflexivity|].
  unfold r_post; simpl. rewrite GoInt_add_1 by lia. f_equal. lia.
Qed.

Lemma GoInt_sub_1_nonpositive (M : Z) :
  GoInt.min_int < M <= 0 -> GoInt.sub M 1 = M - 1.
Proof.
  intros HM. apply GoInt_wrap_id.
  unfold GoInt.in_range, GoInt.min_int, GoInt.max_int in *. lia.
Qed.

Lemma nonpositive_budget_never_met (M : Z) (i : nat) :
  GoInt.min_int <= M <= 0 ->
  Z.of_nat i < GoInt.max_int ->
  Z.of_nat i <> GoInt.sub M 1.
Proof.
  unfold GoInt.sub, GoInt.wrap, GoInt.min_int, GoInt.max_int. intros HM Hi.
  destruct (Z.eq_dec M (- 2 ^ 63)) as [->|Hne].
  - change ((- 2 ^ 63 - 1 + 2 ^ 63) mod 2 ^ 64 - 2 ^ 63) with (2 ^ 63 - 1). lia.
  - rewrite Z.mod_small by lia. lia.
Qed.

(** The constructors leave [MaxIterations] at 0, and then the count
    check of the escape-time loops is of no help: with
    [MaxIterations <= 0], as long as the orbit stays within the radius
    the quadratic core and the rational Julia evaluation have not
    returned, after any number of steps an [int] can count. *)
Theorem escape_loops_need_MaxIterations :
  (forall (q : Quadratic) (z c : complex128) (fuel : nat),
      GoInt.min_int <= MaxIterations (Quadratic_FracData q) <= 0 ->
      Z.of_nat fuel <= GoInt.max_int ->
      (forall j, (j <= fuel)%nat -> q_passes q c z j = true) ->
      Quadratic_q fuel q z c = None)
  /\ (forall (r : JuliaR) (loc : complex128) (fuel : nat),
      GoInt.min_int <= MaxIterations (JuliaR_FracData r) <= 0 ->
      Z.of_nat fuel <= GoInt.max_int ->
      (forall j, (j <= fuel)%nat -> r_passes r loc j = true) ->
      JuliaR_Frac fuel r loc = None).
Proof.
  split.
  - intros q z c fuel HM Hfuel Hpass.
    unfold Quadratic_q, q_loop.
    replace fuel with (fuel + 0)%nat at 1 by lia.
    change (q_init z) with (q_st c z O).
    rewrite (for_loop_chain _ _ _ (q_st c z) fuel).
    + simpl. change (q_cond q (q_st c z fuel)) with (q_passes q c z fuel).
      rewrite (Hpass fuel) by lia. reflexivity.
    + apply q_chain_counts.
      * intros i Hi. split; [|lia]. apply nonpositive_budget_never_met; [exact HM|lia].
      * intros j Hj. apply Hpass. lia.
  - intros r loc fuel HM Hfuel Hpass.
    unfold JuliaR_Frac, r_loop.
    replace fuel with (fuel + 0)%nat at 1 by lia.
    change (r_init loc) with (r_st r loc O).
    rewrite (for_loop_chain _ _ _ (r_st r loc) fuel).
    + simpl. change (r_cond r (r_st r loc fuel)) with (r_passes r loc fuel).
      rewrite (Hpass fuel) by lia. reflexivity.
    + apply r_chain_counts.
      * intros i Hi. split; [|lia]. apply nonpositive_budget_never_met; [exact HM|lia].
      * intros j Hj. apply Hpass. lia.
Qed.

Lemma q_orbit_origin (n : nat) : q_orbit c0 c0 n = c0.
Proof. induction n as [|n IH]; [reflexivity|]. simpl. rewrite IH. reflexivity. Qed.

Lemma escape_loops_need_MaxIterations_witness :
  MaxIterations (Data (NewJuliaQ 2 c0)) = 0
  /\ JuliaQ_Frac 1000 (NewJuliaQ 2 c0) c0 = None.
Proof.
  split; [reflexivity|].
  destruct escape_loops_need_MaxIterations as [Hq _].
  apply (Hq (NewQuadratic 2) c0 c0 1000%nat).
  - vm_compute. split; discriminate.
  - vm_compute. discriminate.
  - intros j _. unfold q_passes. rewrite q_orbit_origin. reflexivity.
Defined.

(** On the interior points [Mandelbrot.Frac] answers
    [MaxIterations - 1] without looking at the value: when
    [MaxIterations] is 0 or less, and not the least [int], the count it
    reports is negative, and fresh from [NewMandelbrot] it is -1.  With
    the least [int] the subtraction wraps around and the count is the
    greatest [int]. *)
Theorem Mandelbrot_interior_count_can_be_negative :
  (forall (m : Mandelbrot) (c : complex128) (fuel : nat),
      isCardioidOrP2Bulb c (MaxIterations (Data m)) = true ->
      GoInt.min_int < MaxIterations (Data m) <= 0 ->
      exists r, Mandelbrot_Frac fuel m c = Some r
                /\ Iterations r = MaxIterations (Data m) - 1 /\ Iterations r < 0)
  /\ (forall (radius : float64) (c : complex128) (fuel : nat),
      isCardioidOrP2Bulb c 0 = true ->
      Mandelbrot_Frac fuel (NewMandelbrot radius) c = Some (mkResult c c0 (-1) 0))
  /\ (forall (m : Mandelbrot) (c : complex128) (fuel : nat),
      isCardioidOrP2Bulb c (MaxIterations (Data m)) = true ->
      MaxIterations (Data m) = GoInt.min_int ->
      Mandelbrot_Frac fuel m c = Some (mkResult c c0 GoInt.max_int 0)).
Proof.
  split; [|split].
  - intros m c fuel Hin HM. simpl in *. unfold Mandelbrot_Frac. rewrite Hin.
    eexists; split; [reflexivity|]. simpl.
    rewrite GoInt_sub_1_nonpositive; [lia|exact HM].
  - intros radius c fuel Hin. unfold Mandelbrot_Frac. simpl. rewrite Hin. reflexivity.
  - intros m c fuel Hin HM. simpl in *. unfold Mandelbrot_Frac. rewrite Hin, HM.
    reflexivity.
Qed.

Lemma Mandelbrot_interior_count_can_be_negative_witness :
  isCardioidOrP2Bulb c0 0 = true
  /\ Mandelbrot_Frac 0 (NewMandelbrot 2) c0 = Some (mkResult c0 c0 (-1) 0)
  /\ Mandelbrot_Frac 0 (mkMandelbrot (mkQuadratic (mkFracData 2 GoInt.min_int 2 0))) c0
     = Some (mkResult c0 c0 GoInt.max_int 0).
Proof.
  split; [reflexivity|].
  destruct Mandelbrot_interior_count_can_be_negative as (_ & Hnew & Hmin).
  split.
  - apply (Hnew 2%float c0 O). reflexivity.
  - apply (Hmin (mkMandelbrot (mkQuadratic (mkFracData 2 GoInt.min_int 2 0))) c0 O);
      reflexivity.
Defined.

(** ** A negative radius *)

(** The rational Julia evaluation compares the modulus itself with the
    radius, and a modulus is never below zero: with a negative radius
    every sample point is returned at once, untouched, with the count 0
    (where the quadratic variants, which square the radius, iterate as
    with its absolute value). *)
Theorem JuliaR_negative_radius (r : JuliaR) (loc : complex128) (fuel : nat) :
  PrimFloat.ltb (Radius (JuliaR_FracData r)) 0 = true ->
  JuliaR_Frac fuel r loc = Some (mkResult loc (JuliaR_C r) 0 0).
Proof.
  intros HR.
  assert (Hc : r_cond r (r_init loc) = false).
  { unfold r_cond, r_init, cmplx_Abs. simpl.
    apply leb_nonneg_negative; [apply Hypot_nonneg|exact HR]. }
  unfold JuliaR_Frac, r_loop. destruct fuel; simpl; rewrite Hc; reflexivity.
Qed.

Lemma JuliaR_negative_radius_witness :
  PrimFloat.ltb (Radius (JuliaR_FracData (ex_JuliaR_succ (-2) 5))) 0 = true
  /\ JuliaR_Frac 5 (ex_JuliaR_succ (-2) 5) c0 = Some (mkResult c0 (Complex 1 0) 0 0)
  /\ JuliaR_Frac 5 (ex_JuliaR_succ 2 5) c0 = Some (mkResult (Complex 3 0) (Complex 1 0) 3 0).
Proof.
  split; [reflexivity|]. split; [|reflexivity].
  apply (JuliaR_negative_radius (ex_JuliaR_succ (-2) 5) c0 5). reflexivity.
Defined.

(* ================================================================== *)
(** * Further properties of the dispatcher *)
(* ================================================================== *)

Section PoolWrites.
Context {V : Type} `{Fraccer V}.
Variable d : DomainReader.
Variable f : V.
Variables rows cols : Z.
Hypothesis Hrows : 1 <= rows <= GoInt.max_int.
Hypothesis Hcols : 1 <= cols <= GoInt.max_int.

Local Abbreviation step := (pool_step d f rows cols).
Local Abbreviation inv := (pool_inv d f rows cols).

Lemma pool_inv_received lo p : inv lo p -> pool_received rows p = lo.
Proof.
  intros Hinv. unfold pool_received.
  rewrite (inv_queue _ _ _ _ _ _ Hinv), length_seqZ.
  pose proof (inv_lo _ _ _ _ _ _ Hinv). lia.
Qed.

Lemma pool_fresh_init iterations numWorkers :
  pool_fresh rows (pool_init rows cols iterations numWorkers).
Proof.
  split; simpl.
  - intros row col _. apply lookup_empty.
  - intros i row col c _ _. apply lookup_empty.
  - intros i j row col col' Hi. apply lookup_replicate in Hi as [? _]. done.
Qed.

Lemma pool_fresh_step lo p p' :
  inv lo p -> pool_fresh rows p -> step p p' -> pool_fresh rows p'.
Proof.
  intros Hinv [Hfr Hfc Hfd] Hstep.
  pose proof (pool_inv_received lo p Hinv) as Hrec.
  pose proof (inv_col _ _ _ _ _ _ Hinv) as Hcol.
  pose proof (inv_main _ _ _ _ _ _ Hinv) as Hmain.
  pose proof (inv_queue _ _ _ _ _ _ Hinv) as Hqueue.
  destruct Hstep as
    [p row _ Hm Hlt Hcap | p row _ Hm Hge | p _ Hm Hall
    | p i row rest _ Hw Hq | p i _ Hw Hq Hcl
    | p i row col loc fuel r _ Hw Hlt Hat Hfrac | p i row col loc e _ Hw Hlt Hat
    | p i row col e _ Hw
    | p i row col _ Hw Hge].
  - (* send *)
    rewrite Hm in Hmain. destruct Hmain as [Hrow _].
    assert (Hsame : pool_received rows
              (mkPool (MSend (GoInt.add row 1)) (pool_queue p ++ [row]) (pool_closed p)
                      (pool_workers p) (pool_results p) (pool_panic p))
            = pool_received rows p).
    { unfold pool_received, pool_sent. simpl. rewrite Hm, length_app. simpl.
      rewrite GoInt_add_1 by (unfold GoInt.max_int in *; lia). lia. }
    split; simpl.
    + intros r c. rewrite Hsame. apply Hfr.
    + exact Hfc.
    + exact Hfd.
  - (* close *)
    rewrite Hm in Hmain. destruct Hmain as [Hrow _].
    split; simpl; [|exact Hfc|exact Hfd].
    intros r c. unfold pool_received, pool_sent in *. simpl. rewrite Hm in *.
    intros Hle. apply Hfr. lia.
  - (* return *)
    split; simpl; [|exact Hfc|exact Hfd].
    intros r c. unfold pool_received, pool_sent in *. simpl. rewrite Hm in *. apply Hfr.
  - (* receive *)
    assert (Hrow : row = lo).
    { rewrite Hq in Hqueue. destruct (Z.lt_ge_cases 0 (pool_sent rows p - lo)) as [Hpos|Hle].
      - rewrite seqZ_cons in Hqueue by lia. congruence.
      - rewrite seqZ_nil in Hqueue by lia. discriminate. }
    subst row.
    assert (Hrec' : pool_received rows
              (mkPool (pool_main p) rest (pool_closed p)
                      (<[i := WCol lo 0]> (pool_workers p)) (pool_results p) (pool_panic p))
            = lo + 1).
    { unfold pool_received, pool_sent in *. simpl. rewrite Hq in Hrec. simpl in Hrec. lia. }
    split; simpl.
    + intros r c. rewrite Hrec'. intros Hle. apply Hfr. lia.
    + intros j r col c Hj Hle.
      apply list_lookup_insert_Some in Hj as [(_ & Heq & _)|[_ Hj]].
      * injection Heq as <- <-. apply Hfr. lia.
      * exact (Hfc j r col c Hj Hle).
    + intros j k r col col' Hj Hk.
      apply list_lookup_insert_Some in Hj as [(-> & Heq & _)|[Hnej Hj]];
        apply list_lookup_insert_Some in Hk as [(-> & Heq' & _)|[Hnek Hk]]; try done.
      * injection Heq as <- <-. destruct (Hcol k lo col' Hk). lia.
      * injection Heq' as <- <-. destruct (Hcol j lo col Hj). lia.
      * exact (Hfd j k r col col' Hj Hk).
  - (* exit *)
    split; simpl; [exact Hfr| |].
    + intros j r col c Hj Hle.
      apply list_lookup_insert_Some in Hj as [(_ & Heq & _)|[_ Hj]]; [done|].
      exact (Hfc j r col c Hj Hle).
    + intros j k r col col' Hj Hk.
      apply list_lookup_insert_Some in Hj as [(_ & Heq & _)|[_ Hj]]; [done|].
      apply list_lookup_insert_Some in Hk as [(_ & Heq & _)|[_ Hk]]; [done|].
      exact (Hfd j k r col col' Hj Hk).
  - (* cell *)
    destruct (Hcol i row col Hw) as [Hrow Hc].
    assert (Hadd : GoInt.add col 1 = col + 1)
      by (apply GoInt_add_1; unfold GoInt.max_int in *; lia).
    split; simpl.
    + intros row' c' Hle. unfold pool_received, pool_sent in *. simpl in Hle.
      rewrite lookup_insert_ne; [apply Hfr; exact Hle|].
      intros [= <- <-]. lia.
    + intros j row' col' c' Hj Hle.
      apply list_lookup_insert_Some in Hj as [(<- & Heq & _)|[Hne Hj]].
      * injection Heq as <- <-. rewrite Hadd in Hle.
        rewrite lookup_insert_ne; [apply (Hfc i row col c' Hw); lia|].
        intros [= <-]. lia.
      * rewrite lookup_insert_ne; [exact (Hfc j row' col' c' Hj Hle)|].
        intros [= <- <-]. apply Hne. symmetry. exact (Hfd j i row col' col Hj Hw).
    + intros j k row' col1 col2 Hj Hk.
      apply list_lookup_insert_Some in Hj as [(<- & Heq & _)|[Hnej Hj]];
        apply list_lookup_insert_Some in Hk as [(<- & Heq' & _)|[Hnek Hk]]; try done.
      * injection Heq as <- <-. exact (Hfd i k row col col2 Hw Hk).
      * injection Heq' as <- <-. exact (Hfd j i row col1 col Hj Hw).
      * exact (Hfd j k row' col1 col2 Hj Hk).
  - (* panic *)
    split; simpl; [exact Hfr| |].
    + intros j r col' c Hj Hle.
      apply list_lookup_insert_Some in Hj as [(_ & Heq & _)|[_ Hj]]; [done|].
      exact (Hfc j r col' c Hj Hle).
    + intros j k r col1 col2 Hj Hk.
      apply list_lookup_insert_Some in Hj as [(_ & Heq & _)|[_ Hj]]; [done|].
      apply list_lookup_insert_Some in Hk as [(_ & Heq & _)|[_ Hk]]; [done|].
      exact (Hfd j k r col1 col2 Hj Hk).
  - (* the process ends *)
    split; simpl; [exact Hfr|exact Hfc|exact Hfd].
  - (* the row is done *)
    split; simpl; [exact Hfr| |].
    + intros j r col' c Hj Hle.
      apply list_lookup_insert_Some in Hj as [(_ & Heq & _)|[_ Hj]]; [done|].
      exact (Hfc j r col' c Hj Hle).
    + intros j k r col1 col2 Hj Hk.
      apply list_lookup_insert_Some in Hj as [(_ & Heq & _)|[_ Hj]]; [done|].
      apply list_lookup_insert_Some in Hk as [(_ & Heq & _)|[_ Hk]]; [done|].
      exact (Hfd j k r col1 col2 Hj Hk).
Qed.

(** What every state of a run has: the invariant, and no cell written
    ahead of its worker. *)
Lemma pool_fresh_rtc lo p p' :
  inv lo p -> pool_fresh rows p -> rtc step p p' ->
  exists lo', inv lo' p' /\ pool_fresh rows p'.
Proof.
  intros Hinv Hfresh Hrun. revert lo Hinv Hfresh.
  induction Hrun as [p|p q p' Hstep _ IH]; intros lo Hinv Hfresh; [eauto|].
  destruct (pool_inv_step d f rows cols Hrows Hcols lo p q Hinv Hstep) as [lo' Hinv'].
  apply (IH lo' Hinv'). exact (pool_fresh_step lo p q Hinv Hfresh Hstep).
Qed.

Lemma pool_reach iterations numWorkers p :
  (1 <= numWorkers)%nat ->
  rtc step (pool_init rows cols iterations numWorkers) p ->
  exists lo, inv lo p /\ pool_fresh rows p.
Proof.
  intros Hw Hrun.
  apply (pool_fresh_rtc 0 (pool_init rows cols iterations numWorkers) p); [| |exact Hrun].
  - apply pool_inv_init; [exact Hrows|exact Hw].
  - apply pool_fresh_init.
Qed.

(** A step of the pool leaves the cells as they are or fills one empty
    cell. *)
Lemma pool_step_writes p p' :
  pool_fresh rows p -> step p p' ->
  Results_cells (pool_results p') = Results_cells (pool_results p)
  \/ exists row col r,
       Results_cells (pool_results p) !! (row, col) = None
       /\ Results_cells (pool_results p') = <[(row, col) := r]> (Results_cells (pool_results p)).
Proof.
  intros [Hfr Hfc Hfd] Hstep.
  destruct Hstep as
    [p row _ Hm Hlt Hcap | p row _ Hm Hge | p _ Hm Hall
    | p i row rest _ Hw Hq | p i _ Hw Hq Hcl
    | p i row col loc fuel r _ Hw Hlt Hat Hfrac | p i row col loc e _ Hw Hlt Hat
    | p i row col e _ Hw
    | p i row col _ Hw Hge]; simpl; try (left; reflexivity).
  right. exists row, col, (mkResult (Result_Z r) (Result_C r) (Iterations r) 0).
  split; [|reflexivity]. apply (Hfc i row col col Hw). lia.
Qed.

(** The size and the capacity of the store: no step touches them. *)
Lemma pool_header_rtc p0 p :
  rtc step p0 p ->
  Results_rows (pool_results p) = Results_rows (pool_results p0)
  /\ Results_cols (pool_results p) = Results_cols (pool_results p0)
  /\ Results_iterations (pool_results p) = Results_iterations (pool_results p0).
Proof.
  intros Hrun. induction Hrun as [p|p q p' Hstep _ IH]; [auto|].
  destruct IH as (-> & -> & ->). destruct Hstep; simpl; auto.
Qed.

(** A live process in which a worker has panicked can be ended. *)
Lemma pool_can_crash p :
  pool_panic p = None -> Exists worker_panicked (pool_workers p) ->
  exists p', step p p'.
Proof.
  intros Hp Hex. apply Exists_exists in Hex as (w & Hin & Hw).
  apply list_elem_of_lookup in Hin as [i Hi].
  destruct w as [| | |row col e]; simpl in Hw; try tauto.
  eexists. eapply step_crash; eassumption.
Qed.

Lemma not_panicked_calm p :
  pool_panic p = None -> ~ Exists worker_panicked (pool_workers p) -> pool_calm p.
Proof.
  intros Hp Hno. split; [exact Hp|]. intros i row col e Hi. apply Hno.
  apply Exists_exists. exists (WPanicked row col e).
  split; [eapply list_elem_of_lookup_2; exact Hi|exact I].
Qed.

(** A state from which the pool cannot go on: the process has died, or
    the caller has returned and no worker has panicked. *)
Lemma pool_stuck lo p :
  (forall loc, exists fuel r, Frac fuel f loc = Some r) ->
  inv lo p ->
  (exists e, pool_panic p = Some e)
  \/ (pool_main p = MReturned /\ pool_calm p)
  \/ exists p', step p p'.
Proof.
  intros HFrac Hinv.
  destruct (pool_panic p) as [e|] eqn:Hp; [left; eauto|right].
  destruct (decide (Exists worker_panicked (pool_workers p))) as [Hex|Hno].
  - right. exact (pool_can_crash p Hp Hex).
  - destruct (decide (pool_main p = MReturned)) as [Hm|Hm].
    + left. split; [exact Hm|exact (not_panicked_calm p Hp Hno)].
    + right. exact (pool_progress d f rows cols Hrows Hcols lo p HFrac Hinv Hp Hm).
Qed.

End PoolWrites.

(** ** [FracIt] on any domain *)

Lemma FracIt_start_inr {V : Type} `{Fraccer V}
    (d : DomainReader) (f : V) (iterations : Z) (numWorkers : nat) f' p0 :
  FracIt_start d f iterations numWorkers = (f', inr p0) ->
  f' = fst (SetMaxIterations f iterations)
  /\ snd (SetMaxIterations f iterations) = None
  /\ p0 = pool_init (Dimensions d).1 (Dimensions d).2 iterations numWorkers
  /\ 1 <= (Dimensions d).1
  /\ 1 <= (Dimensions d).2.
Proof.
  unfold FracIt_start. destruct (SetMaxIterations f iterations) as [g [e|]]; simpl.
  - intros [= <- ?].
  - destruct (Dimensions d) as [rows cols]. simpl.
    destruct (Z.ltb_spec cols 1); simpl; [intros [= <- ?]|].
    destruct (Z.ltb_spec rows 1); simpl; [intros [= <- ?]|].
    intros [= <- <-]. repeat split; lia.
Qed.

(** Two pools whose callers have returned without a panic hold the same
    records. *)
Lemma returned_cells_agree {V : Type} `{FraccerLaws V}
    (d : DomainReader) (f : V) (rows cols lo1 lo2 : Z) (p1 p2 : pool) :
  1 <= rows <= GoInt.max_int ->
  1 <= cols <= GoInt.max_int ->
  pool_inv d f rows cols lo1 p1 -> pool_calm p1 -> pool_main p1 = MReturned ->
  pool_inv d f rows cols lo2 p2 -> pool_calm p2 -> pool_main p2 = MReturned ->
  Results_cells (pool_results p1) = Results_cells (pool_results p2).
Proof.
  intros Hrows Hcols Hinv1 Hc1 Hm1 Hinv2 Hc2 Hm2.
  destruct (pool_returned_cells d f rows cols Hrows Hcols lo1 p1 Hinv1 Hc1 Hm1)
    as (_ & Hall1 & Hcell1).
  destruct (pool_returned_cells d f rows cols Hrows Hcols lo2 p2 Hinv2 Hc2 Hm2)
    as (_ & Hall2 & Hcell2).
  apply map_eq. intros [row col].
  destruct (Results_cells (pool_results p1) !! (row, col)) as [r1|] eqn:H1.
  - destruct (Hcell1 row col r1 H1) as ([Hrow Hcol] & loc1 & fuel1 & r01 & Hat1 & Hf1 & ->).
    destruct (Hall2 row col Hrow Hcol) as [r2 H2]. rewrite H2.
    destruct (Hcell2 row col r2 H2) as (_ & loc2 & fuel2 & r02 & Hat2 & Hf2 & ->).
    assert (loc1 = loc2) as <- by congruence.
    rewrite (Frac_fuel f loc1 fuel1 fuel2 r01 r02 Hf1 Hf2). reflexivity.
  - destruct (Results_cells (pool_results p2) !! (row, col)) as [r2|] eqn:H2; [|reflexivity].
    destruct (Hcell2 row col r2 H2) as ([Hrow Hcol] & _).
    destruct (Hall1 row col Hrow Hcol) as [r1 Hr1]. congruence.
Qed.

Lemma Results_eq (a b : Results) :
  Results_rows a = Results_rows b ->
  Results_cols a = Results_cols b ->
  Results_iterations a = Results_iterations b ->
  Results_cells a = Results_cells b ->
  Results_done a = Results_done b ->
  a = b.
Proof. destruct a, b. simpl. intros -> -> -> -> ->. reflexivity. Qed.

(** A pool started on a grid of at least one row and one column, with
    at least one worker and a variant whose evaluations return, runs
    until it cannot go on: the process has died of a panic, or the
    caller has returned and no worker has panicked. *)
Lemma pool_comes_to_an_end {V : Type} `{Fraccer V}
    (d : DomainReader) (f : V) (rows cols iterations : Z) (numWorkers : nat) :
  1 <= rows <= GoInt.max_int ->
  1 <= cols <= GoInt.max_int ->
  (1 <= numWorkers)%nat ->
  (forall loc, exists fuel r, Frac fuel f loc = Some r) ->
  exists p,
    rtc (pool_step d f rows cols) (pool_init rows cols iterations numWorkers) p
    /\ ((exists e, pool_panic p = Some e) \/ (pool_main p = MReturned /\ pool_calm p)).
Proof.
  intros Hrows Hcols Hw HFrac.
  set (p0 := pool_init rows cols iterations numWorkers).
  assert (Hinv0 : pool_inv d f rows cols 0 p0)
    by (apply pool_inv_init; [exact Hrows|exact Hw]).
  apply sn_reaches_final.
  - exact (pool_sn d f rows cols Hrows Hcols 0 p0 Hinv0).
  - intros p Hrun.
    destruct (pool_inv_rtc d f rows cols Hrows Hcols 0 p0 p Hinv0 Hrun) as [lo Hinv].
    destruct (pool_stuck d f rows cols Hrows Hcols lo p HFrac Hinv) as [Hd|[Hr|Hs]]; auto.
Qed.

(** On a domain whose grid can be fetched, a call that passes
    validation and gets its channel has a run that returns a result
    collection. *)
Lemma FracIt_can_return {V : Type} `{FraccerLaws V}
    (d : DomainReader) (f : V) (iterations : Z) (numWorkers : nat) :
  1 <= (Dimensions d).1 <= GoInt.max_int ->
  1 <= (Dimensions d).2 <= GoInt.max_int ->
  GoRuntime.makechan_fits (Dimensions d).1 = true ->
  1 <= iterations <= GoInt.max_int ->
  (1 <= numWorkers)%nat ->
  (forall row col, 0 <= row < (Dimensions d).1 -> 0 <= col < (Dimensions d).2 ->
                   snd (At d col row) = None) ->
  exists f' results, FracIt d f iterations numWorkers f' (Returns (Some results) None).
Proof.
  intros Hrows Hcols Hfits Hit Hw HAt.
  pose proof (FracIt_start_valid d f iterations numWorkers
                ltac:(lia) ltac:(lia) ltac:(lia)) as Hstart.
  destruct (SetMaxIterations_valid f iterations ltac:(lia)) as [_ HM].
  set (f' := fst (SetMaxIterations f iterations)) in *.
  assert (HFrac : forall loc, exists fuel r, Frac fuel f' loc = Some r).
  { intros loc. destruct (Frac_returns f' loc ltac:(rewrite HM; exact Hit)) as [r Hr]. eauto. }
  destruct (pool_comes_to_an_end d f' _ _ iterations numWorkers Hrows Hcols Hw HFrac)
    as (p & Hrun & Hend).
  destruct Hend as [[e Hdead]|[Hm _]].
  - exfalso.
    assert (Hcalm : pool_calm p).
    { eapply pool_calm_rtc;
        [exact Hrows|exact Hcols|exact HAt| |apply pool_calm_init|exact Hrun].
      apply pool_inv_init; [exact Hrows|exact Hw]. }
    destruct Hcalm as [Hnone _]. congruence.
  - exists f', (pool_results p). eapply FracIt_results; eassumption.
Qed.

(** On a domain whose grid can be fetched, the outcome of [FracIt] does
    not depend on the number of workers or on the way the goroutines
    are scheduled: two calls on the same domain, variant and iteration
    count that both return a result collection, be it with different
    numbers of workers, leave the variant in the same state and return
    equal collections, with the same size, capacity, seal and records.
    (Where a lookup fails, the collections a call can return differ.) *)
Theorem FracIt_result_is_unique {V : Type} `{FraccerLaws V}
    (d : DomainReader) (f : V) (iterations : Z) (numWorkers1 numWorkers2 : nat)
    (f1 f2 : V) (results1 results2 : Results) :
  (Dimensions d).1 <= GoInt.max_int ->
  (Dimensions d).2 <= GoInt.max_int ->
  (1 <= numWorkers1)%nat ->
  (1 <= numWorkers2)%nat ->
  (forall row col, 0 <= row < (Dimensions d).1 -> 0 <= col < (Dimensions d).2 ->
                   snd (At d col row) = None) ->
  FracIt d f iterations numWorkers1 f1 (Returns (Some results1) None) ->
  FracIt d f iterations numWorkers2 f2 (Returns (Some results2) None) ->
  f1 = f2 /\ results1 = results2.
Proof.
  intros Hrmax Hcmax Hw1 Hw2 HAt Hcall1 Hcall2.
  inversion Hcall1 as [| | f1' p01 p1 Hstart1 _ Hrun1 Hm1 |]; subst.
  inversion Hcall2 as [| | f2' p02 p2 Hstart2 _ Hrun2 Hm2 |]; subst.
  destruct (FracIt_start_inr d f iterations numWorkers1 f1 p01 Hstart1)
    as (-> & _ & -> & Hrows & Hcols).
  destruct (FracIt_start_inr d f iterations numWorkers2 f2 p02 Hstart2)
    as (-> & _ & -> & _ & _).
  split; [reflexivity|].
  set (f' := fst (SetMaxIterations f iterations)) in *.
  set (rows := (Dimensions d).1) in *. set (cols := (Dimensions d).2) in *.
  assert (Hr : 1 <= rows <= GoInt.max_int) by lia.
  assert (Hc : 1 <= cols <= GoInt.max_int) by lia.
  assert (Hinv01 : pool_inv d f' rows cols 0 (pool_init rows cols iterations numWorkers1))
    by (apply pool_inv_init; [exact Hr|exact Hw1]).
  assert (Hinv02 : pool_inv d f' rows cols 0 (pool_init rows cols iterations numWorkers2))
    by (apply pool_inv_init; [exact Hr|exact Hw2]).
  destruct (pool_inv_rtc d f' rows cols Hr Hc 0 _ p1 Hinv01 Hrun1) as [lo1 Hinv1].
  destruct (pool_inv_rtc d f' rows cols Hr Hc 0 _ p2 Hinv02 Hrun2) as [lo2 Hinv2].
  assert (Hcalm1 : pool_calm p1).
  { eapply pool_calm_rtc;
      [exact Hr|exact Hc|exact HAt|exact Hinv01|apply pool_calm_init|exact Hrun1]. }
  assert (Hcalm2 : pool_calm p2).
  { eapply pool_calm_rtc;
      [exact Hr|exact Hc|exact HAt|exact Hinv02|apply pool_calm_init|exact Hrun2]. }
  destruct (pool_header_rtc d f' rows cols _ _ Hrun1) as (Hr1 & Hc1 & Hi1).
  destruct (pool_header_rtc d f' rows cols _ _ Hrun2) as (Hr2 & Hc2 & Hi2).
  apply Results_eq.
  - rewrite Hr1, Hr2. reflexivity.
  - rewrite Hc1, Hc2. reflexivity.
  - rewrite Hi1, Hi2. reflexivity.
  - exact (returned_cells_agree d f' rows cols lo1 lo2 p1 p2 Hr Hc
             Hinv1 Hcalm1 Hm1 Hinv2 Hcalm2 Hm2).
  - destruct (inv_returned _ _ _ _ _ _ Hinv1 Hm1) as [_ ->].
    destruct (inv_returned _ _ _ _ _ _ Hinv2 Hm2) as [_ ->]. reflexivity.
Qed.

Lemma FracIt_result_is_unique_witness :
  exists f1 f2 results1 results2,
    FracIt (ex_Domain 2 3) (NewMandelbrot 2) 5 1 f1 (Returns (Some results1) None)
    /\ FracIt (ex_Domain 2 3) (NewMandelbrot 2) 5 4 f2 (Returns (Some results2) None)
    /\ f1 = f2 /\ results1 = results2.
Proof.
  assert (Hrows : 1 <= (Dimensions (ex_Domain 2 3)).1 <= GoInt.max_int)
    by (vm_compute; split; discriminate).
  assert (Hcols : 1 <= (Dimensions (ex_Domain 2 3)).2 <= GoInt.max_int)
    by (vm_compute; split; discriminate).
  assert (Hit : 1 <= 5 <= GoInt.max_int) by (vm_compute; split; discriminate).
  destruct (FracIt_can_return (ex_Domain 2 3) (NewMandelbrot 2) 5 1
              Hrows Hcols eq_refl Hit ltac:(lia) (ex_Domain_At_ok 2 3))
    as (f1 & results1 & Hcall1).
  destruct (FracIt_can_return (ex_Domain 2 3) (NewMandelbrot 2) 5 4
              Hrows Hcols eq_refl Hit ltac:(lia) (ex_Domain_At_ok 2 3))
    as (f2 & results2 & Hcall2).
  exists f1, f2, results1, results2.
  split; [exact Hcall1|]. split; [exact Hcall2|].
  apply (FracIt_result_is_unique (ex_Domain 2 3) (NewMandelbrot 2) 5 1 4);
    [apply Hrows|apply Hcols|lia|lia|exact (ex_Domain_At_ok 2 3)|exact Hcall1|exact Hcall2].
Defined.

(** A lookup error of the domain is never reported through the error
    result of [FracIt].  When validation passes, the channel is made
    and some point of the grid cannot be fetched, the process cannot
    survive the call: every run that can go no further has died of the
    panic of a worker, and such a run exists.  Every outcome of the
    call is a panic that carries the error of a lookup inside the grid,
    or, when the caller gets past [wg.Wait()] before the process has
    died, the return with a nil error of a collection that holds no
    record for any point that cannot be fetched. *)
Theorem FracIt_domain_fault {V : Type} `{FraccerLaws V}
    (d : DomainReader) (f : V) (iterations : Z) (numWorkers : nat) (row col : Z) :
  let rows := (Dimensions d).1 in
  let cols := (Dimensions d).2 in
  1 <= rows <= GoInt.max_int ->
  1 <= cols <= GoInt.max_int ->
  GoRuntime.makechan_fits rows = true ->
  1 <= iterations <= GoInt.max_int ->
  (1 <= numWorkers)%nat ->
  0 <= row < rows -> 0 <= col < cols ->
  snd (At d col row) <> None ->
  (exists f' e, FracIt d f iterations numWorkers f' (Panics e))
  /\ (forall f' o,
        FracIt d f iterations numWorkers f' o ->
        (exists e row' col',
           o = Panics e
           /\ 0 <= row' < rows /\ 0 <= col' < cols
           /\ snd (At d col' row') = Some e)
        \/ (exists results,
              o = Returns (Some results) None
              /\ forall row' col',
                   snd (At d col' row') <> None ->
                   Results_cells results !! (row', col') = None))
  /\ (forall f' p0 p,
        FracIt_start d f iterations numWorkers = (f', inr p0) ->
        rtc (pool_step d f' rows cols) p0 p ->
        (forall p', ~ pool_step d f' rows cols p p') ->
        exists e, pool_panic p = Some e).
Proof.
  intros rows cols Hrows Hcols Hfits Hit Hw Hrow Hcol Hbad.
  pose proof (FracIt_start_valid d f iterations numWorkers
                ltac:(lia) ltac:(fold rows; lia) ltac:(fold cols; lia)) as Hstart.
  fold rows cols in Hstart.
  destruct (SetMaxIterations_valid f iterations ltac:(lia)) as [_ HM].
  set (f' := fst (SetMaxIterations f iterations)) in *.
  set (p0 := pool_init rows cols iterations numWorkers) in *.
  assert (HFrac : forall loc, exists fuel r, Frac fuel f' loc = Some r).
  { intros loc. destruct (Frac_returns f' loc ltac:(rewrite HM; exact Hit)) as [r Hr]. eauto. }
  assert (Hinv0 : pool_inv d f' rows cols 0 p0)
    by (apply pool_inv_init; [exact Hrows|exact Hw]).
  assert (Hreach : forall p, rtc (pool_step d f' rows cols) p0 p ->
                             exists lo, pool_inv d f' rows cols lo p).
  { intros p Hrun. exact (pool_inv_rtc d f' rows cols Hrows Hcols 0 p0 p Hinv0 Hrun). }
  assert (Hnocalm : forall p, rtc (pool_step d f' rows cols) p0 p ->
                              ~ (pool_main p = MReturned /\ pool_calm p)).
  { intros p Hrun [Hm Hcalm]. destruct (Hreach p Hrun) as [lo Hinv].
    destruct (pool_returned_cells d f' rows cols Hrows Hcols lo p Hinv Hcalm Hm)
      as (_ & Hfull & Hcells).
    destruct (Hfull row col Hrow Hcol) as [r Hr].
    destruct (Hcells row col r Hr) as (_ & loc & _ & _ & Hat & _).
    apply Hbad. rewrite Hat. reflexivity. }
  split; [|split].
  - destruct (pool_comes_to_an_end d f' rows cols iterations numWorkers Hrows Hcols Hw HFrac)
      as (p & Hrun & [[e Hdead]|Hret]).
    + exists f', e. eapply FracIt_panics; eassumption.
    + destruct (Hnocalm p Hrun Hret).
  - intros f'' o Hcall.
    destruct Hcall as [g e Hs | g q0 Hs Hno | g q0 p Hs _ Hrun Hm | g q0 p e Hs _ Hrun Hpanic];
      rewrite Hstart in Hs; [discriminate| | |].
    + fold rows in Hno. congruence.
    + injection Hs as Hg Hq0. rewrite <- Hg, <- Hq0 in Hrun.
      right. exists (pool_results p). split; [reflexivity|].
      intros row' col' Hbad'. destruct (Hreach p Hrun) as [lo Hinv].
      destruct (Results_cells (pool_results p) !! (row', col')) as [r|] eqn:Hr; [|reflexivity].
      destruct (inv_cells _ _ _ _ _ _ Hinv row' col' r Hr) as (_ & loc & _ & _ & Hat & _).
      exfalso. apply Hbad'. rewrite Hat. reflexivity.
    + injection Hs as Hg Hq0. rewrite <- Hg, <- Hq0 in Hrun.
      left. destruct (Hreach p Hrun) as [lo Hinv].
      destruct (inv_panic _ _ _ _ _ _ Hinv e Hpanic) as (i & row' & col' & Hi).
      destruct (inv_panicked _ _ _ _ _ _ Hinv i row' col' e Hi) as [[Hrow' Hcol'] Hat].
      pose proof (pool_sent_le d f' rows cols lo p Hinv) as Hlo.
      exists e, row', col'. repeat split; auto; lia.
  - intros g q0 p Hs Hrun Hstuck.
    rewrite Hstart in Hs. injection Hs as Hg Hq0.
    rewrite <- Hg, <- Hq0 in Hrun. rewrite <- Hg in Hstuck.
    destruct (Hreach p Hrun) as [lo Hinv].
    destruct (pool_stuck d f' rows cols Hrows Hcols lo p HFrac Hinv) as [Hd|[Hr|[p' Hs]]].
    + exact Hd.
    + destruct (Hnocalm p Hrun Hr).
    + destruct (Hstuck p' Hs).
Qed.

Lemma FracIt_domain_fault_witness :
  (0 <= 0 < 2 /\ 0 <= 2 < 3 /\ snd (At (ex_Domain_short 2 2) 2 0) <> None)
  /\ exists f',
       FracIt (ex_Domain_short 2 2) (NewMandelbrot 2) 5 2 f'
              (Panics "gofrac: out of range"%string).
Proof.
  assert (Hrows : 1 <= (Dimensions (ex_Domain_short 2 2)).1 <= GoInt.max_int)
    by (vm_compute; split; discriminate).
  assert (Hcols : 1 <= (Dimensions (ex_Domain_short 2 2)).2 <= GoInt.max_int)
    by (vm_compute; split; discriminate).
  assert (Hit : 1 <= 5 <= GoInt.max_int) by (vm_compute; split; discriminate).
  assert (Hrow : 0 <= 0 < (Dimensions (ex_Domain_short 2 2)).1) by (simpl; lia).
  assert (Hcol : 0 <= 2 < (Dimensions (ex_Domain_short 2 2)).2) by (simpl; lia).
  assert (Hbad : snd (At (ex_Domain_short 2 2) 2 0) <> None) by (simpl; discriminate).
  split; [split; [lia|split; [lia|exact Hbad]]|].
  destruct (FracIt_domain_fault (ex_Domain_short 2 2) (NewMandelbrot 2) 5 2 0 2
              Hrows Hcols eq_refl Hit ltac:(lia) Hrow Hcol Hbad)
    as ((f' & e & Hcall) & Hall & _).
  destruct (Hall f' _ Hcall)
    as [(e' & row' & col' & Heq & _ & _ & Hat)|(results & Heq & _)]; [|discriminate].
  injection Heq as <-. exists f'.
  simpl in Hat.
  destruct ((0 <=? col') && (col' <? 2) && (0 <=? row') && (row' <? 2)); simpl in Hat;
    [discriminate|].
  injection Hat as <-. exact Hcall.
Defined.

Lemma sum_list_with_replicate {A : Type} (g : A -> nat) (n : nat) (x : A) :
  sum_list_with g (replicate n x) = (n * g x)%nat.
Proof. induction n as [|n IH]; simpl; [reflexivity|]. rewrite IH. lia. Qed.

Lemma pool_measure_init (rows cols iterations : Z) (numWorkers : nat) :
  0 <= rows -> 0 <= cols ->
  Z.of_nat (pool_measure rows cols (pool_init rows cols iterations numWorkers))
  = rows * (cols + 3) + Z.of_nat numWorkers + 3.
Proof.
  intros Hrows Hcols. unfold pool_measure, pool_init. simpl.
  rewrite sum_list_with_replicate. simpl. rewrite Z.sub_0_r. nia.
Qed.

(** [FracIt] cannot run for ever, whatever the domain and the
    scheduler: counting one step for each send, receive, test of a
    column, close, exit and return, and for a panic and the end of the
    process, a pool of [numWorkers] workers on a grid of [rows] by
    [cols] takes at most [rows * (cols + 3) + numWorkers + 3] steps,
    also when a lookup fails on the way. *)
Theorem FracIt_step_bound {V : Type} `{Fraccer V}
    (d : DomainReader) (f : V) (iterations : Z) (numWorkers : nat)
    (f' : V) (p0 p : pool) (n : nat) :
  let rows := (Dimensions d).1 in
  let cols := (Dimensions d).2 in
  rows <= GoInt.max_int ->
  cols <= GoInt.max_int ->
  (1 <= numWorkers)%nat ->
  FracIt_start d f iterations numWorkers = (f', inr p0) ->
  nsteps (pool_step d f' rows cols) n p0 p ->
  Z.of_nat n <= rows * (cols + 3) + Z.of_nat numWorkers + 3.
Proof.
  intros rows cols Hrmax Hcmax Hw Hstart Hrun.
  destruct (FracIt_start_inr d f iterations numWorkers f' p0 Hstart)
    as (_ & _ & -> & Hrows & Hcols).
  fold rows cols in Hrows, Hcols, Hrun.
  assert (Hr : 1 <= rows <= GoInt.max_int) by lia.
  assert (Hc : 1 <= cols <= GoInt.max_int) by lia.
  assert (Hinv0 : pool_inv d f' rows cols 0 (pool_init rows cols iterations numWorkers))
    by (apply pool_inv_init; [exact Hr|exact Hw]).
  pose proof (pool_nsteps_bound d f' rows cols Hr Hc 0 _ p n Hinv0 Hrun) as Hbound.
  pose proof (pool_measure_init rows cols iterations numWorkers ltac:(lia) ltac:(lia)).
  lia.
Qed.

Lemma FracIt_step_bound_witness :
  FracIt_start (ex_Domain_short 2 2) (NewMandelbrot 2) 5 2
    = (fst (SetMaxIterations (NewMandelbrot 2) 5), inr (pool_init 2 3 5 2))
  /\ nsteps (pool_step (ex_Domain_short 2 2) (fst (SetMaxIterations (NewMandelbrot 2) 5)) 2 3)
            2 (pool_init 2 3 5 2)
            (mkPool (MSend 1) [] false [WRecv; WCol 0 0] (NewResults 2 3 5) None)
  /\ Z.of_nat 2 <= 2 * (3 + 3) + Z.of_nat 2 + 3.
Proof.
  assert (Hstart : FracIt_start (ex_Domain_short 2 2) (NewMandelbrot 2) 5 2
                   = (fst (SetMaxIterations (NewMandelbrot 2) 5), inr (pool_init 2 3 5 2)))
    by reflexivity.
  assert (Hrun : nsteps (pool_step (ex_Domain_short 2 2)
                           (fst (SetMaxIterations (NewMandelbrot 2) 5)) 2 3)
                   2 (pool_init 2 3 5 2)
                   (mkPool (MSend 1) [] false [WRecv; WCol 0 0] (NewResults 2 3 5) None)).
  { eapply nsteps_l.
    - apply (step_send _ _ 2 3 (pool_init 2 3 5 2) 0); [reflexivity|reflexivity|lia|simpl; lia].
    - eapply nsteps_l; [|apply nsteps_O].
      exact (step_recv _ _ 2 3
               (mkPool (MSend (GoInt.add 0 1)) [0] false [WRecv; WRecv] (NewResults 2 3 5) None)
               1%nat 0 [] eq_refl eq_refl eq_refl). }
  split; [exact Hstart|]. split; [exact Hrun|].
  eapply (FracIt_step_bound (ex_Domain_short 2 2) (NewMandelbrot 2) 5 2);
    [vm_compute; discriminate|vm_compute; discriminate|lia|exact Hstart|exact Hrun].
Defined.

(** No record of the store is written twice, and no two workers are in
    the same row: in every state a call of [FracIt] reaches, a step
    either leaves the records as they are or fills a cell that was
    empty, and the workers inside a row are in different rows.  (The
    calls of [SetResult] need no lock against each other for the
    cells.) *)
Theorem FracIt_writes_each_cell_once {V : Type} `{Fraccer V}
    (d : DomainReader) (f : V) (iterations : Z) (numWorkers : nat)
    (f' : V) (p0 p p' : pool) :
  let rows := (Dimensions d).1 in
  let cols := (Dimensions d).2 in
  rows <= GoInt.max_int ->
  cols <= GoInt.max_int ->
  (1 <= numWorkers)%nat ->
  FracIt_start d f iterations numWorkers = (f', inr p0) ->
  rtc (pool_step d f' rows cols) p0 p ->
  pool_step d f' rows cols p p' ->
  (Results_cells (pool_results p') = Results_cells (pool_results p)
   \/ exists row col r,
        Results_cells (pool_results p) !! (row, col) = None
        /\ Results_cells (pool_results p')
           = <[(row, col) := r]> (Results_cells (pool_results p)))
  /\ (forall i j row col col',
        pool_workers p !! i = Some (WCol row col) ->
        pool_workers p !! j = Some (WCol row col') ->
        i = j).
Proof.
  intros rows cols Hrmax Hcmax Hw Hstart Hrun Hstep.
  destruct (FracIt_start_inr d f iterations numWorkers f' p0 Hstart)
    as (_ & _ & -> & Hrows & Hcols).
  fold rows cols in Hrows, Hcols, Hrun.
  assert (Hr : 1 <= rows <= GoInt.max_int) by lia.
  assert (Hc : 1 <= cols <= GoInt.max_int) by lia.
  destruct (pool_reach d f' rows cols Hr Hc iterations numWorkers p Hw Hrun)
    as (lo & Hinv & Hfresh).
  split; [|exact (fresh_distinct rows p Hfresh)].
  exact (pool_step_writes d f' rows cols p p' Hfresh Hstep).
Qed.

Lemma FracIt_writes_each_cell_once_witness :
  exists r,
    pool_step (ex_Domain 2 3) (fst (SetMaxIterations (NewMandelbrot 2) 5)) 2 3
      (mkPool (MSend 1) [] false [WRecv; WCol 0 0] (NewResults 2 3 5) None)
      (mkPool (MSend 1) [] false [WRecv; WCol 0 (GoInt.add 0 1)]
              (Results_SetResult (NewResults 2 3 5) 0 0 (Result_Z r) (Result_C r) (Iterations r))
              None)
    /\ (∅ : gmap (Z * Z) Result) !! (0, 0) = None
    /\ (Results_cells
          (Results_SetResult (NewResults 2 3 5) 0 0 (Result_Z r) (Result_C r) (Iterations r))
        = Results_cells (NewResults 2 3 5)
        \/ exists row col r',
             Results_cells (NewResults 2 3 5) !! (row, col) = None
             /\ Results_cells
                  (Results_SetResult (NewResults 2 3 5) 0 0
                     (Result_Z r) (Result_C r) (Iterations r))
                = <[(row, col) := r']> (Results_cells (NewResults 2 3 5))).
Proof.
  set (f' := fst (SetMaxIterations (NewMandelbrot 2) 5)).
  set (loc := fst (At (ex_Domain 2 3) 0 0)).
  assert (HM : 1 <= MaxIterations (Data f') <= GoInt.max_int)
    by (vm_compute; split; discriminate).
  destruct (Frac_returns f' loc HM) as [r Hr].
  exists r.
  assert (Hstart : FracIt_start (ex_Domain 2 3) (NewMandelbrot 2) 5 2
                   = (f', inr (pool_init 2 3 5 2))) by reflexivity.
  assert (Hrun : rtc (pool_step (ex_Domain 2 3) f' 2 3) (pool_init 2 3 5 2)
                   (mkPool (MSend 1) [] false [WRecv; WCol 0 0] (NewResults 2 3 5) None)).
  { eapply rtc_l.
    - apply (step_send _ _ 2 3 (pool_init 2 3 5 2) 0); [reflexivity|reflexivity|lia|simpl; lia].
    - eapply rtc_l; [|apply rtc_refl].
      exact (step_recv _ _ 2 3
               (mkPool (MSend (GoInt.add 0 1)) [0] false [WRecv; WRecv] (NewResults 2 3 5) None)
               1%nat 0 [] eq_refl eq_refl eq_refl). }
  assert (Hat : At (ex_Domain 2 3) 0 0 = (loc, None)) by reflexivity.
  assert (Hstep : pool_step (ex_Domain 2 3) f' 2 3
            (mkPool (MSend 1) [] false [WRecv; WCol 0 0] (NewResults 2 3 5) None)
            (mkPool (MSend 1) [] false [WRecv; WCol 0 (GoInt.add 0 1)]
               (Results_SetResult (NewResults 2 3 5) 0 0
                  (Result_Z r) (Result_C r) (Iterations r))
               None)).
  { exact (step_cell _ _ 2 3
             (mkPool (MSend 1) [] false [WRecv; WCol 0 0] (NewResults 2 3 5) None)
             1%nat 0 0 loc _ r eq_refl eq_refl ltac:(lia) Hat Hr). }
  split; [exact Hstep|]. split; [reflexivity|].
  destruct (FracIt_writes_each_cell_once (ex_Domain 2 3) (NewMandelbrot 2) 5 2 f' _ _ _
           ltac:(vm_compute; discriminate) ltac:(vm_compute; discriminate) ltac:(lia)
           Hstart Hrun Hstep) as [Hcells _].
  exact Hcells.
Defined.

(** The caller never blocks on a full channel.  Whenever it stands at
    the send of row [row], the buffer of [rowJobs], made for [rows]
    elements, holds fewer than [rows] of them: the rows just below
    [row], in increasing order.  So the send can be taken at once. *)
Theorem FracIt_send_never_blocks {V : Type} `{Fraccer V}
    (d : DomainReader) (f : V) (iterations : Z) (numWorkers : nat)
    (f' : V) (p0 p : pool) (row : Z) :
  let rows := (Dimensions d).1 in
  let cols := (Dimensions d).2 in
  rows <= GoInt.max_int ->
  cols <= GoInt.max_int ->
  (1 <= numWorkers)%nat ->
  FracIt_start d f iterations numWorkers = (f', inr p0) ->
  rtc (pool_step d f' rows cols) p0 p ->
  pool_panic p = None ->
  pool_main p = MSend row ->
  row < rows ->
  Z.of_nat (length (pool_queue p)) <= row
  /\ pool_queue p
     = seqZ (row - Z.of_nat (length (pool_queue p))) (Z.of_nat (length (pool_queue p)))
  /\ pool_step d f' rows cols p
       (mkPool (MSend (row + 1)) (pool_queue p ++ [row]) (pool_closed p)
               (pool_workers p) (pool_results p) (pool_panic p)).
Proof.
  intros rows cols Hrmax Hcmax Hw Hstart Hrun Halive Hm Hlt.
  destruct (FracIt_start_inr d f iterations numWorkers f' p0 Hstart)
    as (_ & _ & -> & Hrows & Hcols).
  fold rows cols in Hrows, Hcols, Hrun.
  assert (Hr : 1 <= rows <= GoInt.max_int) by lia.
  assert (Hc : 1 <= cols <= GoInt.max_int) by lia.
  destruct (pool_reach d f' rows cols Hr Hc iterations numWorkers p Hw Hrun)
    as (lo & Hinv & _).
  pose proof (inv_lo _ _ _ _ _ _ Hinv) as Hlo.
  pose proof (inv_queue _ _ _ _ _ _ Hinv) as Hqueue.
  pose proof (inv_main _ _ _ _ _ _ Hinv) as Hmain.
  unfold pool_sent in Hlo, Hqueue. rewrite Hm in Hlo, Hqueue, Hmain.
  assert (Hlen : Z.of_nat (length (pool_queue p)) = row - lo).
  { rewrite Hqueue, length_seqZ. lia. }
  split; [lia|]. split.
  - rewrite Hlen. replace (row - (row - lo)) with lo by lia. exact Hqueue.
  - rewrite <- (GoInt_add_1 row) by (unfold GoInt.max_int in *; lia).
    apply step_send; [exact Halive|exact Hm|exact Hlt|lia].
Qed.

Lemma FracIt_send_never_blocks_witness :
  pool_step (ex_Domain 2 3) (fst (SetMaxIterations (NewMandelbrot 2) 5)) 2 3
    (mkPool (MSend 1) [0] false [WRecv; WRecv] (NewResults 2 3 5) None)
    (mkPool (MSend 2) [0; 1] false [WRecv; WRecv] (NewResults 2 3 5) None).
Proof.
  set (f' := fst (SetMaxIterations (NewMandelbrot 2) 5)).
  assert (Hstart : FracIt_start (ex_Domain 2 3) (NewMandelbrot 2) 5 2
                   = (f', inr (pool_init 2 3 5 2))) by reflexivity.
  assert (Hrun : rtc (pool_step (ex_Domain 2 3) f' 2 3) (pool_init 2 3 5 2)
                   (mkPool (MSend 1) [0] false [WRecv; WRecv] (NewResults 2 3 5) None)).
  { eapply rtc_l; [|apply rtc_refl].
    apply (step_send _ _ 2 3 (pool_init 2 3 5 2) 0); [reflexivity|reflexivity|lia|simpl; lia]. }
  destruct (FracIt_send_never_blocks (ex_Domain 2 3) (NewMandelbrot 2) 5 2 f' _ _ 1
              ltac:(vm_compute; discriminate) ltac:(vm_compute; discriminate) ltac:(lia)
              Hstart Hrun eq_refl eq_refl ltac:(simpl; lia)) as (_ & _ & Hstep).
  exact Hstep.
Defined.
